(** * typescript-docs-verifier: the snippet compiler and its entry points

    A shallow embedding of [src/src/SnippetCompiler.ts], [src/index.ts] and
    the second entry point [src/unnamed/part_000], with the properties the
    specification states about them and, after these, further properties
    of the code: of the constructor and the TypeScript configuration, of
    the replacement of temporary paths, of the line numbers and of the
    course of a run.

    Conventions.
    - A JavaScript string is the list of its UTF-16 code units ([jsstring]).
    - Libraries that are not part of the repository (chalk, strip-ansi,
      path, fs-extra, ts-node, the clock) are parameters of the model,
      gathered in the record [Env].
    - Asynchronous code is a state-and-rejection monad; the order in which
      concurrent tasks complete is chosen by an arbitrary [Scheduler].
    - A line number is a JavaScript number: a non-negative integer that a
      double holds, or [Infinity].
    - The [catch] branch of [testCodeCompilation] is given twice: for the
      errors the libraries declare, on which it always returns, and for any
      error object, on which it can throw itself; the two agree wherever
      the second returns. *)

From Stdlib Require Import Ascii String.
From Stdlib Require Import List NArith Bool Lia Arith.
From Stdlib Require Import Permutation Sorted DecimalN.
Import ListNotations.

Set Implicit Arguments.

(* ===================================================================== *)
(** ** JavaScript strings *)
(* ===================================================================== *)

Module Js.

Definition char := N.
Definition jsstring := list char.

(** An ASCII literal as a JavaScript string. *)
Definition str (s : string) : jsstring :=
  map N_of_ascii (list_ascii_of_string s).

Definition LF : char := 10%N.
Definition DOLLAR : char := 36%N.
(** U+2192, the arrow of the display label. *)
Definition ARROW : char := 8594%N.

(** What [.] does not match in a regular expression without the [s] flag:
    LF, CR, U+2028 and U+2029. *)
Definition isLineTerminator (c : char) : bool :=
  (c =? 10)%N || (c =? 13)%N || (c =? 8232)%N || (c =? 8233)%N.

Definition notTerminator (c : char) : Prop := isLineTerminator c = false.

(** [\d] *)
Definition isDigit (c : char) : bool := (48 <=? c)%N && (c <=? 57)%N.

Definition startsWithDigit (s : list char) : bool :=
  match s with
  | c :: _ => isDigit c
  | [] => false
  end.

Fixpoint eqb (a b : jsstring) : bool :=
  match a, b with
  | [], [] => true
  | x :: a', y :: b' => (x =? y)%N && eqb a' b'
  | _, _ => false
  end.

(** [stripPrefix p s] is [Some r] when [s = p ++ r]. *)
Fixpoint stripPrefix (p s : jsstring) : option jsstring :=
  match p with
  | [] => Some s
  | x :: p' =>
      match s with
      | y :: s' => if (x =? y)%N then stripPrefix p' s' else None
      | [] => None
      end
  end.

(** [s.includes(x)] *)
Fixpoint includes (x s : jsstring) : bool :=
  match stripPrefix x s with
  | Some _ => true
  | None => match s with
            | [] => false
            | _ :: s' => includes x s'
            end
  end.

Definition isInfix (x s : jsstring) : Prop := exists a b, s = a ++ x ++ b.

(** The longest run of digits at the head of [s], and what follows it:
    a greedy [\d*]. *)
Fixpoint spanDigits (s : jsstring) : jsstring * jsstring :=
  match s with
  | c :: s' =>
      if isDigit c then let (d, r) := spanDigits s' in (c :: d, r)
      else ([], s)
  | [] => ([], [])
  end.

(** A greedy [\d+] at the head of [s]. Where the next element of the
    pattern is not a digit, giving digits back can never help, so the
    greedy choice is the only one the backtracking matcher can succeed
    with. *)
Definition digits1 (s : jsstring) : option (jsstring * jsstring) :=
  match spanDigits s with
  | ([], _) => None
  | (d, r) => Some (d, r)
  end.

(** [s.split('\n')] *)
Fixpoint split (sep : char) (s : jsstring) : list jsstring :=
  match s with
  | [] => [[]]
  | c :: s' =>
      if (c =? sep)%N then [] :: split sep s'
      else match split sep s' with
           | l :: ls => (c :: l) :: ls
           | [] => [[c]]
           end
  end.

(** Decimal digits of a number, as [String(n)] and [BigInt.toString()]
    print a non-negative integer. *)
Fixpoint uintChars (d : Decimal.uint) : jsstring :=
  match d with
  | Decimal.Nil => []
  | Decimal.D0 d' => 48%N :: uintChars d'
  | Decimal.D1 d' => 49%N :: uintChars d'
  | Decimal.D2 d' => 50%N :: uintChars d'
  | Decimal.D3 d' => 51%N :: uintChars d'
  | Decimal.D4 d' => 52%N :: uintChars d'
  | Decimal.D5 d' => 53%N :: uintChars d'
  | Decimal.D6 d' => 54%N :: uintChars d'
  | Decimal.D7 d' => 55%N :: uintChars d'
  | Decimal.D8 d' => 56%N :: uintChars d'
  | Decimal.D9 d' => 57%N :: uintChars d'
  end.

Definition toString (n : N) : jsstring := uintChars (N.to_uint n).

(** *** Numbers

    The numbers [parseInt] gives on digits: a double that is a
    non-negative integer, held as that integer, or [Infinity]. *)
Inductive number :=
| Finite (n : N)
| Infinity.

(** Equality of the elements of a [Set] (SameValueZero). *)
Definition sameNumber (a b : number) : bool :=
  match a, b with
  | Finite x, Finite y => (x =? y)%N
  | Infinity, Infinity => true
  | _, _ => false
  end.

Definition numberLt (a b : number) : Prop :=
  match a, b with
  | Finite x, Finite y => (x < y)%N
  | Finite _, Infinity => True
  | Infinity, _ => False
  end.

Definition numberLe (a b : number) : Prop := a = b \/ numberLt a b.

(** The double nearest to a natural number, the even one of two that are
    as near: the number itself up to 53 bits, beyond that its leading 53
    bits rounded, and [Infinity] when what comes out has more than 1024
    bits (from 2^1024 - 2^970 on). *)
Definition toDouble (n : N) : number :=
  let bits := N.size n in
  if (bits <=? 53)%N then Finite n
  else
    let shift := (bits - 53)%N in
    let q := N.shiftr n shift in
    let r := N.land n (N.ones shift) in
    let half := N.shiftl 1 (shift - 1) in
    let q' := if (half <? r)%N || ((r =? half)%N && N.odd q)
              then (q + 1)%N else q in
    let rounded := N.shiftl q' shift in
    if (N.size rounded <=? 1024)%N then Finite rounded else Infinity.

(** [parseInt(s, 10)] on a string of digits (the only strings the code
    passes are captures of [\d+]): the integer the digits write, as a
    double. (Past the 20th digit ECMAScript lets an engine read the
    digits as zeros; here every digit counts.) *)
Definition parseStep (acc : N) (c : char) : N := (10 * acc + (c - 48))%N.

Definition parseInt (s : jsstring) : number :=
  toDouble (fold_left parseStep s 0%N).

(** *** [String.prototype.replace]: expansion of the replacement text

    ECMAScript's GetSubstitution for a pattern with one capture group and
    no named group: [$$] is a dollar, [$&] the match, [$`] the text before
    it, [$'] the text after it, [$1] and [$01] the group; any other [$]
    stands for itself. *)
Section GetSubstitution.
Variables matched before after group1 : jsstring.

Fixpoint getSubstitution (template : jsstring) : jsstring :=
  match template with
  | [] => []
  | c :: t =>
      if (c =? DOLLAR)%N then
        match t with
        | c1 :: t1 =>
            if (c1 =? DOLLAR)%N then DOLLAR :: getSubstitution t1
            else if (c1 =? 38)%N then matched ++ getSubstitution t1
            else if (c1 =? 96)%N then before ++ getSubstitution t1
            else if (c1 =? 39)%N then after ++ getSubstitution t1
            else if (c1 =? 49)%N then group1 ++ getSubstitution t1
            else if (c1 =? 48)%N then
              match t1 with
              | c2 :: t2 =>
                  if (c2 =? 49)%N then group1 ++ getSubstitution t2
                  else c :: getSubstitution t
              | [] => c :: getSubstitution t
              end
            else c :: getSubstitution t
        | [] => [c]
        end
      else c :: getSubstitution t
  end.
End GetSubstitution.

End Js.

(* ===================================================================== *)
(** ** Objects, results and the asynchronous monad *)
(* ===================================================================== *)

Module Rt.
Import Js.

(** A property value: a string, or anything else ([typeof v !== 'string']). *)
Inductive JsValue :=
| VString (s : jsstring)
| VOther (tag : nat).

(** An own property of an object. *)
Record Property := mkProperty {
  key : jsstring;
  enumerable : bool;
  value : JsValue
}.

(** An error object: whether [error instanceof TSNode.TSError] holds;
    its own data properties in creation order (keys are distinct,
    integer-like keys do not occur on errors); whether it takes new
    properties; and which of its own properties are not writable. A
    frozen object takes none and has them all read-only. The [message]
    an [Error] constructor sets is an own, non-enumerable property. The
    engine's [stack] is not among the properties: the code neither reads
    nor assigns it, and what a later reading gives is the engine's
    concern. *)
Record JsError := mkError {
  instanceofTSError : bool;
  properties : list Property;
  extensible : bool;
  readOnly : list jsstring
}.

Definition wellFormed (e : JsError) : Prop := NoDup (map key (properties e)).

Fixpoint getProp (k : jsstring) (ps : list Property) : option JsValue :=
  match ps with
  | [] => None
  | p :: ps' => if Js.eqb (key p) k then Some (value p) else getProp k ps'
  end.

(** [error[k] = v]: an existing property keeps its place and its
    attributes, a new one is added last and is enumerable. *)
Fixpoint setProp (k : jsstring) (v : JsValue) (ps : list Property) : list Property :=
  match ps with
  | [] => [mkProperty k true v]
  | p :: ps' =>
      if Js.eqb (key p) k then mkProperty (key p) (enumerable p) v :: ps'
      else p :: setProp k v ps'
  end.

Definition assign (k : jsstring) (v : JsValue) (e : JsError) : JsError :=
  mkError (instanceofTSError e) (setProp k v (properties e))
          (extensible e) (readOnly e).

(** [error[k] = v] in the strict code of a module, [None] standing for
    the [TypeError] it throws: when the property is there and is not
    writable, and when it is not there and the object takes no new
    one. *)
Definition assignChecked (k : jsstring) (v : JsValue) (e : JsError)
  : option JsError :=
  match getProp k (properties e) with
  | Some _ => if existsb (Js.eqb k) (readOnly e) then None else Some (assign k v e)
  | None => if extensible e then Some (assign k v e) else None
  end.

(** [Object.entries(error)]: the own enumerable properties, in order. *)
Definition entries (e : JsError) : list (jsstring * JsValue) :=
  map (fun p => (key p, value p)) (filter enumerable (properties e)).

(** Reading a property TypeScript types as [string] ([message] of
    [Error], [diagnosticText] of [TSError]), on an object that respects
    the declared types ([wellTyped]). A missing [message] is the empty
    string of [Error.prototype]. What the code does on any object is
    [messageRead] and [diagnosticTextRead] below. *)
Definition readString (k : jsstring) (e : JsError) : jsstring :=
  match getProp k (properties e) with
  | Some (VString s) => s
  | _ => []
  end.

Definition K_message : jsstring := str "message".
Definition K_diagnosticText : jsstring := str "diagnosticText".

Definition isString (o : option JsValue) : bool :=
  match o with Some (VString _) => true | _ => false end.

Definition wellTyped (e : JsError) : Prop :=
  (getProp K_message (properties e) = None \/
   isString (getProp K_message (properties e)) = true) /\
  (instanceofTSError e = true ->
   isString (getProp K_diagnosticText (properties e)) = true).

(** An object on which every assignment of the code succeeds. *)
Definition rewritable (e : JsError) : Prop :=
  extensible e = true /\ readOnly e = [].

(** [error.message], as the receiver of [replace]: a value that is not a
    string has no such method (numbers, booleans, [null], [undefined],
    arrays and plain objects have none; an object that brings its own
    [replace] is not among the values of the model) and the call is a
    [TypeError], for which [None] stands. *)
Definition messageRead (e : JsError) : option jsstring :=
  match getProp K_message (properties e) with
  | Some (VString s) => Some s
  | Some (VOther _) => None
  | None => Some []
  end.

(** [error.diagnosticText], as the receiver of [split]. *)
Definition diagnosticTextRead (e : JsError) : option jsstring :=
  match getProp K_diagnosticText (properties e) with
  | Some (VString s) => Some s
  | _ => None
  end.

(** [new Error(message)]: [message] is own and not enumerable; the
    object is an ordinary one. *)
Definition newError (message : jsstring) : JsError :=
  mkError false [mkProperty K_message false (VString message)] true [].

(** What a [catch] clause receives: an [Error], or any other value, of
    which the code only takes [String(rawError)] (a value whose
    conversion to a string itself throws is not among these). *)
Inductive Thrown :=
| ThrownError (e : JsError)
| ThrownValue (asString : jsstring).

(** A [Set<number>]: its elements in insertion order. *)
Definition NumberSet := list number.

Definition setAdd (n : number) (s : NumberSet) : NumberSet :=
  if existsb (sameNumber n) s then s else s ++ [n].

(** Settled promises. *)
Inductive Result (E A : Type) :=
| Ok (a : A)
| Err (e : E).
Arguments Ok {E A} a.
Arguments Err {E A} e.

(** Which step of a run rejected; the rejection value itself is [reason]. *)
Inductive Cause :=
| WorkingDirectory
| PackageManifest
| Document (file : jsstring).

Record Rejection := mkRejection {
  cause : Cause;
  reason : JsError
}.

(** Calls on the scratch directory, as they happen. *)
Inductive Event :=
| EvRemove (ok : bool)
| EvEnsureDir (ok : bool)
| EvWriteFile (path : jsstring) (ok : bool)
| EvCompile (path : jsstring).

(** The scratch directory: whether it exists, and the files written to
    it (path and content, latest first). *)
Record FS := mkFS {
  present : bool;
  files : list (jsstring * jsstring)
}.

Record State := mkState {
  fs : FS;
  removes : nat;          (* calls of fsExtra.remove so far *)
  reads : nat;            (* readings of the clock so far *)
  log : list Event        (* latest last *)
}.

(** An asynchronous computation: it settles with a value or a rejection
    and leaves a state either way. *)
Definition M (A : Type) : Type := State -> Result Rejection A * State.

Definition ret {A} (a : A) : M A := fun st => (Ok a, st).

Definition bind {A B} (m : M A) (f : A -> M B) : M B :=
  fun st =>
    match m st with
    | (Ok a, st') => f a st'
    | (Err e, st') => (Err e, st')
    end.

Notation "x <- m ;; k" := (bind m (fun x => k))
  (at level 61, m at next level, right associativity).
Notation "m ;; k" := (bind m (fun _ => k))
  (at level 61, right associativity).

(** [try { body } finally { await cleanup }]: the cleanup always runs; if
    it rejects, its rejection replaces the outcome of the body. *)
Definition tryFinally {A} (body : M A) (cleanup : M unit) : M A :=
  fun st =>
    let (r, st1) := body st in
    match cleanup st1 with
    | (Ok _, st2) => (r, st2)
    | (Err e, st2) => (Err e, st2)
    end.

(** Calling each async function of [l.map(async ...)] runs it up to its
    first suspension, one after the other. *)
Fixpoint mapSync {A B} (f : A -> State -> B * State) (l : list A) (st : State)
  : list B * State :=
  match l with
  | [] => ([], st)
  | a :: l' =>
      let (b, st1) := f a st in
      let (bs, st2) := mapSync f l' st1 in
      (b :: bs, st2)
  end.

(** *** Completion order

    Of the tasks still pending (their input positions), a scheduler says
    which one completes next: the one at that place of the list, the last
    one if the number is too large. Every function is a scheduler. *)
Definition Scheduler := list nat -> nat.

Fixpoint takeAt {A} (k : nat) (x : A) (l : list A) : A * list A :=
  match k, l with
  | S k', y :: l' => let (z, r) := takeAt k' y l' in (z, x :: r)
  | _, _ => (x, l)
  end.

(** [Promise.all]: the tasks complete in the scheduler's order. The first
    rejection rejects the whole; tasks still pending then settle
    unobserved and are dropped (the tasks this program passes either
    leave the state alone or never reject). When all have fulfilled, the
    values are listed by input position. *)
Fixpoint settle {A} (sched : Scheduler) (fuel : nat)
  (pending : list (nat * M A)) : M (list (nat * A)) :=
  match fuel, pending with
  | S fuel', p :: ps =>
      let (next, rest) := takeAt (sched (map fst (p :: ps))) p ps in
      fun st =>
        match snd next st with
        | (Ok a, st1) =>
            match settle sched fuel' rest st1 with
            | (Ok done, st2) => (Ok ((fst next, a) :: done), st2)
            | (Err e, st2) => (Err e, st2)
            end
        | (Err e, st1) => (Err e, st1)
        end
  | _, _ => ret []
  end.

(** A task with its input position. *)
Definition indexed {X A} (task : X -> M A) (ix : nat * X) : nat * M A :=
  (fst ix, task (snd ix)).

Definition keyLe {A} (x y : nat * A) : Prop := fst x <= fst y.
Definition keyLt {A} (x y : nat * A) : Prop := fst x < fst y.

(** The input positions in the order in which [settle] completes them. *)
Fixpoint completionOrder (sched : Scheduler) (fuel : nat) (pending : list nat)
  : list nat :=
  match fuel, pending with
  | S fuel', p :: ps =>
      let (next, rest) := takeAt (sched (p :: ps)) p ps in
      next :: completionOrder sched fuel' rest
  | _, _ => []
  end.

(** The place of [a] in [l] (the length of [l] when it is not there). *)
Fixpoint indexOf (a : nat) (l : list nat) : nat :=
  match l with
  | [] => 0
  | x :: l' => if a =? x then 0 else S (indexOf a l')
  end.

(** The scheduler that completes [n] tasks in the order [order]: with
    [k] tasks still pending, the next one is the one [order] lists at
    place [n - k]. *)
Definition schedulerOf (n : nat) (order : list nat) : Scheduler :=
  fun pending => indexOf (nth (n - length pending) order 0) pending.

Fixpoint insertByIndex {A} (x : nat * A) (l : list (nat * A)) : list (nat * A) :=
  match l with
  | [] => [x]
  | y :: l' => if fst x <=? fst y then x :: l else y :: insertByIndex x l'
  end.

Definition byIndex {A} (l : list (nat * A)) : list A :=
  map snd (fold_right insertByIndex [] l).

Definition promiseAll {A} (sched : Scheduler) (tasks : list (M A)) : M (list A) :=
  fun st =>
    match settle sched (length tasks) (combine (seq 0 (length tasks)) tasks) st with
    | (Ok done, st') => (Ok (byIndex done), st')
    | (Err e, st') => (Err e, st')
    end.

End Rt.

(* ===================================================================== *)
(** ** src/src/SnippetCompiler.ts *)
(* ===================================================================== *)

Module CodeBlock.
Import Js.
Record t := mk {
  file : jsstring;
  index : nat;
  snippet : jsstring;
  sanitisedCode : jsstring
}.
End CodeBlock.

Module SnippetCompilationResult.
Import Js Rt.
Record t := mk {
  file : jsstring;
  index : nat;
  snippet : jsstring;
  linesWithErrors : list number;
  error : option JsError
}.
End SnippetCompilationResult.

Module SnippetCompiler.
Import Js Rt.

(** [./PackageInfo]'s [PackageDefinition]. *)
Record PackageDefinition := mkPackage {
  name : jsstring;
  main : jsstring
}.

(** What the compiler is given from outside the file: the libraries it
    calls and the behaviour of the file system, the clock and the
    TypeScript service during one run. *)
Record Env := mkEnv {
  (* chalk's two styles *)
  blue : jsstring -> jsstring;
  cyan : jsstring -> jsstring;
  (* strip-ansi *)
  stripAnsi : jsstring -> jsstring;
  (* path.join *)
  pathJoin : jsstring -> jsstring -> jsstring;
  (* process.hrtime.bigint(): the k-th reading *)
  hrtime : nat -> N;
  (* fs-extra: the error, if any, of the k-th remove, of ensureDir, and
     of writeFile on a path *)
  removeFault : nat -> option JsError;
  ensureDirFault : option JsError;
  writeFileFault : jsstring -> option JsError;
  (* PackageInfo.read() *)
  packageInfoRead : Result JsError PackageDefinition;
  (* CodeBlockExtractor.extract(file) *)
  extract : jsstring -> Result JsError (list jsstring);
  (* new LocalImportSubstituter(pkg).substituteLocalPackageImports(code) *)
  substituteLocalPackageImports : PackageDefinition -> jsstring -> jsstring;
  (* TSNode.Service.compile(code, fileName): what it throws, if anything *)
  tsCompile : jsstring -> jsstring -> option Thrown
}.

(** *** The two regular expressions *)

Definition COMPILED_DOCS_BLOCK : jsstring := str "/compiled-docs/block-".
Definition DOT_TS : jsstring := str ".ts".

(** [\/compiled-docs\/block-\d+\.ts] at the head of [s]: the text
    matched and what follows it. *)
Definition matchBlockFile (s : jsstring) : option (jsstring * jsstring) :=
  match stripPrefix COMPILED_DOCS_BLOCK s with
  | Some r1 =>
      match digits1 r1 with
      | Some (d, r2) =>
          match stripPrefix DOT_TS r2 with
          | Some r3 => Some (COMPILED_DOCS_BLOCK ++ d ++ DOT_TS, r3)
          | None => None
          end
      | None => None
      end
  | None => None
  end.

Definition blockFileHere (s : jsstring) : option (jsstring * jsstring * jsstring) :=
  match matchBlockFile s with
  | Some (p, r) => Some ([], p, r)
  | None => None
  end.

(** the pattern, a greedy star in group 1 followed by
    [\/compiled-docs\/block-\d+\.ts], at the head of [s]: group 1,
    the rest of the match, and what follows. The star is greedy: it
    first takes one more character and gives it back only when the rest
    of the pattern fails after it. *)
Fixpoint COMPILED_DOCS_FILE_PREFIX_PATTERN (s : jsstring)
  : option (jsstring * jsstring * jsstring) :=
  match s with
  | c :: s' =>
      if isLineTerminator c then blockFileHere s
      else match COMPILED_DOCS_FILE_PREFIX_PATTERN s' with
           | Some (g, p, r) => Some (c :: g, p, r)
           | None => blockFileHere s
           end
  | [] => blockFileHere []
  end.

(** [s.replace(COMPILED_DOCS_FILE_PREFIX_PATTERN, template)] with the
    [g] flag: at each position from the left the pattern is tried; a
    match is replaced by the expansion of the template and the search
    resumes after it ([skip] counts the characters of the match still to
    pass); a character no match starts at is kept. *)
Fixpoint replaceAll (template before : jsstring) (skip : nat) (s : jsstring)
  : jsstring :=
  match s with
  | [] => []
  | c :: s' =>
      match skip with
      | S k => replaceAll template (before ++ [c]) k s'
      | O =>
          match COMPILED_DOCS_FILE_PREFIX_PATTERN s with
          | Some (g, p, r) =>
              getSubstitution (g ++ p) before r g template
              ++ replaceAll template (before ++ [c]) (length (g ++ p) - 1) s'
          | None => c :: replaceAll template (before ++ [c]) 0 s'
          end
      end
  end.

Definition CODE_BLOCK : jsstring := str "Code Block ".
Definition COLON : char := 58%N.

(** [Code Block \d+(?::(\d+):\d+)] at the head of [s]: group 1. *)
Definition ttyReference (s : jsstring) : option jsstring :=
  match stripPrefix CODE_BLOCK s with
  | Some r1 =>
      match digits1 r1 with
      | Some (_, r2) =>
          match stripPrefix [COLON] r2 with
          | Some r3 =>
              match digits1 r3 with
              | Some (line, r4) =>
                  match stripPrefix [COLON] r4 with
                  | Some r5 =>
                      match digits1 r5 with
                      | Some _ => Some line
                      | None => None
                      end
                  | None => None
                  end
              | None => None
              end
          | None => None
          end
      | None => None
      end
  | None => None
  end.

(** [(?:\((\d+),\d+\))] at the head of [s]: group 2. *)
Definition nonTtyReference (s : jsstring) : option jsstring :=
  match stripPrefix [40%N] s with
  | Some r1 =>
      match digits1 r1 with
      | Some (line, r2) =>
          match stripPrefix [44%N] r2 with
          | Some r3 =>
              match digits1 r3 with
              | Some (_, r4) =>
                  match stripPrefix [41%N] r4 with
                  | Some _ => Some line
                  | None => None
                  end
              | None => None
              end
          | None => None
          end
      | None => None
      end
  | None => None
  end.

(** [s.match(/Code Block \d+(?::(\d+):\d+)|(?:\((\d+),\d+\))/)]: the two
    groups of the leftmost match, the first alternative tried first at
    each position; [None] when nothing matches. *)
Fixpoint matchLineReference (s : jsstring)
  : option (option jsstring * option jsstring) :=
  match ttyReference s with
  | Some g => Some (Some g, None)
  | None =>
      match nonTtyReference s with
      | Some g => Some (None, Some g)
      | None =>
          match s with
          | [] => None
          | _ :: s' => matchLineReference s'
          end
      end
  end.

(** [parseInt(ttyLineNumber || nonTtyLineNumber, 10)], [None] for NaN. A
    group that took part in the match is a non-empty string, hence
    truthy. *)
Definition lineNumberOf (stripped : jsstring) : option number :=
  match matchLineReference stripped with
  | Some (Some tty, _) => Some (parseInt tty)
  | Some (None, Some nonTty) => Some (parseInt nonTty)
  | _ => None
  end.

(** [`block-${id}.ts`] *)
Definition tempFileName (id : jsstring) : jsstring :=
  str "block-" ++ id ++ DOT_TS.

Section Compiler.
Variable env : Env.
Variable workingDirectory : jsstring.

(** chalk`{blue ${example.file}} → {cyan Code Block ${example.index}}` *)
Definition label (example : CodeBlock.t) : jsstring :=
  blue env (CodeBlock.file example) ++ str " " ++ [ARROW] ++ str " "
  ++ cyan env (CODE_BLOCK ++ toString (N.of_nat (CodeBlock.index example))).

Definition removeTemporaryFilePaths (message : jsstring) (example : CodeBlock.t)
  : jsstring :=
  replaceAll (label example) [] 0 message.

(** [fsExtra.remove(this.workingDirectory)]: the directory goes with all
    it holds; a call that fails leaves it as it was. *)
Definition cleanWorkingDirectory : M unit :=
  fun st =>
    match removeFault env (removes st) with
    | Some e =>
        (Err (mkRejection WorkingDirectory e),
         mkState (fs st) (S (removes st)) (reads st) (log st ++ [EvRemove false]))
    | None =>
        (Ok tt,
         mkState (mkFS false []) (S (removes st)) (reads st)
                 (log st ++ [EvRemove true]))
    end.

(** [fsExtra.ensureDir(this.workingDirectory)]: the directory exists
    afterwards; a call that fails leaves things as they were. *)
Definition ensureDir : M unit :=
  fun st =>
    match ensureDirFault env with
    | Some e =>
        (Err (mkRejection WorkingDirectory e),
         mkState (fs st) (removes st) (reads st) (log st ++ [EvEnsureDir false]))
    | None =>
        (Ok tt,
         mkState (mkFS true (files (fs st))) (removes st) (reads st)
                 (log st ++ [EvEnsureDir true]))
    end.

Definition sanitiseCodeBlock (importSubstituter : jsstring -> jsstring)
  (block : jsstring) : jsstring :=
  let localisedBlock := importSubstituter block in
  localisedBlock.

(** [blocks.map((block, index) => ...)] from position [i] on. *)
Fixpoint mapBlocks (file : jsstring) (importSubstituter : jsstring -> jsstring)
  (i : nat) (blocks : list jsstring) : list CodeBlock.t :=
  match blocks with
  | [] => []
  | block :: rest =>
      CodeBlock.mk file (i + 1) block (sanitiseCodeBlock importSubstituter block)
      :: mapBlocks file importSubstituter (S i) rest
  end.

Definition extractFileCodeBlocks (file : jsstring)
  (importSubstituter : jsstring -> jsstring) : M (list CodeBlock.t) :=
  fun st =>
    match extract env file with
    | Ok blocks => (Ok (mapBlocks file importSubstituter 0 blocks), st)
    | Err e => (Err (mkRejection (Document file) e), st)
    end.

Definition packageInfo : M PackageDefinition :=
  fun st =>
    match packageInfoRead env with
    | Ok packageDefn => (Ok packageDefn, st)
    | Err e => (Err (mkRejection PackageManifest e), st)
    end.

Definition extractAllCodeBlocks (extractionOrder : Scheduler)
  (documentationFiles : list jsstring) : M (list CodeBlock.t) :=
  packageDefn <- packageInfo ;;
  let importSubstituter := substituteLocalPackageImports env packageDefn in
  codeBlocks <- promiseAll extractionOrder
                  (map (fun file => extractFileCodeBlocks file importSubstituter)
                       documentationFiles) ;;
  ret (concat codeBlocks).

(** [compile], up to its [await]: the clock is read and the file name
    built. *)
Definition compileStart : State -> jsstring * State :=
  fun st =>
    let id := toString (hrtime env (reads st)) in
    let codeFile := pathJoin env workingDirectory (tempFileName id) in
    (codeFile, mkState (fs st) (removes st) (S (reads st)) (log st)).

(** [compile], from the completion of [writeFile] on: [None] when it
    returns, the value thrown otherwise. *)
Definition compileResume (code codeFile : jsstring) : State -> option Thrown * State :=
  fun st =>
    match writeFileFault env codeFile with
    | Some e =>
        (Some (ThrownError e),
         mkState (fs st) (removes st) (reads st)
                 (log st ++ [EvWriteFile codeFile false]))
    | None =>
        (tsCompile env code codeFile,
         mkState (mkFS (present (fs st)) ((codeFile, code) :: files (fs st)))
                 (removes st) (reads st)
                 (log st ++ [EvWriteFile codeFile true; EvCompile codeFile]))
    end.

(** [rawError instanceof Error ? rawError : new Error(String(rawError))] *)
Definition toError (rawError : Thrown) : JsError :=
  match rawError with
  | ThrownError e => e
  | ThrownValue s => newError s
  end.

(** [Object.entries(error).forEach(...)]: every own enumerable property
    holding a string is assigned its scrubbed value. *)
Definition scrubEntries (example : CodeBlock.t) (error : JsError) : JsError :=
  fold_left
    (fun (acc : JsError) (kv : jsstring * JsValue) =>
       match snd kv with
       | VString s =>
           assign (fst kv) (VString (removeTemporaryFilePaths s example)) acc
       | VOther _ => acc
       end)
    (entries error) error.

(** The [Set] of line numbers: one per line of [diagnosticText] in
    which the pattern matches. *)
Definition collectLines (error : JsError) : NumberSet :=
  if instanceofTSError error then
    fold_left
      (fun (set : NumberSet) (message : jsstring) =>
         match lineNumberOf (stripAnsi env message) with
         | Some lineNumber => setAdd lineNumber set
         | None => set
         end)
      (split LF (readString K_diagnosticText error)) []
  else [].

(** The [catch] branch of [testCodeCompilation], on an error that has
    the declared types and takes the assignments; on any error object
    the branch is [compilationFailedChecked] below, which agrees with
    this one wherever it returns. *)
Definition compilationFailed (example : CodeBlock.t) (rawError : Thrown)
  : SnippetCompilationResult.t :=
  let error := toError rawError in
  let error :=
    assign K_message
      (VString (removeTemporaryFilePaths (readString K_message error) example))
      error in
  let error := scrubEntries example error in
  let linesWithErrors := collectLines error in
  SnippetCompilationResult.mk (CodeBlock.file example) (CodeBlock.index example)
    (CodeBlock.snippet example) linesWithErrors (Some error).

(** The [try] branch. *)
Definition compilationSucceeded (example : CodeBlock.t)
  : SnippetCompilationResult.t :=
  SnippetCompilationResult.mk (CodeBlock.file example) (CodeBlock.index example)
    (CodeBlock.snippet example) [] None.

Definition settled (example : CodeBlock.t) (outcome : option Thrown)
  : SnippetCompilationResult.t :=
  match outcome with
  | None => compilationSucceeded example
  | Some rawError => compilationFailed example rawError
  end.

(** *** The [catch] branch on any error object

    Above, the branch is written for what the libraries throw by their
    declarations: errors whose [message] and [diagnosticText] are strings
    and whose properties can be assigned to. On any error object the
    branch can throw itself, where it calls [replace] or [split] on what
    is not a string and where an assignment is refused; the promise of
    [testCodeCompilation] then rejects with that [TypeError], for which
    [None] stands. *)

Fixpoint scrubEntriesChecked (example : CodeBlock.t)
  (todo : list (jsstring * JsValue)) (error : JsError) : option JsError :=
  match todo with
  | [] => Some error
  | (key, VString s) :: rest =>
      match assignChecked key (VString (removeTemporaryFilePaths s example)) error with
      | Some error' => scrubEntriesChecked example rest error'
      | None => None
      end
  | (_, VOther _) :: rest => scrubEntriesChecked example rest error
  end.

Definition collectLinesChecked (error : JsError) : option NumberSet :=
  if instanceofTSError error then
    match diagnosticTextRead error with
    | Some diagnosticText =>
        Some (fold_left
                (fun (set : NumberSet) (message : jsstring) =>
                   match lineNumberOf (stripAnsi env message) with
                   | Some lineNumber => setAdd lineNumber set
                   | None => set
                   end)
                (split LF diagnosticText) [])
    | None => None
    end
  else Some [].

Definition compilationFailedChecked (example : CodeBlock.t) (rawError : Thrown)
  : option SnippetCompilationResult.t :=
  let error := toError rawError in
  match messageRead error with
  | None => None
  | Some message =>
      match assignChecked K_message
              (VString (removeTemporaryFilePaths message example)) error with
      | None => None
      | Some error =>
          match scrubEntriesChecked example (entries error) error with
          | None => None
          | Some error =>
              match collectLinesChecked error with
              | None => None
              | Some linesWithErrors =>
                  Some (SnippetCompilationResult.mk
                          (CodeBlock.file example) (CodeBlock.index example)
                          (CodeBlock.snippet example) linesWithErrors (Some error))
              end
          end
      end
  end.

Definition settledChecked (example : CodeBlock.t) (outcome : option Thrown)
  : option SnippetCompilationResult.t :=
  match outcome with
  | None => Some (compilationSucceeded example)
  | Some rawError => compilationFailedChecked example rawError
  end.

(** [testCodeCompilation] in its two halves, before and after the
    suspension inside [compile]. *)
Definition testCodeCompilationStart (example : CodeBlock.t)
  : State -> (CodeBlock.t * jsstring) * State :=
  fun st => let (codeFile, st') := compileStart st in ((example, codeFile), st').

Definition testCodeCompilationResume (task : CodeBlock.t * jsstring)
  : M SnippetCompilationResult.t :=
  fun st =>
    let (outcome, st') :=
      compileResume (CodeBlock.sanitisedCode (fst task)) (snd task) st in
    (Ok (settled (fst task) outcome), st').

(** One block on its own, nothing else running. *)
Definition testCodeCompilation (example : CodeBlock.t)
  : M SnippetCompilationResult.t :=
  fun st =>
    let (task, st') := testCodeCompilationStart example st in
    testCodeCompilationResume task st'.

(** The [try] block of [compileSnippets]. *)
Definition compileSnippetsTry (extractionOrder compilationOrder : Scheduler)
  (documentationFiles : list jsstring) : M (list SnippetCompilationResult.t) :=
  cleanWorkingDirectory ;;
  ensureDir ;;
  examples <- extractAllCodeBlocks extractionOrder documentationFiles ;;
  fun st =>
    let (tasks, st') := mapSync testCodeCompilationStart examples st in
    promiseAll compilationOrder (map testCodeCompilationResume tasks) st'.

Definition compileSnippets (extractionOrder compilationOrder : Scheduler)
  (documentationFiles : list jsstring) : M (list SnippetCompilationResult.t) :=
  tryFinally
    (compileSnippetsTry extractionOrder compilationOrder documentationFiles)
    cleanWorkingDirectory.

End Compiler.

End SnippetCompiler.

(* ===================================================================== *)
(** ** The two entry points *)
(* ===================================================================== *)

(** A promise chain [P.resolve(x).then(f).then(g)], for Bluebird and for
    the native [Promise] alike: [then] with a function that returns a
    plain value, and with one that returns a promise, which the chain
    adopts. *)
Module Bluebird.
Import Rt.
Definition resolve {A} (a : A) : M A := ret a.
Definition thenValue {A B} (p : M A) (f : A -> B) : M B :=
  bind p (fun a => ret (f a)).
Definition thenPromise {A B} (p : M A) (f : A -> M B) : M B := bind p f.
End Bluebird.

Module NativePromise.
Import Rt.
Definition resolve {A} (a : A) : M A := fun st => (Ok a, st).
Definition thenValue {A B} (p : M A) (f : A -> B) : M B :=
  fun st =>
    match p st with
    | (Ok a, st') => (Ok (f a), st')
    | (Err e, st') => (Err e, st')
    end.
Definition thenPromise {A B} (p : M A) (f : A -> M B) : M B :=
  fun st =>
    match p st with
    | (Ok a, st') => f a st'
    | (Err e, st') => (Err e, st')
    end.
End NativePromise.

(** The argument [string | string[]], [None] when it is left out. *)
Definition FileOrFiles : Type := option (list Js.jsstring + Js.jsstring).

(** src/index.ts *)
Module Index.
Import Js Rt.

Definition DEFAULT_FILES : list jsstring := [str "README.md"].

Definition wrapIfString (arrayOrString : list jsstring + jsstring)
  : list jsstring :=
  match arrayOrString with
  | inl array => array
  | inr s => [s]
  end.

Section EntryPoint.
Variable R : Type.
(* path.join, process.cwd() *)
Variable pathJoin : jsstring -> jsstring -> jsstring.
Variable cwd : jsstring.
(* new SnippetCompiler(workingDirectory).compileSnippets(files) *)
Variable snippetCompiler : jsstring -> list jsstring -> M R.

Definition compileSnippets (markdownFileOrFiles : FileOrFiles) : M R :=
  let markdownFileOrFiles :=
    match markdownFileOrFiles with
    | Some given => given
    | None => inl DEFAULT_FILES
    end in
  let workingDirectory := pathJoin cwd (str "compiled-docs") in
  let compiler := snippetCompiler workingDirectory in
  Bluebird.thenPromise
    (Bluebird.thenValue (Bluebird.resolve markdownFileOrFiles) wrapIfString)
    (fun fileArray => compiler fileArray).
End EntryPoint.
End Index.

(** src/unnamed/part_000 *)
Module Part000.
Import Js Rt.

Definition DEFAULT_FILES : list jsstring := [str "README.md"].
Definition COMPILED_DOCS_FOLDER : jsstring := str "compiled-docs".

Definition wrapIfString (arrayOrString : list jsstring + jsstring)
  : list jsstring :=
  match arrayOrString with
  | inl array => array
  | inr s => [s]
  end.

Section EntryPoint.
Variable R : Type.
Variable pathJoin : jsstring -> jsstring -> jsstring.
Variable cwd : jsstring.
Variable snippetCompiler : jsstring -> list jsstring -> M R.

Definition compileSnippets (markdownFileOrFiles : FileOrFiles) : M R :=
  let markdownFileOrFiles :=
    match markdownFileOrFiles with
    | Some given => given
    | None => inl DEFAULT_FILES
    end in
  let workingDirectory := pathJoin cwd COMPILED_DOCS_FOLDER in
  let compiler := snippetCompiler workingDirectory in
  NativePromise.thenPromise
    (NativePromise.thenValue (NativePromise.resolve markdownFileOrFiles)
                             wrapIfString)
    (fun fileArray => compiler fileArray).
End EntryPoint.
End Part000.

(** What both entry points are expected to pass on. *)
Definition requestedFiles (markdownFileOrFiles : FileOrFiles) : list Js.jsstring :=
  match markdownFileOrFiles with
  | None => [Js.str "README.md"]
  | Some (inl files) => files
  | Some (inr file) => [file]
  end.

(* ===================================================================== *)
(** ** The import localiser *)
(* ===================================================================== *)

(** [./LocalImportSubstituter] is not among the files under [src/]; the
    compiler only calls it ([sanitiseCodeBlock]). *)
Module LocalImportSubstituter.
Import Js.

(** Modelled from the spec: the result of scanning a block for import
    references (section 4.2, [LocalImportSubstituter] being absent from
    the sources): the text of the block cut into plain text and the
    quoted module specifiers of its import references. *)
Inductive Piece :=
| Text (s : jsstring)
| ImportSpecifier (quote : char) (specifier : jsstring).

Definition renderPiece (p : Piece) : jsstring :=
  match p with
  | Text s => s
  | ImportSpecifier quote specifier => quote :: specifier ++ [quote]
  end.

Definition render (code : list Piece) : jsstring :=
  concat (map renderPiece code).

Section Localiser.
  (* the package's declared name *)
Variable packageName : jsstring.
(* the relative reference to the local entry point *)
Variable localEntryPoint : jsstring.
(* a sub-path resolved against the package root *)
Variable resolveSubPath : jsstring -> jsstring.
(* the scan for import references *)
Variable scan : jsstring -> list Piece.

(** Modelled from the spec: which specifiers are rewritten, and to
    what (section 4.2, the localiser's source being absent): the
    package name itself goes to the local entry point, the name
    followed by a slash and a sub-path goes to that sub-path under
    the package root, anything else is left alone. *)
Definition localise (specifier : jsstring) : option jsstring :=
  if Js.eqb specifier packageName then Some localEntryPoint
  else
    match stripPrefix (packageName ++ [47%N]) specifier with
    | Some subPath => Some (resolveSubPath subPath)
    | None => None
    end.

Definition substitutePiece (p : Piece) : Piece :=
  match p with
  | Text s => Text s
  | ImportSpecifier quote specifier =>
      match localise specifier with
      | Some target => ImportSpecifier quote target
      | None => ImportSpecifier quote specifier
      end
  end.

(** Modelled from the spec: [substituteLocalPackageImports] (section
    4.2, absent from the sources): the block is scanned, every
    matching specifier is replaced, the rest is kept as it is. *)
Definition substituteLocalPackageImports (code : jsstring) : jsstring :=
  render (map substitutePiece (scan code)).

(** No import reference of the scanned block names the package. *)
Definition noMatchingImport (code : jsstring) : Prop :=
  forall quote specifier,
    In (ImportSpecifier quote specifier) (scan code) ->
    localise specifier = None.
End Localiser.

(** Modelled from the spec: what section 4.2 asks of each piece of a
    block, as a relation between the piece scanned and the piece
    written. Text is kept; a specifier equal to the package name becomes
    the reference to the local entry point; one made of the name, a
    slash and a sub-path becomes that sub-path resolved against the
    package root; any other specifier, one that only begins with the
    name among them, is kept. *)
Inductive localised (packageName localEntryPoint : jsstring)
  (resolveSubPath : jsstring -> jsstring) : Piece -> Piece -> Prop :=
| localised_text (s : jsstring) :
    localised packageName localEntryPoint resolveSubPath (Text s) (Text s)
| localised_entry (quote : char) :
    localised packageName localEntryPoint resolveSubPath
      (ImportSpecifier quote packageName) (ImportSpecifier quote localEntryPoint)
| localised_subPath (quote : char) (subPath : jsstring) :
    localised packageName localEntryPoint resolveSubPath
      (ImportSpecifier quote (packageName ++ [47%N] ++ subPath))
      (ImportSpecifier quote (resolveSubPath subPath))
| localised_other (quote : char) (specifier : jsstring) :
    specifier <> packageName ->
    (forall subPath, specifier <> packageName ++ [47%N] ++ subPath) ->
    localised packageName localEntryPoint resolveSubPath
      (ImportSpecifier quote specifier) (ImportSpecifier quote specifier).
End LocalImportSubstituter.

(* ===================================================================== *)
(** ** Vocabulary of the statements *)
(* ===================================================================== *)

Module Spec.
Import Js Rt SnippetCompiler.

Definition allDigits (d : jsstring) : Prop :=
  Forall (fun c => isDigit c = true) d.

(** A temporary file reference, [/compiled-docs/block-<digits>.ts]. *)
Definition isBlockFile (p : jsstring) : Prop :=
  exists d, d <> [] /\ allDigits d /\ p = COMPILED_DOCS_BLOCK ++ d ++ DOT_TS.

Definition hasBlockFile (s : jsstring) : Prop :=
  exists a p b, s = a ++ p ++ b /\ isBlockFile p.

(** One of the two strings begins with the other. *)
Fixpoint agree (u v : jsstring) : bool :=
  match u, v with
  | a :: u', b :: v' => (a =? b)%N && agree u' v'
  | _, _ => true
  end.

(** Some non-empty end of [t] agrees with the beginning of a temporary
    file reference, so that text put after [t] could complete one. *)
Fixpoint opensBlockFile (t : jsstring) : bool :=
  match t with
  | [] => false
  | _ :: t' => agree t COMPILED_DOCS_BLOCK || opensBlockFile t'
  end.

Definition ascending (l : list number) : Prop := StronglySorted numberLt l.

Definition isNone {A} (o : option A) : bool :=
  match o with None => true | Some _ => false end.

(** In the line [pre ++ s], no reference to a line number starts at a
    character of [pre]: what starts at [s] is the leftmost. *)
Fixpoint noReferenceBefore (pre s : jsstring) : bool :=
  match pre with
  | [] => true
  | _ :: pre' =>
      isNone (ttyReference (pre ++ s)) && isNone (nonTtyReference (pre ++ s))
      && noReferenceBefore pre' s
  end.

(** A list without its repetitions, each element where it first stood. *)
Fixpoint dedupFirst (l : list number) : list number :=
  match l with
  | [] => []
  | n :: l' => n :: filter (fun m => negb (sameNumber m n)) (dedupFirst l')
  end.

Definition optionToList {A} (o : option A) : list A :=
  match o with Some a => [a] | None => [] end.

Section WithEnv.
Variable env : Env.
Variable workingDirectory : jsstring.

(** The line numbers the lines of a diagnostic text refer to, in the
    order of the text (one at most per line). *)
Definition referencedLines (diagnosticText : jsstring) : list number :=
  flat_map (fun message => optionToList (lineNumberOf (stripAnsi env message)))
           (split LF diagnosticText).

(** What scrubbing does to one own property. *)
Definition scrubProperty (example : CodeBlock.t) (p : Property) : Property :=
  if enumerable p then
    match value p with
    | VString s =>
        mkProperty (key p) (enumerable p)
                   (VString (removeTemporaryFilePaths env s example))
    | VOther _ => p
    end
  else p.

(** The error object after the [catch] branch has scrubbed it: first
    [message], then the own enumerable properties. *)
Definition scrubbedError (example : CodeBlock.t) (error : JsError) : JsError :=
  mkError (instanceofTSError error)
    (map (scrubProperty example)
       (setProp K_message
          (VString (removeTemporaryFilePaths env (readString K_message error) example))
          (properties error)))
    (extensible error) (readOnly error).

(** What [compile] does on a file name: a failed write throws, else
    the TypeScript service decides. *)
Definition outcomeOf (code codeFile : jsstring) : option Thrown :=
  match writeFileFault env codeFile with
  | Some e => Some (ThrownError e)
  | None => tsCompile env code codeFile
  end.

(** What the second half of [compile] does for a task: it writes the
    file, and compiles it when the write succeeded. *)
Definition eventsOf (task : CodeBlock.t * jsstring) : list Event :=
  match writeFileFault env (snd task) with
  | Some _ => [EvWriteFile (snd task) false]
  | None => [EvWriteFile (snd task) true; EvCompile (snd task)]
  end.

(** The file name built from the [k]-th reading of the clock. *)
Definition tempNameAt (k : nat) : jsstring :=
  tempFileName (toString (hrtime env k)).

Definition codeFileAt (k : nat) : jsstring :=
  pathJoin env workingDirectory (tempNameAt k).

(** The result of each block, the first of them compiled under the
    [k]-th reading of the clock. *)
Fixpoint resultsFrom (k : nat) (examples : list CodeBlock.t)
  : list SnippetCompilationResult.t :=
  match examples with
  | [] => []
  | example :: rest =>
      settled env example
              (outcomeOf (CodeBlock.sanitisedCode example) (codeFileAt k))
      :: resultsFrom (S k) rest
  end.

(** Each block with the file name it is compiled under. *)
Fixpoint tasksFrom (k : nat) (examples : list CodeBlock.t)
  : list (CodeBlock.t * jsstring) :=
  match examples with
  | [] => []
  | example :: rest => (example, codeFileAt k) :: tasksFrom (S k) rest
  end.

(** What extracting one document gives. *)
Definition extractOutcome (importSubstituter : jsstring -> jsstring)
  (file : jsstring) : Result Rejection (list CodeBlock.t) :=
  match extract env file with
  | Ok blocks => Ok (mapBlocks file importSubstituter 0 blocks)
  | Err e => Err (mkRejection (Document file) e)
  end.

(** The blocks of the documents, file after file. *)
Definition examplesOf (packageDefn : PackageDefinition)
  (documentationFiles : list jsstring) (blocks : list (list jsstring))
  : list CodeBlock.t :=
  concat (map (fun fb =>
                 mapBlocks (fst fb)
                   (substituteLocalPackageImports env packageDefn) 0 (snd fb))
              (combine documentationFiles blocks)).

(** Every requested document is extracted, with these blocks. *)
Definition extracted (documentationFiles : list jsstring)
  (blocks : list (list jsstring)) : Prop :=
  Forall2 (fun file bs => extract env file = Ok bs) documentationFiles blocks.
End WithEnv.

(** The keys [(file, index)] of one document with [n] blocks. *)
Definition keysOf (file : jsstring) (n : nat) : list (jsstring * nat) :=
  map (fun i => (file, i)) (seq 1 n).

Definition resultKey (r : SnippetCompilationResult.t) : jsstring * nat :=
  (SnippetCompilationResult.file r, SnippetCompilationResult.index r).

Definition isWorkingDirectoryEvent (ev : Event) : bool :=
  match ev with
  | EvRemove _ | EvEnsureDir _ => true
  | _ => false
  end.

(** The paths of the files the events write, in order. *)
Definition writtenPaths (evs : list Event) : list jsstring :=
  flat_map (fun ev => match ev with
                      | EvWriteFile path _ => [path]
                      | _ => []
                      end) evs.

(** Writes of temporary files and compilations only. *)
Definition compileEvents (evs : list Event) : Prop :=
  Forall (fun ev => isWorkingDirectoryEvent ev = false) evs.

(** What compiling blocks may change of a state. *)
Definition compiling (st st' : State) : Prop :=
  removes st' = removes st /\ reads st' = reads st
  /\ present (fs st') = present (fs st)
  /\ exists evs, log st' = log st ++ evs /\ compileEvents evs.

End Spec.

(* ===================================================================== *)
(** ** Sample collaborators and runs *)
(* ===================================================================== *)

Module Examples.
Import Js Rt SnippetCompiler.

Definition ESC : char := 27%N.

(** chalk with colours off (level 0): a style changes nothing. *)
Definition plain (s : jsstring) : jsstring := s.

(** chalk with colours on, on a name without escapes or line breaks. *)
Definition ansiBlue (s : jsstring) : jsstring :=
  ESC :: str "[34m" ++ s ++ ESC :: str "[39m".
Definition ansiCyan (s : jsstring) : jsstring :=
  ESC :: str "[36m" ++ s ++ ESC :: str "[39m".

(** The length of [digits-and-semicolons m] at the head of [s]. *)
Fixpoint sgrLength (s : jsstring) : option nat :=
  match s with
  | c :: s' =>
      if isDigit c || (c =? 59)%N then option_map S (sgrLength s')
      else if (c =? 109)%N then Some 1
      else None
  | [] => None
  end.

(** strip-ansi on the colour sequences chalk writes ([ESC [ ... m]); it
    leaves any other text as it is. *)
Fixpoint stripColours (skip : nat) (s : jsstring) : jsstring :=
  match s with
  | [] => []
  | c :: s' =>
      match skip with
      | S k => stripColours k s'
      | O =>
          if (c =? ESC)%N then
            match s' with
            | c2 :: s2 =>
                if (c2 =? 91)%N then
                  match sgrLength s2 with
                  | Some n => stripColours (S n) s'
                  | None => c :: stripColours 0 s'
                  end
                else c :: stripColours 0 s'
            | [] => [c]
            end
          else c :: stripColours 0 s'
      end
  end.

(** path.join of a directory and a plain file name on POSIX. *)
Definition posixJoin (directory name : jsstring) : jsstring :=
  directory ++ str "/" ++ name.

Definition goodSnippet : jsstring := str "const x = 'ok'".
Definition badSnippet : jsstring := str "import h from './block-helpers'".

(** A diagnostic that names the file by the path the service was given
    for it: the detail text lists the semantic error of line 5 before
    the syntactic error of line 2. *)
Definition diagnostic (fileName : jsstring) : jsstring :=
  fileName ++ str "(5,1): error TS2307: Cannot find module './block-helpers'."
  ++ [LF] ++ fileName ++ str "(2,7): error TS1005: ';' expected."
  ++ [LF] ++ fileName ++ str "(5,9): error TS2304: Cannot find name 'h'.".

Definition tsError (fileName : jsstring) : JsError :=
  mkError true
    [ mkProperty K_message false
        (VString (str "Unable to compile TypeScript:" ++ [LF] ++ diagnostic fileName));
      mkProperty (str "name") true (VString (str "TSError"));
      mkProperty K_diagnosticText true (VString (diagnostic fileName));
      mkProperty (str "diagnosticCodes") true (VOther 0) ]
    true [].

Definition readme : jsstring := str "README.md".
Definition empty : jsstring := str "EMPTY.md".
Definition workingDirectory : jsstring := str "/repo/compiled-docs".

Definition documents (file : jsstring) : Result JsError (list jsstring) :=
  if Js.eqb file readme then Ok [goodSnippet; badSnippet; goodSnippet]
  else if Js.eqb file empty then Ok []
  else Err (newError (str "ENOENT: no such file or directory, open " ++ file)).

Definition manifest : Result JsError PackageDefinition :=
  Ok (mkPackage (str "my-pkg") (str "index.ts")).

Definition service (code fileName : jsstring) : option Thrown :=
  if Js.eqb code badSnippet then Some (ThrownError (tsError fileName)) else None.

Definition noFault (k : nat) : option JsError := None.

(** A run in which nothing outside the compiler fails, but for what the
    two arguments say. *)
Definition sampleEnv (removeFault : nat -> option JsError)
  (packageInfoRead : Result JsError PackageDefinition) : Env :=
  mkEnv plain plain (stripColours 0) posixJoin
        (fun k => N.of_nat (1000 + 7 * k))
        removeFault None (fun _ => None)
        packageInfoRead documents (fun _ code => code) service.

Definition env : Env := sampleEnv noFault manifest.

(** The same run with colours on. *)
Definition colourEnv : Env :=
  mkEnv ansiBlue ansiCyan (stripColours 0) posixJoin
        (fun k => N.of_nat (1000 + 7 * k))
        noFault None (fun _ => None)
        manifest documents (fun _ code => code) service.

(** The manifest cannot be read; every document is there. *)
Definition noManifest : Env :=
  sampleEnv noFault (Err (newError (str "Failed to find package.json"))).

(** The removal that ends the run fails. *)
Definition busy : Env :=
  sampleEnv (fun k => if k =? 1 then Some (newError (str "EBUSY")) else None)
            manifest.

Definition start : State := mkState (mkFS true []) 0 0 [].

(** Two schedulers: tasks complete first to last, and last to first. *)
Definition fifo : Scheduler := fun _ => 0.
Definition lifo : Scheduler := fun pending => length pending.

Definition requested : list jsstring := [readme; empty; readme].

(** What the sample run returns when tasks complete first to last. *)
Definition results : list SnippetCompilationResult.t :=
  match fst (compileSnippets env workingDirectory fifo fifo requested start) with
  | Ok rs => rs
  | Err _ => []
  end.

Definition secondBlock : CodeBlock.t := CodeBlock.mk readme 2 badSnippet badSnippet.

Definition tempFile : jsstring := str "/repo/compiled-docs/block-1007.ts".

(** A line of a diagnostic in the terminal format, the file named by
    its full path. *)
Definition ttyLine : jsstring :=
  tempFile ++ str ":5:1 - error TS2307: Cannot find module './block-helpers'.".

(** An error of the file system, with the path as a property. *)
Definition writeError : JsError :=
  mkError false
    [ mkProperty K_message false
        (VString (str "ENOSPC: no space left on device, write"));
      mkProperty (str "errno") true (VOther 28);
      mkProperty (str "code") true (VString (str "ENOSPC"));
      mkProperty (str "path") true (VString tempFile) ]
    true [].
End Examples.

(* ===================================================================== *)
(** ** The constructor and the TypeScript configuration *)
(* ===================================================================== *)

Module TypeScriptConfig.
Import Js Rt.

Section Values.
(** JavaScript numbers; the code only asks of one whether it is falsy
    (zero or NaN). *)
Variable number : Type.
Variable falsyNumber : number -> bool.

(** A value as [tsconfig.loadSync] returns it and as the parsed
    [tsconfig.json] inside it is: what JSON holds, [undefined], and for an
    array the named properties it has besides its items. Such a value is a
    tree, so that changing an object in place is changing it where it
    hangs. The members of an object are in creation order. *)
Unset Elimination Schemes.
Inductive JsAny :=
| JUndefined
| JNull
| JBoolean (b : bool)
| JNumber (n : number)
| JString (s : jsstring)
| JArray (items : list JsAny) (named : list (jsstring * JsAny))
| JObject (members : list (jsstring * JsAny)).
Set Elimination Schemes.

Fixpoint lookup (k : jsstring) (members : list (jsstring * JsAny)) : option JsAny :=
  match members with
  | [] => None
  | (k', v) :: rest => if Js.eqb k' k then Some v else lookup k rest
  end.

(** An existing member keeps its place, a new one comes last. *)
Fixpoint store (k : jsstring) (x : JsAny) (members : list (jsstring * JsAny))
  : list (jsstring * JsAny) :=
  match members with
  | [] => [(k, x)]
  | (k', v) :: rest =>
      if Js.eqb k' k then (k', x) :: rest else (k', v) :: store k x rest
  end.

Definition isNullish (v : JsAny) : bool :=
  match v with
  | JUndefined | JNull => true
  | _ => false
  end.

(** [v.k], for [v] neither [null] nor [undefined] and [k] a name that no
    prototype defines ([config], [compilerOptions], [noUnusedLocals]): the
    own property, or [undefined]. *)
Definition get (k : jsstring) (v : JsAny) : JsAny :=
  match v with
  | JObject members | JArray _ members =>
      match lookup k members with
      | Some x => x
      | None => JUndefined
      end
  | _ => JUndefined
  end.

(** [v?.k] *)
Definition getOptional (k : jsstring) (v : JsAny) : JsAny :=
  if isNullish v then JUndefined else get k v.

(** [if (v)] *)
Definition truthy (v : JsAny) : bool :=
  match v with
  | JUndefined | JNull => false
  | JBoolean b => b
  | JNumber n => negb (falsyNumber n)
  | JString s => match s with [] => false | _ :: _ => true end
  | JArray _ _ | JObject _ => true
  end.

Inductive Exception := TypeError.

(** [v.k = x] in the strict code of a module: an object or an array takes
    the property; on anything else the assignment is a [TypeError]. *)
Definition set (k : jsstring) (x v : JsAny) : Result Exception JsAny :=
  match v with
  | JObject members => Ok (JObject (store k x members))
  | JArray items named => Ok (JArray items (store k x named))
  | _ => Err TypeError
  end.

(** The value [v] once the object that is its property [k] has become
    [x]. *)
Definition withProperty (k : jsstring) (x v : JsAny) : JsAny :=
  match v with
  | JObject members => JObject (store k x members)
  | JArray items named => JArray items (store k x named)
  | _ => v
  end.

Definition K_config : jsstring := str "config".
Definition K_compilerOptions : jsstring := str "compilerOptions".
Definition K_noUnusedLocals : jsstring := str "noUnusedLocals".

(** [loadTypeScriptConfig], on what [tsconfig.loadSync(process.cwd())]
    returned. *)
Definition loadTypeScriptConfig (loaded : JsAny) : Result Exception JsAny :=
  let typeScriptConfig := loaded in
  if truthy (getOptional K_compilerOptions (getOptional K_config typeScriptConfig))
  then
    let config := get K_config typeScriptConfig in
    let compilerOptions := get K_compilerOptions config in
    match set K_noUnusedLocals (JBoolean false) compilerOptions with
    | Ok compilerOptions' =>
        Ok (withProperty K_config
              (withProperty K_compilerOptions compilerOptions' config)
              typeScriptConfig)
    | Err e => Err e
    end
  else Ok typeScriptConfig.

(** The constructor, up to the call of [TSNode.create]: the options it
    passes, [configOptions.config]. Reading a property of [null] or
    [undefined] is a [TypeError]. *)
Definition createOptions (loaded : JsAny) : Result Exception JsAny :=
  match loadTypeScriptConfig loaded with
  | Ok configOptions =>
      if isNullish configOptions then Err TypeError
      else Ok (get K_config configOptions)
  | Err e => Err e
  end.

Section Constructor.
(* TSNode.Service, TSNode.create *)
Variable Service : Type.
Variable create : JsAny -> Service.

(** [new SnippetCompiler(workingDirectory)]: its two fields, [TSNode.create]
    being taken to return. *)
Definition new (workingDirectory : jsstring) (loaded : JsAny)
  : Result Exception (jsstring * Service) :=
  match createOptions loaded with
  | Ok options => Ok (workingDirectory, create options)
  | Err e => Err e
  end.
End Constructor.

(** [typeScriptConfig?.config?.compilerOptions] ([get] gives [undefined]
    on [null] and [undefined] as the optional chain does). *)
Definition compilerOptionsOf (typeScriptConfig : JsAny) : JsAny :=
  get K_compilerOptions (get K_config typeScriptConfig).

(** A value that is truthy and not an object: [true], a number other
    than zero and NaN, a string that is not empty. *)
Definition truthyPrimitive (v : JsAny) : bool :=
  match v with
  | JBoolean b => b
  | JNumber n => negb (falsyNumber n)
  | JString s => match s with [] => false | _ :: _ => true end
  | _ => false
  end.

(** An object or an array: what can take a property. *)
Definition isObject (v : JsAny) : bool :=
  match v with
  | JObject _ | JArray _ _ => true
  | _ => false
  end.

(** The own names of an object or array, in order. *)
Definition names (v : JsAny) : list jsstring :=
  match v with
  | JObject members | JArray _ members => map fst members
  | _ => []
  end.

End Values.

Arguments JUndefined {number}.
Arguments JNull {number}.
Arguments JBoolean {number} b.
Arguments JString {number} s.

End TypeScriptConfig.

(** Further vocabulary. *)
Module Vocabulary.
Import Js Rt SnippetCompiler.

(** The text is empty or ends with a line terminator: what is put after
    it begins a line. *)
Definition endsLine (above : jsstring) : Prop :=
  above = [] \/ exists a c, above = a ++ [c] /\ isLineTerminator c = true.

(** The label without colours. *)
Definition plainLabel (example : CodeBlock.t) : jsstring :=
  CodeBlock.file example ++ str " " ++ [ARROW] ++ str " "
  ++ CODE_BLOCK ++ toString (N.of_nat (CodeBlock.index example)).

(** An error the [catch] branch rewrites without throwing itself: its
    [message] is a string or is not its own, its [diagnosticText] is a
    string if it is a [TSError], it takes new properties and those it has
    are writable. *)
Definition ordinary (e : JsError) : Prop :=
  wellFormed e /\ wellTyped e /\ rewritable e.

(** Whatever [compile] throws in a run is an ordinary error, or is not
    an error object. *)
Definition handled (env : Env) : Prop :=
  forall code codeFile rawError,
    Spec.outcomeOf env code codeFile = Some rawError ->
    ordinary (toError rawError).

(** Whether the property [k] is among [Object.entries] once it has been
    assigned to: an own property keeps its attribute, a new one is
    enumerable. *)
Fixpoint entryOnceAssigned (k : jsstring) (ps : list Property) : bool :=
  match ps with
  | [] => true
  | p :: ps' => if Js.eqb (key p) k then enumerable p else entryOnceAssigned k ps'
  end.

(** The state of a run once the working directory has been removed and
    made again. *)
Definition prepared (st : State) : State :=
  mkState (mkFS true []) (S (removes st)) (reads st)
          (log st ++ [EvRemove true; EvEnsureDir true]).

(** The items of [xs] in the order in which tasks over them complete. *)
Definition inCompletionOrder {X} (sched : Scheduler) (xs : list X) : list X :=
  flat_map (fun i => Spec.optionToList (nth_error xs i))
           (completionOrder sched (length xs) (seq 0 (length xs))).

(** The first rejection of a list of outcomes. *)
Fixpoint firstError {E A} (rs : list (Result E A)) : option E :=
  match rs with
  | [] => None
  | Err e :: _ => Some e
  | Ok _ :: rs' => firstError rs'
  end.

(** The first of the documents that cannot be extracted, with the error
    of its extraction. *)
Fixpoint firstFailure (env : Env) (files : list jsstring)
  : option (jsstring * JsError) :=
  match files with
  | [] => None
  | file :: rest =>
      match extract env file with
      | Err e => Some (file, e)
      | Ok _ => firstFailure env rest
      end
  end.

End Vocabulary.

(** Sample inputs of the properties below. *)
Module Samples.
Import Js Rt SnippetCompiler TypeScriptConfig.

(** What [tsconfig.loadSync] returns for a project whose [tsconfig.json]
    asks for unused locals to be reported. Numbers are naturals here. *)
Definition tsconfig : JsAny N :=
  JObject
    [ (str "path", JString (str "/repo/tsconfig.json"));
      (K_config,
       JObject
         [ (K_compilerOptions,
            JObject [ (str "strict", JBoolean true);
                      (K_noUnusedLocals, JBoolean true);
                      (str "target", JString (str "es2019")) ]);
           (str "include", JArray [JString (str "src")] []) ]) ].

(** One diagnostic under its heading, as ts-node words a failure. *)
Definition heading : jsstring := str "Unable to compile TypeScript:" ++ [LF].
Definition finding : jsstring :=
  str "(5,1): error TS2307: Cannot find module './block-helpers'.".

(** A line of a diagnostic in the terminal format with colours, the
    file named by its full path, and what follows the path in it. *)
Definition prettyTail : jsstring :=
  Examples.ESC :: str "[0m:" ++ Examples.ESC :: str "[93m5" ++ Examples.ESC :: str "[0m:"
  ++ Examples.ESC :: str "[93m1" ++ Examples.ESC :: str "[0m - "
  ++ Examples.ESC :: str "[91merror" ++ Examples.ESC :: str "[0m"
  ++ Examples.ESC :: str "[90m TS2307: " ++ Examples.ESC :: str "[0mCannot find module.".

Definition prettyLine : jsstring :=
  Examples.ESC :: str "[96m/repo" ++ (COMPILED_DOCS_BLOCK ++ str "1007" ++ DOT_TS)
  ++ prettyTail.

(** An error of the service whose detail text is not enumerable (it was
    set with [Object.defineProperty]). *)
Definition quietError (fileName : jsstring) : JsError :=
  mkError true
    [ mkProperty K_message false
        (VString (str "Unable to compile TypeScript:" ++ [LF]
                  ++ Examples.diagnostic fileName));
      mkProperty K_diagnosticText false (VString (Examples.diagnostic fileName)) ]
    true [].

(** The temporary file of the second block, named relative to the
    current directory. *)
Definition relativeFile : jsstring := str "compiled-docs/block-1007.ts".

(** Errors that pass for a [TSError] without its detail text: it is
    missing, or is not a string. *)
Definition bareError : JsError :=
  mkError true
    [mkProperty K_message false (VString (str "Unable to compile TypeScript"))]
    true [].

Definition codedError : JsError :=
  mkError true
    [ mkProperty K_message false (VString (str "Unable to compile TypeScript"));
      mkProperty K_diagnosticText true (VOther 2307) ]
    true [].

(** A frozen error: it takes no property and its [message] cannot be
    assigned to. *)
Definition frozenError : JsError :=
  mkError false
    [mkProperty K_message false (VString (str "Unable to compile TypeScript"))]
    false [K_message].

(** The sample run on a clock coarser than the time between two
    readings: every reading of the run is the same. *)
Definition coarseClock : Env :=
  mkEnv Examples.plain Examples.plain (Examples.stripColours 0) Examples.posixJoin
        (fun _ => 1000%N)
        Examples.noFault None (fun _ => None)
        Examples.manifest Examples.documents (fun _ code => code) Examples.service.

(** Two documents that are not there, around one that is. *)
Definition gaps : list jsstring := [str "A.md"; Examples.readme; str "B.md"].

End Samples.

(* ===================================================================== *)
(** ** Facts about strings *)
(* ===================================================================== *)

Unset Implicit Arguments.

Module JsFacts.
Import Js.

Lemma eqb_eq (a b : jsstring) : Js.eqb a b = true <-> a = b.
Proof.
  revert b; induction a as [|x a IH]; intros [|y b]; simpl; split; intro H;
    try reflexivity; try discriminate.
  - apply andb_true_iff in H as [H1 H2].
    apply N.eqb_eq in H1. apply IH in H2. now subst.
  - injection H as -> ->. rewrite N.eqb_refl. now apply IH.
Qed.

Lemma eqb_refl (a : jsstring) : Js.eqb a a = true.
Proof. now apply eqb_eq. Qed.

Lemma eqb_neq (a b : jsstring) : Js.eqb a b = false <-> a <> b.
Proof.
  split.
  - intros H E. apply eqb_eq in E. congruence.
  - intro H. destruct (Js.eqb a b) eqn:E; [|reflexivity].
    apply eqb_eq in E. contradiction.
Qed.

Lemma stripPrefix_Some (p s r : jsstring) :
  stripPrefix p s = Some r <-> s = p ++ r.
Proof.
  revert s; induction p as [|x p IH]; intros s; simpl.
  - split; [now intros [= ->] | now intros ->].
  - destruct s as [|y s]; [split; discriminate|].
    destruct (N.eqb_spec x y) as [->|Hxy].
    + rewrite IH. split; [now intros -> | now intros [= ->]].
    + split; [discriminate | intros [= -> _]; contradiction].
Qed.

Lemma stripPrefix_app (p r : jsstring) : stripPrefix p (p ++ r) = Some r.
Proof. now apply stripPrefix_Some. Qed.

Lemma includes_true (x s : jsstring) : includes x s = true <-> isInfix x s.
Proof.
  induction s as [|c s IH]; simpl.
  - destruct (stripPrefix x []) as [r|] eqn:E.
    + split; [|reflexivity]. intros _. apply stripPrefix_Some in E.
      exists [], r. exact E.
    + split; [discriminate|]. intros (a & b & H).
      destruct a; [|discriminate]. simpl in H.
      assert (stripPrefix x [] = Some b) by now apply stripPrefix_Some.
      congruence.
  - destruct (stripPrefix x (c :: s)) as [r|] eqn:E.
    + split; [|reflexivity]. intros _. apply stripPrefix_Some in E.
      exists [], r. exact E.
    + rewrite IH. split.
      * intros (a & b & ->). exists (c :: a), b. reflexivity.
      * intros (a & b & H). destruct a as [|c' a].
        -- simpl in H.
           assert (stripPrefix x (c :: s) = Some b) by now apply stripPrefix_Some.
           congruence.
        -- injection H as -> ->. now exists a, b.
Qed.

Lemma isInfix_refl (s : jsstring) : isInfix s s.
Proof. exists [], []. now rewrite app_nil_r. Qed.

Lemma isInfix_app_l (x a b : jsstring) : isInfix x a -> isInfix x (a ++ b).
Proof.
  intros (u & v & ->). exists u, (v ++ b). now rewrite <- !app_assoc.
Qed.

Lemma isInfix_app_r (x a b : jsstring) : isInfix x b -> isInfix x (a ++ b).
Proof.
  intros (u & v & ->). exists (a ++ u), v. now rewrite <- !app_assoc.
Qed.

Lemma isInfix_cons (x : jsstring) c s : isInfix x s -> isInfix x (c :: s).
Proof. apply (isInfix_app_r x [c] s). Qed.

Lemma isInfix_trans (x y z : jsstring) : isInfix x y -> isInfix y z -> isInfix x z.
Proof.
  intros (a & b & ->) (u & v & ->). exists (u ++ a), (b ++ v).
  now rewrite <- !app_assoc.
Qed.

(** *** Runs of digits *)

Lemma spanDigits_spec (s : jsstring) :
  s = fst (spanDigits s) ++ snd (spanDigits s)
  /\ Forall (fun c => isDigit c = true) (fst (spanDigits s))
  /\ startsWithDigit (snd (spanDigits s)) = false.
Proof.
  induction s as [|c s (IH1 & IH2 & IH3)]; simpl.
  - repeat split. constructor.
  - destruct (isDigit c) eqn:Hc.
    + destruct (spanDigits s) as [d r]; simpl in *.
      repeat split; [now f_equal | now constructor | assumption].
    + simpl. repeat split; [constructor | assumption].
Qed.

Lemma spanDigits_app (d r : jsstring) :
  Forall (fun c => isDigit c = true) d -> startsWithDigit r = false ->
  spanDigits (d ++ r) = (d, r).
Proof.
  intros Hd Hr. induction Hd as [|c d Hc _ IH]; simpl.
  - destruct r as [|c r]; [reflexivity|]. simpl in *. now rewrite Hr.
  - now rewrite Hc, IH.
Qed.

Lemma digits1_Some (s d r : jsstring) :
  digits1 s = Some (d, r) ->
  s = d ++ r /\ d <> [] /\ Forall (fun c => isDigit c = true) d
  /\ startsWithDigit r = false.
Proof.
  unfold digits1. intros H.
  destruct (spanDigits_spec s) as (E & Hd & Hr).
  destruct (spanDigits s) as [[|c d'] r']; [discriminate|].
  injection H as <- <-. simpl in *. repeat split; try assumption. discriminate.
Qed.

Lemma digits1_app (d r : jsstring) :
  d <> [] -> Forall (fun c => isDigit c = true) d -> startsWithDigit r = false ->
  digits1 (d ++ r) = Some (d, r).
Proof.
  intros Hne Hd Hr. unfold digits1. rewrite (spanDigits_app d r Hd Hr).
  destruct d; [contradiction | reflexivity].
Qed.

(** *** Printing and reading numbers *)

Lemma uintChars_digits (d : Decimal.uint) :
  Forall (fun c => isDigit c = true) (uintChars d).
Proof. induction d; simpl; constructor; auto. Qed.

Lemma uintChars_inj (d d' : Decimal.uint) : uintChars d = uintChars d' -> d = d'.
Proof.
  revert d'; induction d; intros d'; destruct d'; simpl; intros H;
    try discriminate; try reflexivity;
    injection H as H; f_equal; now apply IHd.
Qed.

Lemma toString_digits (n : N) : Forall (fun c => isDigit c = true) (toString n).
Proof. apply uintChars_digits. Qed.

Lemma toString_inj (n m : N) : toString n = toString m -> n = m.
Proof.
  unfold toString. intros H. apply uintChars_inj in H.
  now apply DecimalN.Unsigned.to_uint_inj.
Qed.

Lemma toString_nonempty (n : N) : toString n <> [].
Proof.
  unfold toString. destruct n as [|p]; simpl; [discriminate|].
  intros H.
  assert (E : Pos.to_uint p = Decimal.Nil) by (destruct (Pos.to_uint p); simpl in H; congruence).
  now apply DecimalPos.Unsigned.to_uint_nonnil in E.
Qed.

Lemma parse_acc (d : Decimal.uint) (acc : positive) :
  fold_left parseStep (uintChars d) (Npos acc) = Npos (Pos.of_uint_acc d acc).
Proof.
  revert acc; induction d; intros acc;
    cbn [uintChars fold_left Pos.of_uint_acc]; try reflexivity;
    rewrite <- IHd; f_equal; unfold parseStep; lia.
Qed.

Lemma parse_of_uint (d : Decimal.uint) :
  fold_left parseStep (uintChars d) 0%N = N.of_uint d.
Proof.
  unfold N.of_uint.
  induction d; cbn [uintChars fold_left Pos.of_uint]; try reflexivity;
    try exact IHd; apply parse_acc.
Qed.

Lemma parseInt_double (n : N) : parseInt (toString n) = toDouble n.
Proof.
  unfold parseInt, toString.
  rewrite parse_of_uint. now rewrite DecimalN.Unsigned.of_to.
Qed.

(** Up to 53 bits a natural number is a double. *)
(** From 2^53 on the number is rounded to 53 bits, ties to even, and
    beyond the largest double it is [Infinity]. *)
Lemma toDouble_rounds :
  toDouble (2 ^ 53) = Finite (2 ^ 53)
  /\ toDouble (2 ^ 53 + 1) = Finite (2 ^ 53)
  /\ toDouble (2 ^ 53 + 2) = Finite (2 ^ 53 + 2)
  /\ toDouble (2 ^ 53 + 3) = Finite (2 ^ 53 + 4)
  /\ toDouble (2 ^ 64 - 1) = Finite (2 ^ 64)
  /\ toDouble (2 ^ 1024 - 2 ^ 970 - 1) = Finite (2 ^ 1024 - 2 ^ 971)
  /\ toDouble (2 ^ 1024 - 2 ^ 970) = Infinity
  /\ parseInt (str "9007199254740993") = Finite 9007199254740992.
Proof. repeat split; vm_compute; reflexivity. Qed.

Lemma toDouble_exact (n : N) : (n < 2 ^ 53)%N -> toDouble n = Finite n.
Proof.
  intros H. unfold toDouble.
  assert (Hs : (N.size n <= 53)%N).
  { destruct (N.eq_dec n 0) as [->|Hn]; [simpl; lia|].
    rewrite N.size_log2 by assumption.
    assert (N.log2 n < 53)%N by (apply N.log2_lt_pow2; lia). lia. }
  apply N.leb_le in Hs. now rewrite Hs.
Qed.

Lemma parseInt_toString (n : N) :
  (n < 2 ^ 53)%N -> parseInt (toString n) = Finite n.
Proof. intros H. rewrite parseInt_double. now apply toDouble_exact. Qed.

Lemma sameNumber_spec (a b : number) : reflect (a = b) (sameNumber a b).
Proof.
  destruct a as [x|], b as [y|]; simpl; try (constructor; congruence).
  destruct (N.eqb_spec x y) as [->|H]; constructor; congruence.
Qed.

Lemma sameNumber_refl (a : number) : sameNumber a a = true.
Proof. now destruct (sameNumber_spec a a). Qed.

(** *** The replacement text *)

Lemma getSubstitution_plain (matched before after group1 template : jsstring) :
  ~ In DOLLAR template ->
  getSubstitution matched before after group1 template = template.
Proof.
  induction template as [|c t IH]; intros H; simpl; [reflexivity|].
  destruct (N.eqb_spec c DOLLAR) as [->|Hc].
  - exfalso. apply H. now left.
  - rewrite IH; [reflexivity|]. intros Hin. apply H. now right.
Qed.

End JsFacts.

(* ===================================================================== *)
(** ** Facts about the path pattern and the replacement *)
(* ===================================================================== *)

Module PatternFacts.
Import Js Rt SnippetCompiler Spec JsFacts.

Lemma digit_notTerminator (c : char) : isDigit c = true -> notTerminator c.
Proof.
  unfold isDigit, notTerminator, isLineTerminator. intros H.
  apply andb_true_iff in H as [H1 H2].
  apply N.leb_le in H1. apply N.leb_le in H2.
  repeat (apply orb_false_iff; split); apply N.eqb_neq; lia.
Qed.

Lemma blockFile_notTerminator (p : jsstring) :
  isBlockFile p -> Forall notTerminator p.
Proof.
  intros (d & _ & Hd & ->).
  apply Forall_app; split; [|apply Forall_app; split].
  - unfold COMPILED_DOCS_BLOCK. simpl. repeat constructor.
  - eapply Forall_impl; [|exact Hd]. apply digit_notTerminator.
  - unfold DOT_TS. simpl. repeat constructor.
Qed.

Lemma blockFile_nonempty (p : jsstring) : isBlockFile p -> p <> [].
Proof. intros (d & _ & _ & ->). discriminate. Qed.

Lemma matchBlockFile_Some (s p r : jsstring) :
  matchBlockFile s = Some (p, r) -> s = p ++ r /\ isBlockFile p.
Proof.
  unfold matchBlockFile. intros H.
  destruct (stripPrefix COMPILED_DOCS_BLOCK s) as [r1|] eqn:E1; [|discriminate].
  destruct (digits1 r1) as [[d r2]|] eqn:E2; [|discriminate].
  destruct (stripPrefix DOT_TS r2) as [r3|] eqn:E3; [|discriminate].
  injection H as <- <-.
  apply stripPrefix_Some in E1. apply stripPrefix_Some in E3.
  apply digits1_Some in E2 as (E2 & Hne & Hd & _).
  subst. split.
  - change (COMPILED_DOCS_BLOCK ++ d ++ DOT_TS ++ r3
            = (COMPILED_DOCS_BLOCK ++ d ++ DOT_TS) ++ r3).
    now rewrite <- !app_assoc.
  - exists d. repeat split; assumption.
Qed.

Lemma matchBlockFile_app (p b : jsstring) :
  isBlockFile p -> matchBlockFile (p ++ b) = Some (p, b).
Proof.
  intros (d & Hne & Hd & ->). unfold matchBlockFile.
  rewrite <- !app_assoc, stripPrefix_app.
  rewrite (digits1_app d (DOT_TS ++ b) Hne Hd eq_refl).
  now rewrite stripPrefix_app.
Qed.

Lemma blockFileHere_Some (s g p r : jsstring) :
  blockFileHere s = Some (g, p, r) -> g = [] /\ matchBlockFile s = Some (p, r).
Proof.
  unfold blockFileHere. destruct (matchBlockFile s) as [[p' r']|]; [|discriminate].
  now intros [= <- <- <-].
Qed.

Lemma pattern_Some (s g p r : jsstring) :
  COMPILED_DOCS_FILE_PREFIX_PATTERN s = Some (g, p, r) ->
  s = g ++ p ++ r /\ isBlockFile p /\ Forall notTerminator g.
Proof.
  revert g; induction s as [|c s IH]; intros g; simpl.
  - intros H. apply blockFileHere_Some in H as [-> H].
    apply matchBlockFile_Some in H as [H1 H2]. now repeat split.
  - destruct (isLineTerminator c) eqn:Hc.
    + intros H. apply blockFileHere_Some in H as [-> H].
      apply matchBlockFile_Some in H as [H1 H2]. now repeat split.
    + destruct (COMPILED_DOCS_FILE_PREFIX_PATTERN s) as [[[g' p'] r']|] eqn:E.
      * intros [= <- <- <-]. destruct (IH g' eq_refl) as (-> & Hp & Hg).
        repeat split; [assumption | now constructor].
      * intros H. apply blockFileHere_Some in H as [-> H].
        apply matchBlockFile_Some in H as [H1 H2]. now repeat split.
Qed.

(** When the pattern fails at a position, no temporary file reference
    starts anywhere on the rest of the line. *)
Lemma pattern_None (s : jsstring) :
  COMPILED_DOCS_FILE_PREFIX_PATTERN s = None ->
  forall a b, s = a ++ b -> Forall notTerminator a -> matchBlockFile b = None.
Proof.
  induction s as [|c s IH]; simpl; intros H a b E Ha.
  - destruct a; [|discriminate]. simpl in E. subst b.
    unfold blockFileHere in H. now destruct (matchBlockFile []) as [[? ?]|].
  - assert (Hhere : blockFileHere (c :: s) = None).
    { destruct (isLineTerminator c); [assumption|].
      now destruct (COMPILED_DOCS_FILE_PREFIX_PATTERN s) as [[[? ?] ?]|]. }
    destruct a as [|c' a].
    + simpl in E. subst b. unfold blockFileHere in Hhere.
      now destruct (matchBlockFile (c :: s)) as [[? ?]|].
    + injection E as <- ->. inversion Ha as [|? ? Hc Ha']; subst.
      unfold notTerminator in Hc. rewrite Hc in H.
      destruct (COMPILED_DOCS_FILE_PREFIX_PATTERN (a ++ b)) as [[[? ?] ?]|] eqn:E;
        [discriminate|].
      now apply (IH eq_refl a b).
Qed.

Lemma pattern_None_here (s : jsstring) :
  COMPILED_DOCS_FILE_PREFIX_PATTERN s = None -> matchBlockFile s = None.
Proof. intros H. now apply (pattern_None s H [] s). Qed.

(** *** The equations of the global replacement *)

Lemma replaceAll_skip (t before x r : jsstring) :
  replaceAll t before (length x) (x ++ r) = replaceAll t (before ++ x) 0 r.
Proof.
  revert before; induction x as [|c x IH]; intros before; simpl.
  - now rewrite app_nil_r.
  - rewrite IH. now rewrite <- app_assoc.
Qed.

Lemma replaceAll_match (t before s g p r : jsstring) :
  COMPILED_DOCS_FILE_PREFIX_PATTERN s = Some (g, p, r) ->
  replaceAll t before 0 s
  = getSubstitution (g ++ p) before r g t ++ replaceAll t (before ++ g ++ p) 0 r.
Proof.
  intros H. destruct (pattern_Some s g p r H) as (E & Hp & _).
  apply blockFile_nonempty in Hp.
  destruct s as [|c s].
  - destruct g; destruct p; try discriminate; contradiction.
  - cbn [replaceAll]. rewrite H. f_equal.
    assert (Ex : exists x, g ++ p = c :: x /\ s = x ++ r).
    { rewrite app_assoc in E. destruct (g ++ p) as [|c' x] eqn:Egp.
      - apply app_eq_nil in Egp as [_ ->]. contradiction.
      - injection E as -> ->. now exists x. }
    destruct Ex as (x & Ex & ->). rewrite app_assoc, Ex.
    replace (length (c :: x) - 1) with (length x) by (simpl; lia).
    rewrite replaceAll_skip. f_equal.
    rewrite <- !app_assoc. now rewrite Ex.
Qed.

Lemma replaceAll_nomatch (t before : jsstring) c (s : jsstring) :
  COMPILED_DOCS_FILE_PREFIX_PATTERN (c :: s) = None ->
  replaceAll t before 0 (c :: s) = c :: replaceAll t (before ++ [c]) 0 s.
Proof. intros H. cbn [replaceAll]. now rewrite H. Qed.

Lemma hasBlockFile_cons c (s : jsstring) :
  hasBlockFile (c :: s) -> matchBlockFile (c :: s) <> None \/ hasBlockFile s.
Proof.
  intros (a & p & b & E & Hp). destruct a as [|c' a].
  - left. simpl in E. rewrite E, (matchBlockFile_app p b Hp). discriminate.
  - right. injection E as -> ->. now exists a, p, b.
Qed.

Lemma hasBlockFile_tail c (s : jsstring) : hasBlockFile s -> hasBlockFile (c :: s).
Proof. intros (a & p & b & -> & Hp). now exists (c :: a), p, b. Qed.

(** A text without a temporary file reference is left as it is. *)
Lemma replaceAll_unchanged (t s : jsstring) :
  ~ hasBlockFile s -> forall before, replaceAll t before 0 s = s.
Proof.
  induction s as [|c s IH]; intros Hno before; [reflexivity|].
  destruct (COMPILED_DOCS_FILE_PREFIX_PATTERN (c :: s)) as [[[g p] r]|] eqn:E.
  - exfalso. apply Hno. destruct (pattern_Some _ _ _ _ E) as (Es & Hp & _).
    now exists g, p, r.
  - rewrite (replaceAll_nomatch t before c s E). f_equal.
    apply IH. intros H. apply Hno. now apply hasBlockFile_tail.
Qed.

(** A text with a temporary file reference receives the replacement text. *)
Lemma replaceAll_has_label (t s : jsstring) :
  ~ In DOLLAR t -> hasBlockFile s ->
  forall before, isInfix t (replaceAll t before 0 s).
Proof.
  intros Ht. induction s as [|c s IH]; intros Hs before.
  - destruct Hs as (a & p & b & E & Hp). apply blockFile_nonempty in Hp.
    destruct a; destruct p; try discriminate; contradiction.
  - destruct (COMPILED_DOCS_FILE_PREFIX_PATTERN (c :: s)) as [[[g p] r]|] eqn:E.
    + rewrite (replaceAll_match t before _ g p r E).
      rewrite getSubstitution_plain by assumption.
      apply isInfix_app_l, isInfix_refl.
    + rewrite (replaceAll_nomatch t before c s E). apply isInfix_cons.
      apply IH. destruct (hasBlockFile_cons c s Hs) as [H|H]; [|assumption].
      exfalso. apply H. now apply pattern_None_here.
Qed.

End PatternFacts.

(* ===================================================================== *)
(** ** More on the replacement: no reference survives *)
(* ===================================================================== *)

Module ScrubFacts.
Import Js Rt SnippetCompiler Spec JsFacts PatternFacts.

Lemma agree_app (u v x r : jsstring) : u ++ x = v ++ r -> agree u v = true.
Proof.
  revert v; induction u as [|a u IH]; intros [|b v] H; simpl; try reflexivity.
  injection H as -> H. rewrite N.eqb_refl. now apply (IH v).
Qed.

(** Text put after a label that opens no reference cannot complete one. *)
Lemma label_closed (t x : jsstring) :
  opensBlockFile t = false -> ~ hasBlockFile x -> ~ hasBlockFile (t ++ x).
Proof.
  induction t as [|c t IH]; intros Ht Hx; [exact Hx|].
  cbn [opensBlockFile] in Ht. apply orb_false_iff in Ht as [Hagree Ht].
  intros H. apply hasBlockFile_cons in H as [H|H]; [|now apply (IH Ht Hx)].
  destruct (matchBlockFile (c :: t ++ x)) as [[p b]|] eqn:E; [|contradiction].
  unfold matchBlockFile in E.
  destruct (stripPrefix COMPILED_DOCS_BLOCK (c :: t ++ x)) as [r|] eqn:Es;
    [|discriminate].
  apply stripPrefix_Some in Es.
  rewrite (agree_app (c :: t) COMPILED_DOCS_BLOCK x r Es) in Hagree.
  discriminate.
Qed.

Lemma terminator_no_blockFile c (s : jsstring) :
  isLineTerminator c = true -> matchBlockFile (c :: s) = None.
Proof.
  intros Hc. unfold matchBlockFile.
  change COMPILED_DOCS_BLOCK with (47%N :: str "compiled-docs/block-").
  cbn [stripPrefix].
  destruct (N.eqb_spec 47 c) as [<-|_]; [discriminate | reflexivity].
Qed.

Lemma pattern_terminator c (s : jsstring) :
  isLineTerminator c = true -> COMPILED_DOCS_FILE_PREFIX_PATTERN (c :: s) = None.
Proof.
  intros Hc. cbn [COMPILED_DOCS_FILE_PREFIX_PATTERN]. rewrite Hc.
  unfold blockFileHere. now rewrite terminator_no_blockFile.
Qed.

Lemma pattern_tail c (s : jsstring) :
  COMPILED_DOCS_FILE_PREFIX_PATTERN (c :: s) = None ->
  isLineTerminator c = false ->
  COMPILED_DOCS_FILE_PREFIX_PATTERN s = None.
Proof.
  cbn [COMPILED_DOCS_FILE_PREFIX_PATTERN]. intros H Hc. rewrite Hc in H.
  now destruct (COMPILED_DOCS_FILE_PREFIX_PATTERN s) as [[[? ?] ?]|].
Qed.

(** Where the pattern fails, the rest of the line is copied. *)
Lemma replaceAll_line (t : jsstring) (l : jsstring) :
  forall rest before,
    COMPILED_DOCS_FILE_PREFIX_PATTERN (l ++ rest) = None ->
    Forall notTerminator l ->
    replaceAll t before 0 (l ++ rest) = l ++ replaceAll t (before ++ l) 0 rest.
Proof.
  induction l as [|c l IH]; intros rest before H Hl.
  - now rewrite app_nil_r.
  - inversion Hl as [|? ? Hc Hl']; subst. simpl app.
    rewrite (replaceAll_nomatch t before c (l ++ rest) H). f_equal.
    rewrite IH; [now rewrite <- app_assoc | now apply (pattern_tail c) | assumption].
Qed.

Lemma first_line (s : jsstring) :
  exists l rest,
    s = l ++ rest /\ Forall notTerminator l
    /\ (rest = [] \/ exists c rest', rest = c :: rest' /\ isLineTerminator c = true).
Proof.
  induction s as [|c s (l & rest & -> & Hl & Hrest)].
  - exists [], []. repeat split; [constructor | now left].
  - destruct (isLineTerminator c) eqn:Hc.
    + exists [], (c :: l ++ rest). repeat split; [constructor|].
      right. now exists c, (l ++ rest).
    + exists (c :: l), rest. repeat split; [now constructor | assumption].
Qed.

Lemma prefix_within (p : jsstring) :
  forall b l rest,
    p ++ b = l ++ rest -> Forall notTerminator p ->
    (rest = [] \/ exists c rest', rest = c :: rest' /\ isLineTerminator c = true) ->
    p <> [] ->
    exists l2, l = p ++ l2.
Proof.
  induction p as [|x p IH]; intros b l rest E Hp Hrest Hne; [contradiction|].
  inversion Hp as [|? ? Hx Hp']; subst.
  destruct l as [|y l].
  - exfalso. destruct Hrest as [->|(c & rest' & -> & Hc)]; [discriminate|].
    simpl in E. injection E as -> _. unfold notTerminator in Hx. congruence.
  - simpl in E. injection E as -> E. destruct p as [|x' p].
    + now exists l.
    + destruct (IH b l rest E Hp' Hrest) as [l2 ->]; [discriminate|].
      now exists l2.
Qed.

Lemma replaceAll_head (t : jsstring) (s before : jsstring) :
  COMPILED_DOCS_FILE_PREFIX_PATTERN s = None ->
  matchBlockFile (replaceAll t before 0 s) = None.
Proof.
  intros H. destruct (first_line s) as (l & rest & -> & Hl & Hrest).
  rewrite (replaceAll_line t l rest before H Hl).
  destruct (matchBlockFile (l ++ replaceAll t (before ++ l) 0 rest))
    as [[p b]|] eqn:E; [|reflexivity].
  exfalso. apply matchBlockFile_Some in E as [E Hp].
  assert (Hout : replaceAll t (before ++ l) 0 rest = []
                 \/ exists c rest', replaceAll t (before ++ l) 0 rest = c :: rest'
                                    /\ isLineTerminator c = true).
  { destruct Hrest as [->|(c & rest' & -> & Hc)]; [now left|]. right.
    rewrite (replaceAll_nomatch t _ c rest' (pattern_terminator c rest' Hc)).
    now exists c, (replaceAll t ((before ++ l) ++ [c]) 0 rest'). }
  destruct (prefix_within p b l _ (eq_sym E) (blockFile_notTerminator p Hp) Hout
              (blockFile_nonempty p Hp)) as [l2 ->].
  apply pattern_None_here in H.
  rewrite <- app_assoc, (matchBlockFile_app p (l2 ++ rest) Hp) in H. discriminate.
Qed.

(** After the replacement no temporary file reference is left, provided
    the label has no [$] and opens no reference itself. *)
Lemma replaceAll_clean (t : jsstring) :
  ~ In DOLLAR t -> opensBlockFile t = false ->
  forall s before, ~ hasBlockFile (replaceAll t before 0 s).
Proof.
  intros Hd Ht s.
  induction s as [s IH] using (induction_ltof1 _ (@length char)).
  unfold ltof in IH. intros before.
  destruct s as [|c s].
  - intros (a & p & b & E & Hp). apply blockFile_nonempty in Hp. simpl in E.
    destruct a; destruct p; try discriminate; contradiction.
  - destruct (COMPILED_DOCS_FILE_PREFIX_PATTERN (c :: s)) as [[[g p] r]|] eqn:E.
    + rewrite (replaceAll_match t before _ g p r E).
      rewrite getSubstitution_plain by assumption.
      apply label_closed; [assumption|]. apply IH.
      destruct (pattern_Some _ _ _ _ E) as (Es & Hp & _).
      apply blockFile_nonempty in Hp. rewrite Es, !length_app.
      destruct p; [contradiction | simpl; lia].
    + intros H. pose proof (replaceAll_head t (c :: s) before E) as Hhead.
      rewrite (replaceAll_nomatch t before c s E) in *.
      apply hasBlockFile_cons in H as [H|H]; [contradiction|].
      revert H. apply IH. simpl. lia.
Qed.

End ScrubFacts.

(* ===================================================================== *)
(** ** Facts about error objects and sets of line numbers *)
(* ===================================================================== *)

Module ObjectFacts.
Import Js Rt SnippetCompiler Spec JsFacts.

Lemma setProp_at (k : jsstring) (v : JsValue) (pre : list Property)
  (p : Property) (post : list Property) :
  (forall q, In q pre -> key q <> k) -> key p = k ->
  setProp k v (pre ++ p :: post)
  = pre ++ mkProperty (key p) (enumerable p) v :: post.
Proof.
  intros Hpre Hp. induction pre as [|q pre IH]; simpl.
  - rewrite Hp, eqb_refl. reflexivity.
  - assert (Hq : Js.eqb (key q) k = false)
      by (apply eqb_neq, Hpre; now left).
    rewrite Hq. f_equal. apply IH. intros q' Hin. apply Hpre. now right.
Qed.

Lemma setProp_keys (k : jsstring) (v : JsValue) (ps : list Property) x :
  In x (map key (setProp k v ps)) -> In x (map key ps) \/ x = k.
Proof.
  induction ps as [|p ps IH]; simpl.
  - intros [<-|[]]. now right.
  - destruct (Js.eqb (key p) k) eqn:E; simpl.
    + intros H. now left.
    + intros [<-|H]; [now left; left|].
      destruct (IH H) as [H'|H']; [left; now right | now right].
Qed.

Lemma setProp_NoDup (k : jsstring) (v : JsValue) (ps : list Property) :
  NoDup (map key ps) -> NoDup (map key (setProp k v ps)).
Proof.
  induction ps as [|p ps IH]; simpl; intros H.
  - constructor; [intros [] | constructor].
  - inversion H as [|? ? Hnin Hnd]; subst.
    destruct (Js.eqb (key p) k) eqn:E; simpl.
    + now constructor.
    + constructor; [|now apply IH].
      intros Hin. apply setProp_keys in Hin as [Hin|Hin]; [contradiction|].
      apply eqb_neq in E. contradiction.
Qed.

Lemma assign_wellFormed (k : jsstring) (v : JsValue) (e : JsError) :
  wellFormed e -> wellFormed (assign k v e).
Proof. apply setProp_NoDup. Qed.

Lemma toError_wellFormed (raw : Thrown) :
  (forall e, raw = ThrownError e -> wellFormed e) -> wellFormed (toError raw).
Proof.
  destruct raw as [e|s]; simpl; intros H.
  - now apply H.
  - unfold wellFormed. simpl. constructor; [intros [] | constructor].
Qed.

Section Scrubbing.
Variable env : Env.
Variable example : CodeBlock.t.

Lemma scrubProperty_key (p : Property) : key (scrubProperty env example p) = key p.
Proof.
  unfold scrubProperty. destruct (enumerable p); [|reflexivity].
  now destruct (value p).
Qed.

Lemma scrubProperty_enumerable (p : Property) :
  enumerable (scrubProperty env example p) = enumerable p.
Proof.
  unfold scrubProperty. destruct (enumerable p) eqn:E; [|assumption].
  now destruct (value p).
Qed.

(** The loop over [Object.entries], with the properties before the
    current one already scrubbed. *)
Lemma scrubLoop (ts ext : bool) (ro : list jsstring) (todo done : list Property) :
  NoDup (map key (done ++ todo)) ->
  fold_left
    (fun (acc : JsError) (kv : jsstring * JsValue) =>
       match snd kv with
       | VString s =>
           assign (fst kv) (VString (removeTemporaryFilePaths env s example)) acc
       | VOther _ => acc
       end)
    (map (fun p => (key p, value p)) (filter enumerable todo))
    (mkError ts (map (scrubProperty env example) done ++ todo) ext ro)
  = mkError ts (map (scrubProperty env example) (done ++ todo)) ext ro.
Proof.
  revert done; induction todo as [|p todo IH]; intros done Hnd.
  - simpl. now rewrite !app_nil_r.
  - assert (Hnd' : NoDup (map key ((done ++ [p]) ++ todo)))
      by now rewrite <- app_assoc.
    pose proof (IH (done ++ [p]) Hnd') as IH'.
    replace (map (scrubProperty env example) (done ++ [p]) ++ todo)
      with (map (scrubProperty env example) done
            ++ scrubProperty env example p :: todo) in IH'
      by (rewrite map_app, <- app_assoc; reflexivity).
    replace ((done ++ [p]) ++ todo) with (done ++ p :: todo) in IH'
      by (rewrite <- app_assoc; reflexivity).
    assert (Hfresh : forall q, In q (map (scrubProperty env example) done) ->
                               key q <> key p).
    { intros q Hq. apply in_map_iff in Hq as (d & <- & Hd).
      rewrite scrubProperty_key. rewrite map_app in Hnd. simpl in Hnd.
      apply NoDup_remove_2 in Hnd. intros E. apply Hnd.
      apply in_or_app. left. rewrite <- E. now apply in_map. }
    cbn [filter]. destruct (enumerable p) eqn:Hen.
    + cbn [map fold_left snd fst]. destruct (value p) as [s|tag] eqn:Hv.
      * assert (HS : scrubProperty env example p
                     = mkProperty (key p) (enumerable p)
                         (VString (removeTemporaryFilePaths env s example)))
          by (unfold scrubProperty; now rewrite Hen, Hv).
        unfold assign. cbn [instanceofTSError properties extensible readOnly].
        rewrite (setProp_at _ _ _ p todo Hfresh eq_refl), <- HS. exact IH'.
      * assert (HS : scrubProperty env example p = p)
          by (unfold scrubProperty; now rewrite Hen, Hv).
        rewrite HS in IH'. exact IH'.
    + assert (HS : scrubProperty env example p = p)
        by (unfold scrubProperty; now rewrite Hen).
      rewrite HS in IH'. exact IH'.
Qed.

Lemma scrubEntries_spec (e : JsError) :
  wellFormed e ->
  scrubEntries env example e
  = mkError (instanceofTSError e) (map (scrubProperty env example) (properties e))
            (extensible e) (readOnly e).
Proof.
  intros H. unfold scrubEntries, entries.
  destruct e as [ts ps ext ro]. cbn [instanceofTSError properties extensible readOnly] in *.
  exact (scrubLoop ts ext ro ps [] H).
Qed.

Lemma compilationFailed_error (rawError : Thrown) :
  wellFormed (toError rawError) ->
  SnippetCompilationResult.error (compilationFailed env example rawError)
  = Some (scrubbedError env example (toError rawError)).
Proof.
  intros H. unfold compilationFailed. cbn [SnippetCompilationResult.error].
  f_equal. rewrite scrubEntries_spec by now apply assign_wellFormed.
  reflexivity.
Qed.

End Scrubbing.

(** *** The set of line numbers *)

Lemma filter_filter_N (f g : number -> bool) (l : list number) :
  filter f (filter g l) = filter (fun x => g x && f x) l.
Proof.
  induction l as [|x l IH]; simpl; [reflexivity|].
  destruct (g x); simpl; [destruct (f x)|]; now rewrite IH.
Qed.

Lemma setAdd_fold (l : list number) (acc : NumberSet) :
  fold_left (fun set n => setAdd n set) l acc
  = acc ++ filter (fun n => negb (existsb (sameNumber n) acc)) (dedupFirst l).
Proof.
  revert acc; induction l as [|n l IH]; intros acc; simpl.
  - now rewrite app_nil_r.
  - rewrite IH. unfold setAdd. destruct (existsb (sameNumber n) acc) eqn:E; simpl.
    + f_equal. rewrite filter_filter_N. apply filter_ext. intros m.
      destruct (sameNumber_spec m n) as [->|Hmn]; simpl; [now rewrite E|reflexivity].
    + rewrite <- app_assoc. simpl. f_equal. f_equal.
      rewrite filter_filter_N. apply filter_ext. intros m.
      rewrite existsb_app. simpl. rewrite orb_false_r, negb_orb.
      now rewrite andb_comm.
Qed.

Lemma dedupFirst_In (l : list number) n : In n (dedupFirst l) <-> In n l.
Proof.
  induction l as [|m l IH]; simpl; [tauto|].
  rewrite filter_In, IH. destruct (sameNumber_spec n m) as [->|H]; simpl.
  - split; [intros [?|[? ?]]; [now left | discriminate] | now left].
  - split; [intros [?|[? _]]; [now left | now right]|].
    intros [E|Hin]; [now left | right; now split].
Qed.

Lemma dedupFirst_NoDup (l : list number) : NoDup (dedupFirst l).
Proof.
  induction l as [|m l IH]; simpl; constructor.
  - rewrite filter_In. intros [_ H]. now rewrite sameNumber_refl in H.
  - now apply NoDup_filter.
Qed.

Lemma collect_fold (f : jsstring -> option number) (messages : list jsstring)
  (acc : NumberSet) :
  fold_left
    (fun (set : NumberSet) (message : jsstring) =>
       match f message with
       | Some lineNumber => setAdd lineNumber set
       | None => set
       end) messages acc
  = fold_left (fun set n => setAdd n set)
      (flat_map (fun message => optionToList (f message)) messages) acc.
Proof.
  revert acc; induction messages as [|m ms IH]; intros acc; simpl; [reflexivity|].
  rewrite IH. now destruct (f m).
Qed.

Lemma collectLines_spec (env : Env) (e : JsError) :
  collectLines env e
  = if instanceofTSError e
    then dedupFirst (referencedLines env (readString K_diagnosticText e))
    else [].
Proof.
  unfold collectLines, referencedLines.
  destruct (instanceofTSError e); [|reflexivity].
  rewrite (collect_fold (fun m => lineNumberOf (stripAnsi env m))).
  rewrite setAdd_fold. cbn [app].
  induction (dedupFirst _) as [|x l IH]; simpl; [reflexivity | f_equal; exact IH].
Qed.

End ObjectFacts.

(* ===================================================================== *)
(** ** Facts about scrubbed error objects *)
(* ===================================================================== *)

Module ErrorFacts.
Import Js Rt SnippetCompiler Spec JsFacts ObjectFacts.

Lemma getProp_In (ps : list Property) (p : Property) :
  NoDup (map key ps) -> In p ps -> getProp (key p) ps = Some (value p).
Proof.
  induction ps as [|q ps IH]; intros Hnd [].
  - subst q. simpl. now rewrite eqb_refl.
  - simpl. inversion Hnd as [|? ? Hnin Hnd']; subst.
    destruct (Js.eqb (key q) (key p)) eqn:E.
    + apply eqb_eq in E. exfalso. apply Hnin. rewrite E. now apply in_map.
    + now apply IH.
Qed.

Lemma getProp_own (ps : list Property) (k : jsstring) (en : bool) (v : JsValue) :
  NoDup (map key ps) -> In (mkProperty k en v) ps -> getProp k ps = Some v.
Proof. intros Hnd Hin. exact (getProp_In ps (mkProperty k en v) Hnd Hin). Qed.

Lemma setProp_other (k : jsstring) (v : JsValue) (ps : list Property) (p : Property) :
  key p <> k -> In p ps -> In p (setProp k v ps).
Proof.
  intros Hk. induction ps as [|q ps IH]; intros []; simpl.
  - subst q. apply eqb_neq in Hk. rewrite Hk. now left.
  - destruct (Js.eqb (key q) k); right; [assumption | now apply IH].
Qed.

Lemma setProp_same (k : jsstring) (v : JsValue) (ps : list Property) (p : Property) :
  key p = k -> In p ps -> NoDup (map key ps) ->
  In (mkProperty k (enumerable p) v) (setProp k v ps).
Proof.
  intros Hk. induction ps as [|q ps IH]; intros [] Hnd; simpl.
  - subst q. rewrite Hk, eqb_refl. now left.
  - inversion Hnd as [|? ? Hnin Hnd']; subst.
    destruct (Js.eqb (key q) (key p)) eqn:E.
    + apply eqb_eq in E. exfalso. apply Hnin. rewrite E. now apply in_map.
    + right. now apply IH.
Qed.

Section Scrubbed.
Variable env : Env.
Variable example : CodeBlock.t.

Lemma scrubbedError_wellFormed (e : JsError) :
  wellFormed e -> wellFormed (scrubbedError env example e).
Proof.
  unfold wellFormed, scrubbedError. cbn [properties]. intros H.
  rewrite map_map.
  rewrite (map_ext _ key) by (intros p; apply scrubProperty_key).
  now apply setProp_NoDup.
Qed.

(** Every own property other than [message]: scrubbed when it is
    enumerable and holds a string, untouched otherwise. *)
Lemma scrubbedError_property (e : JsError) (p : Property) :
  In p (properties e) -> key p <> K_message ->
  In (scrubProperty env example p) (properties (scrubbedError env example e)).
Proof.
  intros Hin Hk. unfold scrubbedError. cbn [properties].
  apply in_map. now apply setProp_other.
Qed.

(** The [message] an [Error] constructor has set (own, not enumerable). *)
Lemma scrubbedError_message (e : JsError) (m : jsstring) :
  wellFormed e -> In (mkProperty K_message false (VString m)) (properties e) ->
  readString K_message (scrubbedError env example e)
  = removeTemporaryFilePaths env m example.
Proof.
  intros Hwf Hin.
  assert (Hm : readString K_message e = m).
  { unfold readString.
    now rewrite (getProp_own _ K_message false (VString m) Hwf Hin). }
  pose proof (setProp_same K_message
                (VString (removeTemporaryFilePaths env m example))
                (properties e) (mkProperty K_message false (VString m))
                eq_refl Hin Hwf) as H.
  cbn [enumerable] in H.
  apply (in_map (scrubProperty env example)) in H.
  unfold scrubProperty at 1 in H. cbn [enumerable] in H.
  unfold readString.
  rewrite (getProp_own (properties (scrubbedError env example e))
             K_message false (VString (removeTemporaryFilePaths env m example))).
  - reflexivity.
  - now apply scrubbedError_wellFormed.
  - unfold scrubbedError. cbn [properties]. now rewrite Hm.
Qed.

Lemma getProp_setProp_same (k : jsstring) (v : JsValue) (ps : list Property) :
  getProp k (setProp k v ps) = Some v.
Proof.
  induction ps as [|p ps IH]; simpl.
  - now rewrite eqb_refl.
  - destruct (Js.eqb (key p) k) eqn:E; simpl; now rewrite E.
Qed.

Lemma getProp_setProp_other (k k' : jsstring) (v : JsValue) (ps : list Property) :
  k <> k' -> getProp k' (setProp k v ps) = getProp k' ps.
Proof.
  intros Hk. induction ps as [|p ps IH]; simpl.
  - apply eqb_neq in Hk. now rewrite Hk.
  - destruct (Js.eqb (key p) k) eqn:E; simpl.
    + apply eqb_eq in E. rewrite E. apply eqb_neq in Hk. now rewrite Hk.
    + now rewrite IH.
Qed.

Lemma isString_scrubbed (k : jsstring) (ps : list Property) :
  isString (getProp k (map (scrubProperty env example) ps))
  = isString (getProp k ps).
Proof.
  induction ps as [|p ps IH]; simpl; [reflexivity|].
  rewrite scrubProperty_key. destruct (Js.eqb (key p) k); [|exact IH].
  unfold scrubProperty. destruct (enumerable p); [|reflexivity].
  destruct (value p) eqn:E; simpl; [reflexivity | now rewrite E].
Qed.

(** The [catch] branch reads [message] before and [diagnosticText] after
    the scrubbing; on an error that respects its declared types both
    reads find strings. *)
Lemma scrubbedError_wellTyped (e : JsError) :
  wellTyped e -> wellTyped (scrubbedError env example e).
Proof.
  intros [_ Hd]. unfold wellTyped, scrubbedError.
  cbn [properties instanceofTSError]. rewrite !isString_scrubbed. split.
  - right. now rewrite getProp_setProp_same.
  - intros Hts. rewrite getProp_setProp_other by discriminate. now apply Hd.
Qed.

End Scrubbed.

Lemma toError_wellTyped (raw : Thrown) :
  (forall e, raw = ThrownError e -> wellTyped e) -> wellTyped (toError raw).
Proof.
  destruct raw as [e|s]; simpl; intros H; [now apply H|].
  split; [now right | discriminate].
Qed.

End ErrorFacts.

(* ===================================================================== *)
(** ** Facts about [Promise.all] *)
(* ===================================================================== *)

Module RtFacts.
Import Js Rt.

Lemma takeAt_perm {A} (k : nat) (x : A) (l : list A) :
  Permutation (x :: l) (fst (takeAt k x l) :: snd (takeAt k x l)).
Proof.
  revert x l; induction k as [|k IH]; intros x l; simpl.
  - apply Permutation_refl.
  - destruct l as [|y l]; [apply Permutation_refl|].
    specialize (IH y l). destruct (takeAt k y l) as [z r]. simpl in *.
    eapply Permutation_trans; [apply perm_skip, IH|]. apply perm_swap.
Qed.

Lemma takeAt_length {A} (k : nat) (x : A) (l : list A) :
  length (snd (takeAt k x l)) = length l.
Proof.
  revert x l; induction k as [|k IH]; intros x l; simpl; [reflexivity|].
  destruct l as [|y l]; [reflexivity|].
  specialize (IH y l). destruct (takeAt k y l) as [z r]. simpl in *. now f_equal.
Qed.

Lemma takeAt_map {A B} (f : A -> B) (k : nat) (x : A) (l : list A) :
  takeAt k (f x) (map f l)
  = (f (fst (takeAt k x l)), map f (snd (takeAt k x l))).
Proof.
  revert x l; induction k as [|k IH]; intros x l; simpl; [reflexivity|].
  destruct l as [|y l]; [reflexivity|]. simpl.
  rewrite IH. now destruct (takeAt k y l).
Qed.

Section Settle.
Context {X A : Type}.
Variable task : X -> M A.
Variable sched : Scheduler.

Local Abbreviation indexed := (Rt.indexed task).

(** Tasks whose outcome does not depend on the state they run in. *)
Variable outcome : X -> Result Rejection A.
Hypothesis task_outcome : forall x st, fst (task x st) = outcome x.

Lemma settle_outcome (fuel : nat) :
  forall (L : list (nat * X)) (st : State),
    length L <= fuel ->
    match fst (settle sched fuel (map indexed L) st) with
    | Ok done =>
        Permutation (map (fun d => (fst d, @Ok Rejection A (snd d))) done)
                    (map (fun ix => (fst ix, outcome (snd ix))) L)
    | Err e => In (Err e) (map (fun ix => outcome (snd ix)) L)
    end.
Proof.
  induction fuel as [|fuel IH]; intros L st Hlen.
  - destruct L; [|simpl in Hlen; lia]. simpl. constructor.
  - destruct L as [|x0 L0]; [simpl; constructor|].
    cbn [map settle].
    rewrite (takeAt_map indexed).
    match goal with
    | |- context [takeAt ?k x0 L0] =>
        pose proof (takeAt_perm k x0 L0) as Hperm;
        pose proof (takeAt_length k x0 L0) as Hl;
        destruct (takeAt k x0 L0) as [z R]
    end. cbn [fst snd] in *.
    change (snd (indexed z)) with (task (snd z)).
    change (fst (indexed z)) with (fst z).
    pose proof (task_outcome (snd z) st) as Hz.
    destruct (task (snd z) st) as [[a|e] st1] eqn:Erun; cbn [fst] in Hz.
    + assert (HlenR : length R <= fuel) by (simpl in Hlen; lia).
      specialize (IH R st1 HlenR).
      destruct (settle sched fuel (map indexed R) st1) as [[done|e] st2];
        cbn [fst] in *.
      * simpl. rewrite Hz.
        eapply Permutation_trans;
          [apply perm_skip, IH|].
        apply Permutation_sym.
        apply (Permutation_map (fun ix => (fst ix, outcome (snd ix)))) in Hperm.
        exact Hperm.
      * apply (Permutation_in _ (Permutation_sym
                 (Permutation_map (fun ix => outcome (snd ix)) Hperm))).
        now right.
    + apply (Permutation_in _ (Permutation_sym
               (Permutation_map (fun ix => outcome (snd ix)) Hperm))).
      left. now symmetry.
Qed.

(** What every task keeps, the whole keeps. *)
Variable keeps : State -> State -> Prop.
Hypothesis keeps_refl : forall st, keeps st st.
Hypothesis keeps_trans : forall a b c, keeps a b -> keeps b c -> keeps a c.
Hypothesis task_keeps : forall x st, keeps st (snd (task x st)).

Lemma settle_keeps (fuel : nat) :
  forall (L : list (nat * X)) (st : State),
    keeps st (snd (settle sched fuel (map indexed L) st)).
Proof.
  induction fuel as [|fuel IH]; intros L st; [apply keeps_refl|].
  destruct L as [|x0 L0]; [apply keeps_refl|].
  cbn [map settle]. rewrite (takeAt_map indexed).
  match goal with
  | |- context [takeAt ?k x0 L0] => destruct (takeAt k x0 L0) as [z R]
  end. cbn [fst snd].
  change (snd (indexed z)) with (task (snd z)).
  pose proof (task_keeps (snd z) st) as Hz.
  destruct (task (snd z) st) as [[a|e] st1]; cbn [snd] in Hz; [|exact Hz].
  specialize (IH R st1).
  destruct (settle sched fuel (map indexed R) st1) as [[done|e] st2];
    cbn [snd] in *; eapply keeps_trans; eassumption.
Qed.

End Settle.

(** *** Listing the values by input position *)

Section ByIndex.
Context {A : Type}.

Lemma insertByIndex_perm (x : nat * A) (l : list (nat * A)) :
  Permutation (x :: l) (insertByIndex x l).
Proof.
  induction l as [|y l IH]; simpl; [apply Permutation_refl|].
  destruct (fst x <=? fst y); [apply Permutation_refl|].
  eapply Permutation_trans; [apply perm_swap | now apply perm_skip].
Qed.

Lemma insertByIndex_sorted (x : nat * A) (l : list (nat * A)) :
  StronglySorted keyLe l -> StronglySorted keyLe (insertByIndex x l).
Proof.
  induction l as [|y l IH]; simpl; intros H.
  - constructor; constructor.
  - inversion H as [|? ? Hs Hall]; subst.
    destruct (Nat.leb_spec (fst x) (fst y)) as [Hle|Hgt].
    + constructor; [assumption|]. constructor; [assumption|].
      eapply Forall_impl; [|exact Hall]. unfold keyLe. intros; lia.
    + constructor; [now apply IH|].
      apply (Permutation_Forall (insertByIndex_perm x l)).
      constructor; [unfold keyLe; lia | assumption].
Qed.

Lemma sort_perm (l : list (nat * A)) :
  Permutation l (fold_right insertByIndex [] l).
Proof.
  induction l as [|x l IH]; simpl; [constructor|].
  eapply Permutation_trans; [apply perm_skip, IH | apply insertByIndex_perm].
Qed.

Lemma sort_sorted (l : list (nat * A)) :
  StronglySorted keyLe (fold_right insertByIndex [] l).
Proof.
  induction l as [|x l IH]; simpl; [constructor | now apply insertByIndex_sorted].
Qed.

Lemma sorted_unique (l1 l2 : list (nat * A)) :
  StronglySorted keyLe l1 -> StronglySorted keyLt l2 ->
  Permutation l1 l2 -> l1 = l2.
Proof.
  revert l2; induction l1 as [|x l1 IH]; intros l2 H1 H2 Hp.
  - apply Permutation_nil in Hp. now subst.
  - destruct l2 as [|y l2];
      [apply Permutation_sym, Permutation_nil in Hp; discriminate|].
    inversion H1 as [|? ? Hs1 Hall1]; subst.
    inversion H2 as [|? ? Hs2 Hall2]; subst.
    assert (Hxy : x = y).
    { assert (Hx : In x (y :: l2)) by (eapply Permutation_in; [exact Hp | now left]).
      assert (Hy : In y (x :: l1))
        by (eapply Permutation_in; [apply Permutation_sym, Hp | now left]).
      destruct Hx as [Hx|Hx]; [now symmetry|].
      destruct Hy as [Hy|Hy]; [assumption|].
      rewrite Forall_forall in Hall1, Hall2.
      specialize (Hall1 _ Hy). specialize (Hall2 _ Hx).
      unfold keyLe, keyLt in *. lia. }
    subst y. f_equal. apply IH; try assumption.
    now apply Permutation_cons_inv in Hp.
Qed.

Lemma combine_seq_sorted (vs : list A) (s : nat) :
  StronglySorted keyLt (combine (seq s (length vs)) vs).
Proof.
  revert s; induction vs as [|v vs IH]; intros s; simpl; constructor.
  - apply IH.
  - apply Forall_forall. intros [i a] Hin. apply in_combine_l in Hin.
    apply in_seq in Hin. unfold keyLt. simpl. lia.
Qed.

Lemma snd_combine (ns : list nat) (vs : list A) :
  length ns = length vs -> map snd (combine ns vs) = vs.
Proof.
  revert vs; induction ns as [|n ns IH]; intros [|v vs]; simpl;
    try discriminate; [reflexivity|].
  intros [= H]. now rewrite IH.
Qed.

Lemma byIndex_perm (done : list (nat * A)) (vs : list A) :
  Permutation done (combine (seq 0 (length vs)) vs) -> byIndex done = vs.
Proof.
  intros Hp. unfold byIndex.
  rewrite (sorted_unique (fold_right insertByIndex [] done)
             (combine (seq 0 (length vs)) vs)).
  - apply snd_combine. now rewrite length_seq.
  - apply sort_sorted.
  - apply combine_seq_sorted.
  - eapply Permutation_trans; [apply Permutation_sym, sort_perm | exact Hp].
Qed.

End ByIndex.

Lemma combine_map_r {X Y} (f : X -> Y) (n : list nat) (xs : list X) :
  combine n (map f xs) = map (fun ix => (fst ix, f (snd ix))) (combine n xs).
Proof.
  revert n; induction xs as [|x xs IH]; intros [|i n]; simpl; try reflexivity.
  now rewrite IH.
Qed.

Lemma all_Ok {E A} (rs : list (Result E A)) :
  (forall e, ~ In (Err e) rs) -> exists vs, rs = map Ok vs.
Proof.
  induction rs as [|r rs IH]; intros H.
  - now exists [].
  - destruct IH as [vs ->]; [intros e He; apply (H e); now right|].
    destruct r as [a|e]; [now exists (a :: vs)|].
    exfalso. apply (H e). now left.
Qed.

Section PromiseAll.
Context {X A : Type}.
Variable task : X -> M A.
Variable sched : Scheduler.
Variable outcome : X -> Result Rejection A.
Hypothesis task_outcome : forall x st, fst (task x st) = outcome x.

(** [Promise.all] fulfils with the values in the order of its input,
    whatever the order of completion, or rejects with the rejection of
    one of its tasks. *)
Lemma promiseAll_outcome (xs : list X) (st : State) :
  match fst (promiseAll sched (map task xs) st) with
  | Ok vs => map outcome xs = map Ok vs
  | Err e => In (Err e) (map outcome xs)
  end.
Proof.
  unfold promiseAll. rewrite length_map, combine_map_r.
  pose proof (settle_outcome task sched outcome task_outcome (length xs)
                (combine (seq 0 (length xs)) xs) st) as H.
  unfold indexed in H.
  rewrite length_combine, length_seq, Nat.min_id in H. specialize (H (le_n _)).
  destruct (settle sched (length xs)
              (map (fun ix => (fst ix, task (snd ix))) (combine (seq 0 (length xs)) xs))
              st) as [[done|e] st']; cbn [fst] in *.
  - assert (Hall : forall e, ~ In (Err e) (map outcome xs)).
    { intros e He.
      assert (Hin : exists i, In (i, @Err Rejection A e)
                 (map (fun ix => (fst ix, outcome (snd ix)))
                      (combine (seq 0 (length xs)) xs))).
      { apply in_map_iff in He as (x & Hx & Hin).
        apply (In_nth _ _ x) in Hin as (i & Hi & Hnth).
        exists i. apply in_map_iff. exists (i, x). simpl. split; [now rewrite Hx|].
        replace (i, x) with (nth i (combine (seq 0 (length xs)) xs) (0, x)).
        - apply nth_In. now rewrite length_combine, length_seq, Nat.min_id.
        - rewrite combine_nth by now rewrite length_seq.
          now rewrite seq_nth, Hnth. }
      destruct Hin as (i & Hin).
      apply (Permutation_in _ (Permutation_sym H)) in Hin.
      apply in_map_iff in Hin as (d & Hd & _). discriminate. }
    destruct (all_Ok _ Hall) as [vs Hvs].
    assert (Hlen : length vs = length xs).
    { apply (f_equal (@length _)) in Hvs. now rewrite !length_map in Hvs. }
    assert (Hdone : Permutation done (combine (seq 0 (length vs)) vs)).
    { assert (Htarget :
        map (fun ix => (fst ix, outcome (snd ix))) (combine (seq 0 (length xs)) xs)
        = map (fun d => (fst d, @Ok Rejection A (snd d)))
              (combine (seq 0 (length vs)) vs)).
      { rewrite <- !combine_map_r, Hvs, Hlen. reflexivity. }
      rewrite Htarget in H.
      apply Permutation_map_inv in H as (l3 & E3 & Hp3).
      assert (done = l3).
      { clear -E3. revert l3 E3.
        induction done as [|[i a] done IH]; intros [|[j b] l3] E3;
          simpl in *; try discriminate; [reflexivity|].
        injection E3 as -> -> E3. f_equal. now apply IH. }
      subst l3. now apply Permutation_sym. }
    rewrite (byIndex_perm done vs Hdone). exact Hvs.
  - apply in_map_iff in H as ([i x] & Hix & Hin). apply in_map_iff.
    exists x. split; [assumption|]. eapply in_combine_r; eassumption.
Qed.

Variable keeps : State -> State -> Prop.
Hypothesis keeps_refl : forall st, keeps st st.
Hypothesis keeps_trans : forall a b c, keeps a b -> keeps b c -> keeps a c.
Hypothesis task_keeps : forall x st, keeps st (snd (task x st)).

Lemma promiseAll_keeps (xs : list X) (st : State) :
  keeps st (snd (promiseAll sched (map task xs) st)).
Proof.
  unfold promiseAll. rewrite length_map, combine_map_r.
  pose proof (settle_keeps task sched keeps keeps_refl keeps_trans task_keeps
                (length xs) (combine (seq 0 (length xs)) xs) st) as H.
  unfold indexed in H.
  now destruct (settle sched (length xs)
              (map (fun ix => (fst ix, task (snd ix))) (combine (seq 0 (length xs)) xs))
              st) as [[done|e] st'].
Qed.

End PromiseAll.

End RtFacts.

(* ===================================================================== *)
(** ** Facts about completion orders *)
(* ===================================================================== *)

Module ScheduleFacts.
Import Js Rt RtFacts.

Lemma takeAt_indexOf (a x : nat) (l : list nat) :
  In a (x :: l) -> fst (takeAt (indexOf a (x :: l)) x l) = a.
Proof.
  revert x; induction l as [|y l IH]; intros x Hin.
  - destruct Hin as [E|[]]. subst. cbn [indexOf]. rewrite Nat.eqb_refl.
    reflexivity.
  - change (indexOf a (x :: y :: l))
      with (if a =? x then 0 else S (indexOf a (y :: l))).
    destruct (Nat.eqb_spec a x) as [->|Hax]; [reflexivity|].
    destruct Hin as [E|Hin]; [now symmetry in E|].
    specialize (IH y Hin). cbn [takeAt].
    now destruct (takeAt (indexOf a (y :: l)) y l).
Qed.

(** Every order of completion is the order of some scheduler. *)
Lemma completion_realized (n : nat) (order : list nat) :
  length order = n ->
  forall rest done pending,
    order = done ++ rest -> Permutation pending rest ->
    completionOrder (schedulerOf n order) (length pending) pending = rest.
Proof.
  intros Hn rest; induction rest as [|a rest IH]; intros done pending Ho Hp.
  - apply Permutation_sym, Permutation_nil in Hp. now subst.
  - destruct pending as [|p ps];
      [apply Permutation_nil in Hp; discriminate|].
    cbn [length completionOrder].
    assert (Hnext : nth (n - length (p :: ps)) order 0 = a).
    { rewrite (Permutation_length Hp), <- Hn, Ho, length_app. cbn [length].
      replace (length done + S (length rest) - S (length rest))
        with (length done) by lia.
      now rewrite nth_middle. }
    unfold schedulerOf at 1. rewrite Hnext.
    assert (Hin : In a (p :: ps))
      by (eapply Permutation_in; [apply Permutation_sym, Hp | now left]).
    pose proof (takeAt_indexOf a p ps Hin) as Hz.
    pose proof (takeAt_perm (indexOf a (p :: ps)) p ps) as Hperm.
    pose proof (takeAt_length (indexOf a (p :: ps)) p ps) as Hlen.
    destruct (takeAt (indexOf a (p :: ps)) p ps) as [z r]. cbn [fst snd] in *.
    subst z. f_equal. rewrite <- Hlen.
    apply (IH (done ++ [a]) r); [now rewrite <- app_assoc|].
    apply Permutation_cons_inv with (a := a).
    eapply Permutation_trans; [apply Permutation_sym, Hperm | exact Hp].
Qed.

Lemma every_order_scheduled (n : nat) (order : list nat) :
  Permutation order (seq 0 n) ->
  completionOrder (schedulerOf n order) n (seq 0 n) = order.
Proof.
  intros Hp.
  pose proof (completion_realized n order) as H.
  rewrite (Permutation_length Hp), length_seq in H.
  specialize (H eq_refl order [] (seq 0 n) eq_refl (Permutation_sym Hp)).
  now rewrite length_seq in H.
Qed.

Section Completion.
Context {X A : Type}.
Variable task : X -> M A.
Variable sched : Scheduler.

(** The values [settle] returns stand in the order of completion. *)
Lemma settle_completion (fuel : nat) :
  forall (L : list (nat * X)) (st : State) done,
    fst (settle sched fuel (map (indexed task) L) st) = Ok done ->
    map fst done = completionOrder sched fuel (map fst L).
Proof.
  induction fuel as [|fuel IH]; intros L st done H.
  - simpl in H. injection H as <-. reflexivity.
  - destruct L as [|x0 L0]; [simpl in H; injection H as <-; reflexivity|].
    cbn [map settle completionOrder] in *.
    rewrite (takeAt_map (indexed task)) in H.
    assert (Hk : map fst (map (indexed task) L0) = map fst L0)
      by (rewrite map_map; reflexivity).
    change (fst (indexed task x0)) with (fst x0) in H. rewrite Hk in H.
    rewrite (takeAt_map fst).
    destruct (takeAt (sched (fst x0 :: map fst L0)) x0 L0) as [z R].
    cbn [fst snd] in *.
    change (snd (indexed task z)) with (task (snd z)) in H.
    change (fst (indexed task z)) with (fst z) in H.
    destruct (task (snd z) st) as [[a|e] st1]; [|discriminate].
    specialize (IH R st1).
    destruct (settle sched fuel (map (indexed task) R) st1) as [[done'|e] st2];
      [|discriminate].
    cbn [fst] in *. injection H as <-. cbn [map fst]. f_equal. now apply IH.
Qed.

(** Tasks that always fulfil, with a value and with entries in the log
    that do not depend on the state they run in: [settle] runs them all,
    in the order of the scheduler. *)
Variable valueOf : X -> A.
Variable logged : X -> list Event.
Hypothesis task_value : forall x st, fst (task x st) = Ok (valueOf x).
Hypothesis task_log : forall x st, log (snd (task x st)) = log st ++ logged x.

Lemma settle_trace (fuel : nat) :
  forall (L : list (nat * X)) (st : State),
    length L <= fuel ->
    exists L',
      Permutation L L'
      /\ map fst L' = completionOrder sched fuel (map fst L)
      /\ fst (settle sched fuel (map (indexed task) L) st)
         = Ok (map (fun ix => (fst ix, valueOf (snd ix))) L')
      /\ log (snd (settle sched fuel (map (indexed task) L) st))
         = log st ++ flat_map (fun ix => logged (snd ix)) L'.
Proof.
  induction fuel as [|fuel IH]; intros L st Hlen.
  - destruct L; [|simpl in Hlen; lia]. exists []. simpl.
    repeat split; [constructor | now rewrite app_nil_r].
  - destruct L as [|x0 L0].
    { exists []. simpl. repeat split; [constructor | now rewrite app_nil_r]. }
    cbn [map settle completionOrder].
    rewrite (takeAt_map (indexed task)).
    assert (Hk : map fst (map (indexed task) L0) = map fst L0)
      by (rewrite map_map; reflexivity).
    change (fst (indexed task x0)) with (fst x0). rewrite Hk.
    rewrite (takeAt_map fst).
    pose proof (takeAt_perm (sched (fst x0 :: map fst L0)) x0 L0) as Hperm.
    pose proof (takeAt_length (sched (fst x0 :: map fst L0)) x0 L0) as Hl.
    destruct (takeAt (sched (fst x0 :: map fst L0)) x0 L0) as [z R].
    cbn [fst snd] in *.
    change (snd (indexed task z)) with (task (snd z)).
    change (fst (indexed task z)) with (fst z).
    pose proof (task_value (snd z) st) as Hv.
    pose proof (task_log (snd z) st) as Hlog.
    destruct (task (snd z) st) as [r st1]. cbn [fst snd] in *. subst r.
    destruct (IH R st1) as (R' & HpR & Hord & Hres & HlogR);
      [simpl in Hlen; lia|].
    destruct (settle sched fuel (map (indexed task) R) st1) as [r2 st2].
    cbn [fst snd] in *. subst r2.
    exists (z :: R'). split; [|split; [|split]].
    + eapply Permutation_trans; [exact Hperm | now apply perm_skip].
    + cbn [map]. now rewrite Hord.
    + reflexivity.
    + cbn [snd]. rewrite HlogR, Hlog. cbn [flat_map]. now rewrite <- app_assoc.
Qed.

End Completion.

End ScheduleFacts.

(* ===================================================================== *)
(** ** Facts about a run of [compileSnippets] *)
(* ===================================================================== *)

Module CompilerFacts.
Import Js Rt SnippetCompiler Spec JsFacts RtFacts ScheduleFacts.

Lemma compiling_refl (st : State) : compiling st st.
Proof.
  repeat split. exists []. split; [now rewrite app_nil_r | constructor].
Qed.

Lemma compiling_trans (a b c : State) :
  compiling a b -> compiling b c -> compiling a c.
Proof.
  intros (R1 & C1 & P1 & e1 & L1 & F1) (R2 & C2 & P2 & e2 & L2 & F2).
  repeat split; try congruence.
  exists (e1 ++ e2). split.
  - now rewrite L2, L1, app_assoc.
  - now apply Forall_app.
Qed.

Section Run.
Variable env : Env.
Variable workingDirectory : jsstring.

Lemma resume_outcome (task : CodeBlock.t * jsstring) (st : State) :
  fst (testCodeCompilationResume env task st)
  = Ok (settled env (fst task)
          (outcomeOf env (CodeBlock.sanitisedCode (fst task)) (snd task))).
Proof.
  unfold testCodeCompilationResume, compileResume, outcomeOf.
  now destruct (writeFileFault env (snd task)).
Qed.

Lemma resume_compiling (task : CodeBlock.t * jsstring) (st : State) :
  compiling st (snd (testCodeCompilationResume env task st)).
Proof.
  unfold testCodeCompilationResume, compileResume.
  destruct (writeFileFault env (snd task)); cbn [snd];
    repeat split; eexists; (split; [reflexivity|]); repeat constructor.
Qed.

Lemma mapSync_start (examples : list CodeBlock.t) (st : State) :
  mapSync (testCodeCompilationStart env workingDirectory) examples st
  = (tasksFrom env workingDirectory (reads st) examples,
     mkState (fs st) (removes st) (reads st + length examples) (log st)).
Proof.
  revert st; induction examples as [|example rest IH]; intros st; simpl.
  - rewrite Nat.add_0_r. now destruct st.
  - rewrite IH. cbn [reads fs removes log]. do 2 f_equal. lia.
Qed.

Lemma resultsFrom_tasks (k : nat) (examples : list CodeBlock.t) :
  map (fun task =>
         @Ok Rejection _
           (settled env (fst task)
              (outcomeOf env (CodeBlock.sanitisedCode (fst task)) (snd task))))
      (tasksFrom env workingDirectory k examples)
  = map Ok (resultsFrom env workingDirectory k examples).
Proof.
  revert k; induction examples as [|example rest IH]; intros k; simpl;
    [reflexivity | now rewrite IH].
Qed.

Lemma map_Ok_inj {E A} (l l' : list A) : map (@Ok E A) l = map Ok l' -> l = l'.
Proof.
  revert l'; induction l as [|a l IH]; intros [|b l']; simpl; intros H;
    try discriminate; [reflexivity|].
  injection H as -> H. f_equal. now apply IH.
Qed.

(** Compiling all the blocks always fulfils, with the result of every
    block at its place, whatever the order of completion. *)
Lemma compileAll (sched : Scheduler) (k : nat) (examples : list CodeBlock.t)
  (st : State) :
  fst (promiseAll sched
         (map (testCodeCompilationResume env)
              (tasksFrom env workingDirectory k examples)) st)
  = Ok (resultsFrom env workingDirectory k examples).
Proof.
  pose proof (promiseAll_outcome (testCodeCompilationResume env) sched _
                resume_outcome (tasksFrom env workingDirectory k examples) st) as H.
  destruct (fst (promiseAll sched _ st)) as [vs|e].
  - rewrite resultsFrom_tasks in H. apply map_Ok_inj in H. now subst.
  - apply in_map_iff in H as (t & Ht & _). discriminate.
Qed.

Lemma compileAll_compiling (sched : Scheduler) (tasks : list (CodeBlock.t * jsstring))
  (st : State) :
  compiling st
    (snd (promiseAll sched (map (testCodeCompilationResume env) tasks) st)).
Proof.
  apply (promiseAll_keeps (testCodeCompilationResume env) sched compiling
           compiling_refl compiling_trans resume_compiling).
Qed.

Lemma resume_log (task : CodeBlock.t * jsstring) (st : State) :
  log (snd (testCodeCompilationResume env task st)) = log st ++ eventsOf env task.
Proof.
  unfold testCodeCompilationResume, compileResume, eventsOf.
  now destruct (writeFileFault env (snd task)).
Qed.

Lemma writtenPaths_eventsOf (L : list (nat * (CodeBlock.t * jsstring))) :
  writtenPaths (flat_map (fun it => eventsOf env (snd it)) L)
  = map (fun it => snd (snd it)) L.
Proof.
  unfold writtenPaths. induction L as [|[i task] L IH]; [reflexivity|].
  cbn [flat_map map snd]. rewrite flat_map_app, IH. unfold eventsOf.
  now destruct (writeFileFault env (snd task)).
Qed.

(** The files written while the blocks compile are those of the tasks,
    each once, in the order of completion. *)
Lemma compileAll_writes (sched : Scheduler) (tasks : list (CodeBlock.t * jsstring))
  (st : State) :
  exists evs,
    log (snd (promiseAll sched (map (testCodeCompilationResume env) tasks) st))
    = log st ++ evs
    /\ Permutation (writtenPaths evs) (map snd tasks).
Proof.
  unfold promiseAll. rewrite length_map, combine_map_r.
  destruct (settle_trace (testCodeCompilationResume env) sched
              (fun task => settled env (fst task)
                 (outcomeOf env (CodeBlock.sanitisedCode (fst task)) (snd task)))
              (eventsOf env) resume_outcome resume_log (length tasks)
              (combine (seq 0 (length tasks)) tasks) st)
    as (L' & Hperm & _ & Hres & Hlog).
  { now rewrite length_combine, length_seq, Nat.min_id. }
  unfold indexed in *.
  destruct (settle sched (length tasks) _ st) as [r st']. cbn [fst snd] in *.
  subst r. cbn [snd]. exists (flat_map (fun it => eventsOf env (snd it)) L').
  split; [exact Hlog|]. rewrite writtenPaths_eventsOf.
  rewrite <- (map_map snd snd).
  apply Permutation_map. apply Permutation_sym.
  rewrite <- (snd_combine (seq 0 (length tasks)) tasks) at 1
    by now rewrite length_seq.
  now apply Permutation_map.
Qed.

(** *** Extraction *)

Lemma extract_outcome (subst : jsstring -> jsstring) (file : jsstring) (st : State) :
  extractFileCodeBlocks env file subst st = (extractOutcome env subst file, st).
Proof.
  unfold extractFileCodeBlocks, extractOutcome. now destruct (extract env file).
Qed.

Lemma extracted_examples (subst : jsstring -> jsstring) (files : list jsstring) :
  forall vs,
    map (extractOutcome env subst) files = map Ok vs ->
    exists blocks,
      extracted env files blocks
      /\ vs = map (fun fb => mapBlocks (fst fb) subst 0 (snd fb)) (combine files blocks).
Proof.
  induction files as [|f files IH]; intros [|v vs] H; simpl in H; try discriminate.
  - exists []. split; [constructor | reflexivity].
  - injection H as Hf H. destruct (IH vs H) as (blocks & Hex & ->).
    unfold extractOutcome in Hf. destruct (extract env f) as [bs|e] eqn:E;
      [|discriminate].
    injection Hf as <-. exists (bs :: blocks). split; [now constructor | reflexivity].
Qed.

Lemma extracted_fun (files : list jsstring) (b1 b2 : list (list jsstring)) :
  extracted env files b1 -> extracted env files b2 -> b1 = b2.
Proof.
  intros H1; revert b2; induction H1 as [|f bs files b1 Hf _ IH]; intros b2 H2;
    inversion H2; subst; [reflexivity|].
  f_equal; [congruence | now apply IH].
Qed.

Lemma extracted_In (files : list jsstring) (blocks : list (list jsstring)) f :
  extracted env files blocks -> In f files -> exists bs, extract env f = Ok bs.
Proof.
  induction 1 as [|f' bs files blocks Hf _ IH]; intros [].
  - subst. now exists bs.
  - now apply IH.
Qed.

Lemma extractAll_state (sched : Scheduler) (files : list jsstring) (st : State) :
  snd (extractAllCodeBlocks env sched files st) = st.
Proof.
  unfold extractAllCodeBlocks, bind, packageInfo.
  destruct (packageInfoRead env) as [pkg|e]; [|reflexivity].
  pose proof (promiseAll_keeps
                (fun file => extractFileCodeBlocks env file
                               (substituteLocalPackageImports env pkg))
                sched (fun a b => b = a) (fun a => eq_refl)
                (fun a b c H1 H2 => eq_trans H2 H1)
                (fun x s => f_equal snd (extract_outcome _ x s)) files st) as H.
  cbv beta in H.
  destruct (promiseAll sched _ st) as [[vs|e] st']; cbn [snd] in *; now subst.
Qed.

Lemma extractAll_outcome (sched : Scheduler) (files : list jsstring) (st : State) :
  match fst (extractAllCodeBlocks env sched files st) with
  | Ok examples =>
      exists pkg blocks,
        packageInfoRead env = Ok pkg /\ extracted env files blocks
        /\ examples = examplesOf env pkg files blocks
  | Err rejection =>
      (cause rejection = PackageManifest
       /\ packageInfoRead env = Err (reason rejection))
      \/ (exists file, In file files /\ cause rejection = Document file
                       /\ extract env file = Err (reason rejection))
  end.
Proof.
  unfold extractAllCodeBlocks, bind, packageInfo.
  destruct (packageInfoRead env) as [pkg|e]; [|left; now split].
  pose proof (promiseAll_outcome
                (fun file => extractFileCodeBlocks env file
                               (substituteLocalPackageImports env pkg))
                sched (extractOutcome env (substituteLocalPackageImports env pkg))
                (fun x s => f_equal fst (extract_outcome _ x s)) files st) as H.
  destruct (promiseAll sched _ st) as [[vs|rej] st']; cbn [fst] in *.
  - apply extracted_examples in H as (blocks & Hex & ->).
    exists pkg, blocks. repeat split; assumption.
  - right. apply in_map_iff in H as (f & Hf & Hin). exists f.
    unfold extractOutcome in Hf. destruct (extract env f) as [bs|e]; [discriminate|].
    injection Hf as <-. repeat split; assumption.
Qed.

(** *** The [try] block and the whole call *)

Lemma try_run (sE sC : Scheduler) (files : list jsstring) (st : State) :
  let out := compileSnippetsTry env workingDirectory sE sC files st in
  removes (snd out) = S (removes st)
  /\ match removeFault env (removes st), ensureDirFault env with
     | Some e, _ =>
         fst out = Err (mkRejection WorkingDirectory e)
         /\ log (snd out) = log st ++ [EvRemove false]
         /\ fs (snd out) = fs st
     | None, Some e =>
         fst out = Err (mkRejection WorkingDirectory e)
         /\ log (snd out) = log st ++ [EvRemove true; EvEnsureDir false]
         /\ fs (snd out) = mkFS false []
     | None, None =>
         present (fs (snd out)) = true
         /\ (exists evs,
               log (snd out) = log st ++ [EvRemove true; EvEnsureDir true] ++ evs
               /\ compileEvents evs)
         /\ match fst out with
            | Ok rs =>
                exists pkg blocks,
                  packageInfoRead env = Ok pkg /\ extracted env files blocks
                  /\ rs = resultsFrom env workingDirectory (reads st)
                            (examplesOf env pkg files blocks)
            | Err rejection =>
                (cause rejection = PackageManifest
                 /\ packageInfoRead env = Err (reason rejection))
                \/ (exists file, In file files /\ cause rejection = Document file
                                 /\ extract env file = Err (reason rejection))
            end
     end.
Proof.
  cbv zeta. unfold compileSnippetsTry, bind, cleanWorkingDirectory, ensureDir.
  destruct (removeFault env (removes st)) as [e|]; [now repeat split|].
  destruct (ensureDirFault env) as [e|].
  { cbn [fst snd removes log fs]. repeat split. now rewrite <- app_assoc. }
  set (st2 := mkState _ _ _ _).
  pose proof (extractAll_state sE files st2) as Hst.
  pose proof (extractAll_outcome sE files st2) as Hout.
  destruct (extractAllCodeBlocks env sE files st2) as [[examples|rej] st3];
    cbn [fst snd] in *; subst st3.
  - rewrite mapSync_start. cbn [reads fs removes log st2].
    set (st4 := mkState _ _ _ _).
    pose proof (compileAll sC (reads st) examples st4) as Hres.
    pose proof (compileAll_compiling sC
                  (tasksFrom env workingDirectory (reads st) examples) st4) as Hc.
    destruct (promiseAll sC _ st4) as [r st5]. cbn [fst snd] in *.
    destruct Hc as (Hr & _ & Hp & evs & Hl & Hevs). subst r.
    split; [exact Hr|]. split; [exact Hp|]. split.
    + exists evs. split; [|assumption]. rewrite Hl. unfold st4. cbn [log].
      now rewrite <- !app_assoc.
    + destruct Hout as (pkg & blocks & Hpkg & Hex & ->). now exists pkg, blocks.
  - split; [reflexivity|]. split; [reflexivity|]. split; [|exact Hout].
    exists []. split; [|constructor]. unfold st2. cbn [log].
    now rewrite <- !app_assoc.
Qed.

Lemma finally_run (sE sC : Scheduler) (files : list jsstring) (st : State) :
  let out := compileSnippets env workingDirectory sE sC files st in
  let tried := compileSnippetsTry env workingDirectory sE sC files st in
  match removeFault env (S (removes st)) with
  | Some e =>
      fst out = Err (mkRejection WorkingDirectory e)
      /\ fs (snd out) = fs (snd tried)
      /\ log (snd out) = log (snd tried) ++ [EvRemove false]
  | None =>
      fst out = fst tried
      /\ fs (snd out) = mkFS false []
      /\ log (snd out) = log (snd tried) ++ [EvRemove true]
  end.
Proof.
  cbv zeta. unfold compileSnippets, tryFinally.
  destruct (try_run sE sC files st) as [Hr _]. cbv zeta in Hr.
  destruct (compileSnippetsTry env workingDirectory sE sC files st) as [r st1].
  cbn [fst snd] in *. unfold cleanWorkingDirectory. rewrite Hr.
  now destruct (removeFault env (S (removes st))).
Qed.

(** A call fulfils exactly when nothing structural fails, and then with
    the result of every block, in the order of extraction. *)
Lemma compileSnippets_fulfils (sE sC : Scheduler) (files : list jsstring)
  (st : State) (rs : list SnippetCompilationResult.t) :
  fst (compileSnippets env workingDirectory sE sC files st) = Ok rs
  <-> removeFault env (removes st) = None
      /\ ensureDirFault env = None
      /\ removeFault env (S (removes st)) = None
      /\ exists pkg blocks,
           packageInfoRead env = Ok pkg /\ extracted env files blocks
           /\ rs = resultsFrom env workingDirectory (reads st)
                     (examplesOf env pkg files blocks).
Proof.
  pose proof (finally_run sE sC files st) as Hf.
  pose proof (try_run sE sC files st) as [_ Ht]. cbv zeta in *.
  destruct (removeFault env (S (removes st))) as [e2|].
  { destruct Hf as (Hf & _). split; [congruence | now intros (_ & _ & ? & _)]. }
  destruct Hf as (Hf & _). rewrite Hf.
  destruct (removeFault env (removes st)) as [e1|].
  { destruct Ht as (Ht & _). split; [congruence | now intros (? & _)]. }
  destruct (ensureDirFault env) as [e3|].
  { destruct Ht as (Ht & _). split; [congruence | now intros (_ & ? & _)]. }
  destruct Ht as (_ & _ & Ht).
  destruct (fst (compileSnippetsTry env workingDirectory sE sC files st))
    as [rs'|rej].
  - destruct Ht as (pkg & blocks & Hpkg & Hex & ->). split.
    + intros [= <-]. repeat split. now exists pkg, blocks.
    + intros (_ & _ & _ & pkg' & blocks' & Hpkg' & Hex' & ->).
      assert (pkg' = pkg) by congruence. subst pkg'.
      now rewrite (extracted_fun files blocks' blocks Hex' Hex).
  - split; [discriminate|].
    intros (_ & _ & _ & pkg & blocks & Hpkg & Hex & _). exfalso.
    destruct Ht as [[_ Hp]|(f & Hin & _ & Hf')]; [congruence|].
    destruct (extracted_In files blocks f Hex Hin) as [bs Hbs]. congruence.
Qed.

End Run.

End CompilerFacts.

(* ===================================================================== *)
(** ** The catch branch on any error object *)
(* ===================================================================== *)

Module HandlerFacts.
Import Js Rt SnippetCompiler Spec Vocabulary JsFacts ObjectFacts ErrorFacts.

Lemma assignChecked_sound (k : jsstring) (v : JsValue) (e e' : JsError) :
  assignChecked k v e = Some e' -> e' = assign k v e.
Proof.
  unfold assignChecked. destruct (getProp k (properties e)).
  - destruct (existsb _ _); [discriminate | now intros [= <-]].
  - destruct (extensible e); [now intros [= <-] | discriminate].
Qed.

Lemma assignChecked_rewritable (k : jsstring) (v : JsValue) (e : JsError) :
  rewritable e -> assignChecked k v e = Some (assign k v e).
Proof.
  intros [Hext Hro]. unfold assignChecked. rewrite Hext, Hro.
  now destruct (getProp k (properties e)).
Qed.

Lemma assign_rewritable (k : jsstring) (v : JsValue) (e : JsError) :
  rewritable e -> rewritable (assign k v e).
Proof. now intros [Hext Hro]. Qed.

Lemma messageRead_sound (e : JsError) (m : jsstring) :
  messageRead e = Some m -> m = readString K_message e.
Proof.
  unfold messageRead, readString.
  destruct (getProp K_message (properties e)) as [[s|tag]|];
    [now intros [= <-] | discriminate | now intros [= <-]].
Qed.

Lemma messageRead_wellTyped (e : JsError) :
  wellTyped e -> messageRead e = Some (readString K_message e).
Proof.
  intros [[H|H] _]; unfold messageRead, readString.
  - now rewrite H.
  - now destruct (getProp K_message (properties e)) as [[s|tag]|].
Qed.

Section Handler.
Variable env : Env.
Variable example : CodeBlock.t.

Local Abbreviation step :=
  (fun (acc : JsError) (kv : jsstring * JsValue) =>
     match snd kv with
     | VString s =>
         assign (fst kv) (VString (removeTemporaryFilePaths env s example)) acc
     | VOther _ => acc
     end).

Lemma scrubEntriesChecked_sound (todo : list (jsstring * JsValue)) :
  forall e e',
    scrubEntriesChecked env example todo e = Some e' ->
    e' = fold_left step todo e.
Proof.
  induction todo as [|[k [s|tag]] todo IH]; intros e e' H;
    cbn [scrubEntriesChecked fold_left fst snd] in *.
  - now injection H as <-.
  - destruct (assignChecked k _ e) as [e1|] eqn:E; [|discriminate].
    apply assignChecked_sound in E. subst e1. now apply IH.
  - now apply IH.
Qed.

Lemma scrubEntriesChecked_rewritable (todo : list (jsstring * JsValue)) :
  forall e,
    rewritable e ->
    scrubEntriesChecked env example todo e = Some (fold_left step todo e).
Proof.
  induction todo as [|[k [s|tag]] todo IH]; intros e He;
    cbn [scrubEntriesChecked fold_left fst snd].
  - reflexivity.
  - rewrite (assignChecked_rewritable _ _ _ He).
    now apply IH, assign_rewritable.
  - now apply IH.
Qed.

Lemma collectLinesChecked_sound (e : JsError) (lines : NumberSet) :
  collectLinesChecked env e = Some lines -> lines = collectLines env e.
Proof.
  unfold collectLinesChecked, collectLines, diagnosticTextRead, readString.
  destruct (instanceofTSError e); [|now intros [= <-]].
  destruct (getProp K_diagnosticText (properties e)) as [[s|tag]|];
    [now intros [= <-] | discriminate | discriminate].
Qed.

Lemma collectLinesChecked_typed (e : JsError) :
  (instanceofTSError e = true ->
   isString (getProp K_diagnosticText (properties e)) = true) ->
  collectLinesChecked env e = Some (collectLines env e).
Proof.
  unfold collectLinesChecked, collectLines, diagnosticTextRead, readString.
  destruct (instanceofTSError e); [|reflexivity]. intros H.
  specialize (H eq_refl).
  now destruct (getProp K_diagnosticText (properties e)) as [[s|tag]|].
Qed.

(** Where the branch returns, it returns what [compilationFailed] says. *)
Lemma checked_sound (rawError : Thrown) (result : SnippetCompilationResult.t) :
  compilationFailedChecked env example rawError = Some result ->
  result = compilationFailed env example rawError.
Proof.
  unfold compilationFailedChecked, compilationFailed.
  destruct (messageRead (toError rawError)) as [m|] eqn:Em; [|discriminate].
  apply messageRead_sound in Em. subst m.
  destruct (assignChecked K_message _ (toError rawError)) as [e1|] eqn:E1;
    [|discriminate].
  apply assignChecked_sound in E1. subst e1.
  destruct (scrubEntriesChecked env example _ _) as [e2|] eqn:E2; [|discriminate].
  apply scrubEntriesChecked_sound in E2. fold (scrubEntries env example) in E2.
  change (fold_left step (entries ?e) ?e) with (scrubEntries env example e) in E2.
  subst e2.
  destruct (collectLinesChecked env _) as [lines|] eqn:E3; [|discriminate].
  apply collectLinesChecked_sound in E3. subst lines. now intros [= <-].
Qed.

(** On an ordinary error the branch returns. *)
Lemma checked_ordinary (rawError : Thrown) :
  ordinary (toError rawError) ->
  compilationFailedChecked env example rawError
  = Some (compilationFailed env example rawError).
Proof.
  intros (Hwf & Hty & Hrw). unfold compilationFailedChecked, compilationFailed.
  rewrite (messageRead_wellTyped _ Hty).
  rewrite (assignChecked_rewritable _ _ _ Hrw).
  rewrite scrubEntriesChecked_rewritable by now apply assign_rewritable.
  change (fold_left step (entries ?e) ?e) with (scrubEntries env example e).
  rewrite collectLinesChecked_typed; [reflexivity|].
  rewrite scrubEntries_spec by now apply assign_wellFormed.
  exact (proj2 (scrubbedError_wellTyped env example _ Hty)).
Qed.

Lemma settledChecked_sound (outcome : option Thrown)
  (result : SnippetCompilationResult.t) :
  settledChecked env example outcome = Some result ->
  result = settled env example outcome.
Proof.
  destruct outcome as [rawError|]; cbn [settledChecked settled].
  - apply checked_sound.
  - now intros [= <-].
Qed.

Lemma settledChecked_ordinary (outcome : option Thrown) :
  (forall rawError, outcome = Some rawError -> ordinary (toError rawError)) ->
  settledChecked env example outcome = Some (settled env example outcome).
Proof.
  destruct outcome as [rawError|]; cbn [settledChecked settled]; intros H.
  - now apply checked_ordinary, H.
  - reflexivity.
Qed.

(** Where the branch throws itself. *)
Lemma checked_message_not_string (e : JsError) (tag : nat) :
  getProp K_message (properties e) = Some (VOther tag) ->
  compilationFailedChecked env example (ThrownError e) = None.
Proof.
  intros H. unfold compilationFailedChecked, messageRead. cbn [toError].
  now rewrite H.
Qed.

Lemma checked_message_read_only (e : JsError) (m : jsstring) :
  getProp K_message (properties e) = Some (VString m) ->
  existsb (Js.eqb K_message) (readOnly e) = true ->
  compilationFailedChecked env example (ThrownError e) = None.
Proof.
  intros H Hro. unfold compilationFailedChecked, messageRead, assignChecked.
  cbn [toError]. now rewrite H, Hro.
Qed.

End Handler.

(** On a [TSError] without [diagnosticText], and on one whose
    [diagnosticText] is not a string, the branch throws where it calls
    [split]. *)
Lemma checked_detail_missing :
  compilationFailedChecked Examples.env Examples.secondBlock
    (ThrownError Samples.bareError) = None
  /\ compilationFailedChecked Examples.env Examples.secondBlock
       (ThrownError Samples.codedError) = None.
Proof. split; reflexivity. Qed.

Lemma tsError_ordinary (fileName : jsstring) : ordinary (Examples.tsError fileName).
Proof.
  split; [|split].
  - unfold wellFormed. cbn [Examples.tsError properties map key].
    repeat constructor; cbn [In]; intuition discriminate.
  - split; [right; reflexivity | intros _; reflexivity].
  - now split.
Qed.

(** What the sample service throws is ordinary. *)
Lemma sample_handled (removeFault : nat -> option JsError)
  (packageInfoRead : Result JsError PackageDefinition) :
  handled (Examples.sampleEnv removeFault packageInfoRead).
Proof.
  intros code codeFile rawError. unfold outcomeOf.
  cbn [Examples.sampleEnv writeFileFault tsCompile]. unfold Examples.service.
  destruct (Js.eqb code Examples.badSnippet); [|discriminate].
  intros [= <-]. apply tsError_ordinary.
Qed.

End HandlerFacts.

(* ===================================================================== *)
(** ** Facts about the results *)
(* ===================================================================== *)

Module ResultFacts.
Import Js Rt SnippetCompiler Spec JsFacts CompilerFacts.

Lemma settled_file (env : Env) (example : CodeBlock.t) (outcome : option Thrown) :
  SnippetCompilationResult.file (settled env example outcome)
  = CodeBlock.file example.
Proof. now destruct outcome. Qed.

Lemma settled_index (env : Env) (example : CodeBlock.t) (outcome : option Thrown) :
  SnippetCompilationResult.index (settled env example outcome)
  = CodeBlock.index example.
Proof. now destruct outcome. Qed.

Lemma settled_snippet (env : Env) (example : CodeBlock.t) (outcome : option Thrown) :
  SnippetCompilationResult.snippet (settled env example outcome)
  = CodeBlock.snippet example.
Proof. now destruct outcome. Qed.

Lemma resultsFrom_map (env : Env) (wd : jsstring) {B}
  (f : SnippetCompilationResult.t -> B) (g : CodeBlock.t -> B) :
  (forall example outcome, f (settled env example outcome) = g example) ->
  forall k examples, map f (resultsFrom env wd k examples) = map g examples.
Proof.
  intros H k examples; revert k.
  induction examples as [|example rest IH]; intros k; simpl; [reflexivity|].
  now rewrite H, IH.
Qed.

Lemma resultsFrom_length (env : Env) (wd : jsstring) k examples :
  length (resultsFrom env wd k examples) = length examples.
Proof.
  revert k; induction examples as [|example rest IH]; intros k; simpl;
    [reflexivity | now rewrite IH].
Qed.

Lemma mapBlocks_keys (file : jsstring) (subst : jsstring -> jsstring) i blocks :
  map (fun b => (CodeBlock.file b, CodeBlock.index b))
      (mapBlocks file subst i blocks)
  = map (fun j => (file, j)) (seq (i + 1) (length blocks)).
Proof.
  revert i; induction blocks as [|b blocks IH]; intros i; simpl; [reflexivity|].
  f_equal. rewrite IH. now replace (S i + 1) with (S (i + 1)) by lia.
Qed.

Lemma mapBlocks_snippets (file : jsstring) (subst : jsstring -> jsstring) i blocks :
  map CodeBlock.snippet (mapBlocks file subst i blocks) = blocks.
Proof.
  revert i; induction blocks as [|b blocks IH]; intros i; simpl; [reflexivity|].
  now rewrite IH.
Qed.

Lemma mapBlocks_code (file : jsstring) (subst : jsstring -> jsstring) i blocks :
  map CodeBlock.sanitisedCode (mapBlocks file subst i blocks) = map subst blocks.
Proof.
  revert i; induction blocks as [|b blocks IH]; intros i; simpl; [reflexivity|].
  now rewrite IH.
Qed.

Lemma mapBlocks_file_snippet (file : jsstring) (subst : jsstring -> jsstring) i
  blocks :
  map (fun b => (CodeBlock.file b, CodeBlock.snippet b))
      (mapBlocks file subst i blocks)
  = map (fun b => (file, b)) blocks.
Proof.
  revert i; induction blocks as [|b blocks IH]; intros i; simpl; [reflexivity|].
  now rewrite IH.
Qed.

Lemma examplesOf_file_snippet (env : Env) pkg files blocks :
  map (fun b => (CodeBlock.file b, CodeBlock.snippet b))
      (examplesOf env pkg files blocks)
  = concat (map (fun fb => map (fun b => (fst fb, b)) (snd fb))
                (combine files blocks)).
Proof.
  unfold examplesOf. rewrite concat_map, map_map. f_equal.
  apply map_ext. intros [f bs]. apply mapBlocks_file_snippet.
Qed.

Lemma examplesOf_keys (env : Env) pkg files blocks :
  map (fun b => (CodeBlock.file b, CodeBlock.index b))
      (examplesOf env pkg files blocks)
  = concat (map (fun fb => keysOf (fst fb) (length (snd fb)))
                (combine files blocks)).
Proof.
  unfold examplesOf. rewrite concat_map, map_map. f_equal.
  apply map_ext. intros [f bs]. apply mapBlocks_keys.
Qed.

Lemma examplesOf_snippets (env : Env) pkg files blocks :
  length files = length blocks ->
  map CodeBlock.snippet (examplesOf env pkg files blocks) = concat blocks.
Proof.
  unfold examplesOf. rewrite concat_map, map_map. intros Hlen. f_equal.
  rewrite (map_ext _ snd) by (intros [f bs]; apply mapBlocks_snippets).
  revert blocks Hlen; induction files as [|f files IH]; intros [|bs blocks] Hlen;
    simpl in *; try discriminate; [reflexivity|].
  f_equal. apply IH. lia.
Qed.

Lemma extracted_length (env : Env) files blocks :
  extracted env files blocks -> length files = length blocks.
Proof. induction 1; simpl; [reflexivity | now f_equal]. Qed.

(** *** Two failures, worked through *)

(** With colours on, the label ends in an escape sequence, which stands
    between [Code Block 2] and the position; the lines are found because
    the pattern is applied to the text without its colours. *)
Lemma coloured_lines :
  let result := compilationFailed Examples.colourEnv Examples.secondBlock
                  (ThrownError (Examples.tsError Examples.tempFile)) in
  SnippetCompilationResult.linesWithErrors result = [Finite 5; Finite 2]
  /\ option_map (readString K_message) (SnippetCompilationResult.error result)
     = Some (str "Unable to compile TypeScript:" ++ [LF]
             ++ Examples.diagnostic
                  (Examples.ansiBlue Examples.readme ++ str " " ++ [ARROW] ++ str " "
                   ++ Examples.ansiCyan (str "Code Block 2"))).
Proof. vm_compute. split; reflexivity. Qed.

(** An error of the file system is not a [TSError]: it yields no line,
    its message names no file and stays, and its [path] becomes the
    label. *)
Lemma write_error_scrubbed :
  let result := compilationFailed Examples.env Examples.secondBlock
                  (ThrownError Examples.writeError) in
  SnippetCompilationResult.linesWithErrors result = []
  /\ option_map (readString K_message) (SnippetCompilationResult.error result)
     = Some (readString K_message Examples.writeError)
  /\ option_map (readString (str "path")) (SnippetCompilationResult.error result)
     = Some (label Examples.env Examples.secondBlock)
  /\ option_map (readString (str "code")) (SnippetCompilationResult.error result)
     = Some (str "ENOSPC").
Proof. vm_compute. repeat split; reflexivity. Qed.

End ResultFacts.

(* ===================================================================== *)
(** ** The order, the indices and the snippets of the results *)
(* ===================================================================== *)

Module OrderClaims.
Import Js Rt SnippetCompiler Spec JsFacts ScheduleFacts CompilerFacts ResultFacts.

(** C1. Whatever the order in which the concurrent extractions and
    compilations complete, a call of [compileSnippets] that fulfils
    returns the results in the order of the requested files and, within a
    file, in the order its blocks were extracted; under any other order
    of completion the call returns the very same list. *)
Theorem compileSnippets_order (env : Env) (wd : jsstring) (sE sC : Scheduler)
  (files : list jsstring) (st : State) (rs : list SnippetCompilationResult.t) :
  fst (compileSnippets env wd sE sC files st) = Ok rs ->
  (forall sE' sC' : Scheduler,
     fst (compileSnippets env wd sE' sC' files st) = Ok rs)
  /\ (forall order,
        Permutation order (seq 0 (length rs)) ->
        exists sC',
          completionOrder sC' (length rs) (seq 0 (length rs)) = order
          /\ fst (compileSnippets env wd sE sC' files st) = Ok rs)
  /\ exists blocks,
       extracted env files blocks
       /\ map (fun r => (SnippetCompilationResult.file r,
                         SnippetCompilationResult.snippet r)) rs
          = concat (map (fun fb => map (fun b => (fst fb, b)) (snd fb))
                        (combine files blocks)).
Proof.
  intros H.
  assert (Hall : forall sE' sC' : Scheduler,
             fst (compileSnippets env wd sE' sC' files st) = Ok rs).
  { apply compileSnippets_fulfils in H as (H1 & H2 & H3 & pkg & blocks & Hp & Hx & ->).
    intros sE' sC'. apply compileSnippets_fulfils. repeat split; try assumption.
    now exists pkg, blocks. }
  apply compileSnippets_fulfils in H as (H1 & H2 & H3 & pkg & blocks & Hp & Hx & ->).
  split; [exact Hall|]. split.
  - intros order Horder. exists (schedulerOf (length (resultsFrom env wd (reads st)
                                   (examplesOf env pkg files blocks))) order).
    split; [now apply every_order_scheduled | apply Hall].
  - exists blocks. split; [assumption|].
    rewrite (resultsFrom_map env wd _
               (fun b => (CodeBlock.file b, CodeBlock.snippet b))).
    + apply examplesOf_file_snippet.
    + intros example outcome. now rewrite settled_file, settled_snippet.
Qed.

Lemma compileSnippets_order_witness :
  (forall sE' sC' : Scheduler,
     fst (compileSnippets Examples.env Examples.workingDirectory sE' sC'
            Examples.requested Examples.start) = Ok Examples.results)
  /\ (forall order,
        Permutation order (seq 0 (length Examples.results)) ->
        exists sC',
          completionOrder sC' (length Examples.results)
                          (seq 0 (length Examples.results)) = order
          /\ fst (compileSnippets Examples.env Examples.workingDirectory
                    Examples.lifo sC' Examples.requested Examples.start)
             = Ok Examples.results)
  /\ exists blocks,
       extracted Examples.env Examples.requested blocks
       /\ map (fun r => (SnippetCompilationResult.file r,
                         SnippetCompilationResult.snippet r)) Examples.results
          = concat (map (fun fb => map (fun b => (fst fb, b)) (snd fb))
                        (combine Examples.requested blocks)).
Proof.
  apply (compileSnippets_order Examples.env Examples.workingDirectory
           Examples.lifo Examples.lifo Examples.requested Examples.start
           Examples.results).
  vm_compute. reflexivity.
Defined.



(** C6. The [snippet] of a result is the text of the block as the
    extractor returned it: in the success branch and in the failure
    branch, whatever the import localiser makes of the block (it only
    feeds [sanitisedCode], which is what is compiled); so the snippets
    of the results of a call are the extracted blocks, in order. *)
Theorem snippet_is_original (env : Env) :
  (forall example outcome,
     SnippetCompilationResult.snippet (settled env example outcome)
     = CodeBlock.snippet example)
  /\ (forall file (substituter : jsstring -> jsstring) i blocks,
        map CodeBlock.snippet (mapBlocks file substituter i blocks) = blocks
        /\ map CodeBlock.sanitisedCode (mapBlocks file substituter i blocks)
           = map substituter blocks)
  /\ (forall wd sE sC files st rs,
        fst (compileSnippets env wd sE sC files st) = Ok rs ->
        exists blocks,
          extracted env files blocks
          /\ map SnippetCompilationResult.snippet rs = concat blocks).
Proof.
  split; [|split].
  - apply settled_snippet.
  - intros file substituter i blocks. split;
      [apply mapBlocks_snippets | apply mapBlocks_code].
  - intros wd sE sC files st rs H.
    apply compileSnippets_fulfils in H as (_ & _ & _ & pkg & blocks & _ & Hx & ->).
    exists blocks. split; [assumption|].
    rewrite (resultsFrom_map env wd _ CodeBlock.snippet (settled_snippet env)).
    apply examplesOf_snippets. now apply extracted_length with (env := env).
Qed.

End OrderClaims.

(* ===================================================================== *)
(** ** Failures: what is captured, what propagates, what is cleaned up *)
(* ===================================================================== *)

Module FailureClaims.
Import Js Rt SnippetCompiler Spec Vocabulary JsFacts ObjectFacts ErrorFacts
  CompilerFacts ResultFacts HandlerFacts.

(** C2, as the code has it. Whatever [compile] throws for a block (a
    diagnostic of the TypeScript service, or the error of the write
    before it) becomes the [error] of that block's result, when it is a
    value the [catch] branch can rewrite: a value that is not an error
    object, or an error object that takes assignments and whose
    [message] and, for a [TSError], [diagnosticText] are strings. A
    result has no [error] exactly when nothing was thrown and
    [linesWithErrors] is empty. In a run in which all that is thrown is
    of that kind, a call fulfils with the results of all the blocks
    whenever nothing structural fails, every result being the one the
    branch returns for its block alone; and a call rejects only with the
    failure of a removal or of the creation of the working directory, of
    the reading of the package manifest, or of the extraction of a
    requested document. *)
Theorem compilation_failures_are_results (env : Env) (wd : jsstring) :
  (forall example rawError,
     ordinary (toError rawError) ->
     compilationFailedChecked env example rawError
     = Some (compilationFailed env example rawError)
     /\ exists error,
          SnippetCompilationResult.error (compilationFailed env example rawError)
          = Some error
          /\ ordinary error)
  /\ (forall example outcome result,
        settledChecked env example outcome = Some result ->
        (SnippetCompilationResult.error result = None
         <-> SnippetCompilationResult.linesWithErrors result = []
             /\ outcome = None))
  /\ (handled env ->
      forall sE sC files st pkg blocks,
        removeFault env (removes st) = None -> ensureDirFault env = None ->
        removeFault env (S (removes st)) = None ->
        packageInfoRead env = Ok pkg -> extracted env files blocks ->
        fst (compileSnippets env wd sE sC files st)
        = Ok (resultsFrom env wd (reads st) (examplesOf env pkg files blocks))
        /\ map (fun task =>
                  settledChecked env (fst task)
                    (outcomeOf env (CodeBlock.sanitisedCode (fst task)) (snd task)))
               (tasksFrom env wd (reads st) (examplesOf env pkg files blocks))
           = map Some
               (resultsFrom env wd (reads st) (examplesOf env pkg files blocks)))
  /\ (handled env ->
      forall sE sC files st rejection,
        fst (compileSnippets env wd sE sC files st) = Err rejection ->
        (cause rejection = WorkingDirectory
         /\ (removeFault env (removes st) = Some (reason rejection)
             \/ ensureDirFault env = Some (reason rejection)
             \/ removeFault env (S (removes st)) = Some (reason rejection)))
        \/ (cause rejection = PackageManifest
            /\ packageInfoRead env = Err (reason rejection))
        \/ (exists file, In file files /\ cause rejection = Document file
                         /\ extract env file = Err (reason rejection))).
Proof.
  split; [|split; [|split]].
  - intros example rawError Hord. split; [now apply checked_ordinary|].
    destruct Hord as (Hwf & Hty & Hrw).
    rewrite (compilationFailed_error env example rawError Hwf).
    eexists. split; [reflexivity|]. split; [|split].
    + now apply scrubbedError_wellFormed.
    + now apply scrubbedError_wellTyped.
    + exact Hrw.
  - intros example outcome result H.
    apply settledChecked_sound in H. subst result.
    destruct outcome as [rawError|]; simpl.
    + split; [discriminate | intros [_ H]; discriminate].
    + split; [now split | reflexivity].
  - intros Hhandled sE sC files st pkg blocks H1 H2 H3 Hp Hx. split.
    + apply compileSnippets_fulfils. repeat split; try assumption.
      now exists pkg, blocks.
    + generalize (reads st). generalize (examplesOf env pkg files blocks).
      intros examples. induction examples as [|example rest IH]; intros k;
        [reflexivity|].
      cbn [tasksFrom resultsFrom map fst snd]. rewrite IH. f_equal.
      apply settledChecked_ordinary. intros rawError Hraw.
      exact (Hhandled _ _ _ Hraw).
  - intros _ sE sC files st rejection H.
    pose proof (finally_run env wd sE sC files st) as Hf.
    pose proof (try_run env wd sE sC files st) as [_ Ht]. cbv zeta in *.
    destruct (removeFault env (S (removes st))) as [e2|].
    { destruct Hf as (Hf & _). rewrite Hf in H. injection H as <-.
      left. split; [reflexivity|]. now right; right. }
    destruct Hf as (Hf & _). rewrite Hf in H.
    destruct (removeFault env (removes st)) as [e1|].
    { destruct Ht as (Ht & _). rewrite Ht in H. injection H as <-.
      left. split; [reflexivity|]. now left. }
    destruct (ensureDirFault env) as [e3|].
    { destruct Ht as (Ht & _). rewrite Ht in H. injection H as <-.
      left. split; [reflexivity|]. now right; left. }
    destruct Ht as (_ & _ & Ht). rewrite H in Ht. now right.
Qed.

Lemma compilation_failures_are_results_witness :
  fst (compileSnippets Examples.env Examples.workingDirectory Examples.lifo
         Examples.fifo Examples.requested Examples.start)
  = Ok (resultsFrom Examples.env Examples.workingDirectory 0
          (examplesOf Examples.env (mkPackage (str "my-pkg") (str "index.ts"))
             Examples.requested
             [ [Examples.goodSnippet; Examples.badSnippet; Examples.goodSnippet];
               [];
               [Examples.goodSnippet; Examples.badSnippet; Examples.goodSnippet] ])).
Proof.
  destruct (compilation_failures_are_results Examples.env
              Examples.workingDirectory) as (_ & _ & H & _).
  apply (H (sample_handled _ _) Examples.lifo Examples.fifo Examples.requested
           Examples.start);
    try reflexivity.
  repeat constructor.
Defined.

(** The claim as the specification words it fails in two ways. Only a
    missing document or a failure on the working directory is to
    propagate: yet, in a run in which every document is there and the
    working directory never fails, the call rejects because the package
    manifest cannot be read. And every failure of the service is to be
    captured: yet, when the service throws a frozen error, the [catch]
    branch throws itself and no result is made of it. *)
Lemma manifest_failure_propagates :
  ((exists rejection,
      fst (compileSnippets Examples.noManifest Examples.workingDirectory
             Examples.fifo Examples.fifo [Examples.readme] Examples.start)
      = Err rejection
      /\ cause rejection = PackageManifest)
   /\ (exists blocks, extract Examples.noManifest Examples.readme = Ok blocks)
   /\ (forall k, removeFault Examples.noManifest k = None)
   /\ ensureDirFault Examples.noManifest = None)
  /\ compilationFailedChecked Examples.env Examples.secondBlock
       (ThrownError Samples.frozenError)
     = None.
Proof.
  split; [split; [|split; [|split]]|].
  - eexists. split; [vm_compute; reflexivity | reflexivity].
  - eexists. vm_compute. reflexivity.
  - reflexivity.
  - reflexivity.
  - reflexivity.
Qed.

(** C5, as the code has it. In every call the working directory is
    acted upon first by a removal and last by a removal, on every path;
    files are written and compiled only after a removal and a creation
    that both succeeded; when the last removal succeeds (as it has
    whenever the call fulfils) the directory is gone when the call
    completes; when it fails, the call rejects with that failure. *)
Theorem working_directory_cleanup (env : Env) (wd : jsstring) (sE sC : Scheduler)
  (files : list jsstring) (st : State) :
  let out := compileSnippets env wd sE sC files st in
  (exists middle,
     log (snd out)
     = log st ++ EvRemove (isNone (removeFault env (removes st)))
              :: middle
              ++ [EvRemove (isNone (removeFault env (S (removes st))))]
     /\ ((removeFault env (removes st) <> None /\ middle = [])
         \/ (removeFault env (removes st) = None /\ ensureDirFault env <> None
             /\ middle = [EvEnsureDir false])
         \/ (removeFault env (removes st) = None /\ ensureDirFault env = None
             /\ exists evs, middle = EvEnsureDir true :: evs /\ compileEvents evs)))
  /\ (removeFault env (S (removes st)) = None -> fs (snd out) = mkFS false [])
  /\ (forall rs, fst out = Ok rs -> present (fs (snd out)) = false)
  /\ (forall e, removeFault env (S (removes st)) = Some e ->
                fst out = Err (mkRejection WorkingDirectory e)).
Proof.
  cbv zeta.
  pose proof (finally_run env wd sE sC files st) as Hf.
  pose proof (try_run env wd sE sC files st) as [_ Ht]. cbv zeta in *.
  assert (Hmid : exists middle,
    log (snd (compileSnippetsTry env wd sE sC files st))
    = log st ++ EvRemove (isNone (removeFault env (removes st))) :: middle
    /\ ((removeFault env (removes st) <> None /\ middle = [])
        \/ (removeFault env (removes st) = None /\ ensureDirFault env <> None
            /\ middle = [EvEnsureDir false])
        \/ (removeFault env (removes st) = None /\ ensureDirFault env = None
            /\ exists evs, middle = EvEnsureDir true :: evs /\ compileEvents evs))).
  { destruct (removeFault env (removes st)) as [e1|].
    - destruct Ht as (_ & Hl & _). exists []. split; [exact Hl|].
      left. split; [discriminate | reflexivity].
    - destruct (ensureDirFault env) as [e3|].
      + destruct Ht as (_ & Hl & _). exists [EvEnsureDir false].
        split; [exact Hl|]. right; left. repeat split. discriminate.
      + destruct Ht as (_ & (evs & Hl & Hevs) & _).
        exists (EvEnsureDir true :: evs). split; [exact Hl|].
        right; right. repeat split. now exists evs. }
  destruct Hmid as (middle & Hlog & Hshape).
  destruct (removeFault env (S (removes st))) as [e2|].
  - destruct Hf as (Hres & _ & Hl). split; [|split; [|split]].
    + exists middle. split; [|exact Hshape].
      rewrite Hl, Hlog, <- app_assoc. reflexivity.
    + discriminate.
    + intros rs H. congruence.
    + intros e [= <-]. exact Hres.
  - destruct Hf as (Hres & Hfs & Hl). split; [|split; [|split]].
    + exists middle. split; [|exact Hshape].
      rewrite Hl, Hlog, <- app_assoc. reflexivity.
    + intros _. exact Hfs.
    + intros rs _. now rewrite Hfs.
    + discriminate.
Qed.

Lemma working_directory_cleanup_witness :
  fs (snd (compileSnippets Examples.env Examples.workingDirectory Examples.lifo
             Examples.fifo Examples.requested Examples.start))
  = mkFS false [].
Proof.
  destruct (working_directory_cleanup Examples.env Examples.workingDirectory
              Examples.lifo Examples.fifo Examples.requested Examples.start)
    as (_ & H & _).
  apply H. reflexivity.
Defined.

(** The claim as the specification words it (the call never completes
    with the scratch directory still present) fails when the removal
    that ends the run fails: the call rejects and the directory, which
    the run had created, is still there. *)
Lemma directory_left_behind :
  let out := compileSnippets Examples.busy Examples.workingDirectory
               Examples.fifo Examples.fifo [Examples.readme] Examples.start in
  present (fs (snd out)) = true
  /\ exists e, fst out = Err (mkRejection WorkingDirectory e).
Proof.
  cbv zeta. split; [vm_compute; reflexivity|].
  eexists. vm_compute. reflexivity.
Qed.

End FailureClaims.

(* ===================================================================== *)
(** ** Line numbers of a diagnostic *)
(* ===================================================================== *)

Module DiagnosticClaims.
Import Js Rt SnippetCompiler Spec Vocabulary JsFacts PatternFacts ObjectFacts
  ScrubFacts HandlerFacts.

Lemma matchLineReference_eq (s : jsstring) :
  matchLineReference s
  = match ttyReference s with
    | Some g => Some (Some g, None)
    | None =>
        match nonTtyReference s with
        | Some g => Some (None, Some g)
        | None =>
            match s with
            | [] => None
            | _ :: s' => matchLineReference s'
            end
        end
    end.
Proof. destruct s; reflexivity. Qed.

Lemma ttyReference_head c (s : jsstring) : c <> 67%N -> ttyReference (c :: s) = None.
Proof.
  intros Hc. unfold ttyReference.
  change CODE_BLOCK with (67%N :: str "ode Block ").
  cbn [stripPrefix]. destruct (N.eqb_spec 67 c) as [<-|_]; [contradiction|reflexivity].
Qed.

Lemma nonTtyReference_head c (s : jsstring) :
  c <> 40%N -> nonTtyReference (c :: s) = None.
Proof.
  intros Hc. unfold nonTtyReference. cbn [stripPrefix].
  destruct (N.eqb_spec 40 c) as [<-|_]; [contradiction|reflexivity].
Qed.

Lemma matchLineReference_skip (pre s : jsstring) :
  noReferenceBefore pre s = true ->
  matchLineReference (pre ++ s) = matchLineReference s.
Proof.
  induction pre as [|c pre IH]; [reflexivity|].
  cbn [noReferenceBefore]. intros H.
  apply andb_true_iff in H as [H H3]. apply andb_true_iff in H as [H1 H2].
  rewrite matchLineReference_eq.
  destruct (ttyReference ((c :: pre) ++ s)); [discriminate|].
  destruct (nonTtyReference ((c :: pre) ++ s)); [discriminate|].
  now apply IH.
Qed.

Lemma ttyReference_at (dn dl dc rest : jsstring) :
  dn <> [] -> allDigits dn -> dl <> [] -> allDigits dl ->
  dc <> [] -> allDigits dc -> startsWithDigit rest = false ->
  ttyReference (CODE_BLOCK ++ dn ++ [COLON] ++ dl ++ [COLON] ++ dc ++ rest)
  = Some dl.
Proof.
  intros Hn1 Hn2 Hl1 Hl2 Hc1 Hc2 Hrest. unfold ttyReference.
  rewrite stripPrefix_app.
  rewrite digits1_app by (assumption || reflexivity). rewrite stripPrefix_app.
  rewrite digits1_app by (assumption || reflexivity). rewrite stripPrefix_app.
  now rewrite (digits1_app dc rest Hc1 Hc2 Hrest).
Qed.

Lemma nonTtyReference_at (dl dc rest : jsstring) :
  dl <> [] -> allDigits dl -> dc <> [] -> allDigits dc ->
  nonTtyReference ([40%N] ++ dl ++ [44%N] ++ dc ++ [41%N] ++ rest) = Some dl.
Proof.
  intros Hl1 Hl2 Hc1 Hc2. unfold nonTtyReference.
  rewrite stripPrefix_app.
  rewrite digits1_app by (assumption || reflexivity). rewrite stripPrefix_app.
  rewrite digits1_app by (assumption || reflexivity). rewrite stripPrefix_app.
  reflexivity.
Qed.

Lemma filter_sorted (f : number -> bool) (l : list number) :
  StronglySorted numberLt l -> StronglySorted numberLt (filter f l).
Proof.
  induction 1 as [|x l Hs IH Hall]; simpl; [constructor|].
  destruct (f x); [|assumption]. constructor; [assumption|].
  apply Forall_forall. intros y Hy. apply filter_In in Hy as [Hy _].
  rewrite Forall_forall in Hall. now apply Hall.
Qed.

Lemma dedupFirst_sorted (l : list number) :
  StronglySorted numberLe l -> ascending (dedupFirst l).
Proof.
  unfold ascending. induction 1 as [|x l Hs IH Hall]; simpl; constructor.
  - now apply filter_sorted.
  - apply Forall_forall. intros y Hy. apply filter_In in Hy as [Hy Hne].
    apply (proj1 (dedupFirst_In l y)) in Hy. rewrite Forall_forall in Hall.
    destruct (Hall y Hy) as [<-|Hlt]; [|exact Hlt].
    now rewrite sameNumber_refl in Hne.
Qed.

(** C3, as the code has it. For every failed compilation of which the
    [catch] branch makes a result, [linesWithErrors] holds, without
    repetition and in the order in which they first occur, the line
    numbers that the lines of the error's [diagnosticText], a string,
    refer to (one reference per line of the text, the leftmost), and
    nothing when the error is not a [TSError]; a reference is recognised
    in both formats, [Code Block N:LINE:COL] and [(LINE,COL)], and read
    as the number LINE, which is LINE itself below 2^53; the field is
    ascending when the text lists its references in ascending order. *)
Theorem lines_with_errors (env : Env) (example : CodeBlock.t) (rawError : Thrown) :
  (forall result,
     compilationFailedChecked env example rawError = Some result ->
     exists error,
       SnippetCompilationResult.error result = Some error
       /\ (instanceofTSError error = true ->
           exists text,
             getProp K_diagnosticText (properties error) = Some (VString text)
             /\ SnippetCompilationResult.linesWithErrors result
                = dedupFirst (referencedLines env text)
             /\ (StronglySorted numberLe (referencedLines env text) ->
                 ascending (SnippetCompilationResult.linesWithErrors result)))
       /\ (instanceofTSError error = false ->
           SnippetCompilationResult.linesWithErrors result = [])
       /\ NoDup (SnippetCompilationResult.linesWithErrors result))
  /\ (forall pre block line column rest,
        (line < 2 ^ 53)%N ->
        noReferenceBefore pre
          (CODE_BLOCK ++ toString block ++ [COLON] ++ toString line ++ [COLON]
           ++ toString column ++ rest) = true ->
        startsWithDigit rest = false ->
        lineNumberOf (pre ++ CODE_BLOCK ++ toString block ++ [COLON]
                          ++ toString line ++ [COLON] ++ toString column ++ rest)
        = Some (Finite line))
  /\ (forall pre line column rest,
        (line < 2 ^ 53)%N ->
        noReferenceBefore pre
          ([40%N] ++ toString line ++ [44%N] ++ toString column ++ [41%N] ++ rest)
        = true ->
        lineNumberOf (pre ++ [40%N] ++ toString line ++ [44%N]
                          ++ toString column ++ [41%N] ++ rest)
        = Some (Finite line)).
Proof.
  split; [|split].
  - intros result Hresult.
    unfold compilationFailedChecked in Hresult.
    destruct (messageRead (toError rawError)) as [m|]; [|discriminate].
    destruct (assignChecked K_message _ (toError rawError)) as [e1|];
      [|discriminate].
    destruct (scrubEntriesChecked env example _ e1) as [e2|]; [|discriminate].
    destruct (collectLinesChecked env e2) as [lines|] eqn:Hlines; [|discriminate].
    injection Hresult as <-. cbn [SnippetCompilationResult.error
      SnippetCompilationResult.linesWithErrors].
    exists e2. split; [reflexivity|].
    pose proof (collectLinesChecked_sound env e2 lines Hlines) as El.
    rewrite collectLines_spec in El.
    unfold collectLinesChecked, diagnosticTextRead in Hlines.
    split; [|split].
    + intros Hts. rewrite Hts in *.
      destruct (getProp K_diagnosticText (properties e2)) as [[text|tag]|] eqn:Hg;
        [|discriminate|discriminate].
      exists text. split; [reflexivity|].
      unfold readString in El. rewrite Hg in El. subst lines.
      split; [reflexivity | apply dedupFirst_sorted].
    + intros Hts. now rewrite Hts in El.
    + subst lines. destruct (instanceofTSError e2);
        [apply dedupFirst_NoDup | constructor].
  - intros pre block line column rest Hline Hpre Hrest. unfold lineNumberOf.
    rewrite (matchLineReference_skip pre _ Hpre), matchLineReference_eq.
    rewrite ttyReference_at;
      try apply toString_nonempty; try apply toString_digits; try assumption.
    now rewrite parseInt_toString.
  - intros pre line column rest Hline Hpre. unfold lineNumberOf.
    rewrite (matchLineReference_skip pre _ Hpre), matchLineReference_eq.
    assert (Ht : forall x, ttyReference ([40%N] ++ x) = None)
      by (intros x; apply ttyReference_head; discriminate).
    rewrite Ht, nonTtyReference_at;
      try apply toString_nonempty; try apply toString_digits.
    now rewrite parseInt_toString.
Qed.

Lemma lines_with_errors_witness :
  lineNumberOf (str "README.md " ++ [ARROW] ++ str " "
                ++ CODE_BLOCK ++ toString 2 ++ [COLON] ++ toString 5 ++ [COLON]
                ++ toString 1 ++ str " - error TS2307: Cannot find module.")
  = Some (Finite 5)
  /\ lineNumberOf (str "README.md " ++ [ARROW] ++ str " Code Block 2"
                   ++ [40%N] ++ toString 5 ++ [44%N] ++ toString 1 ++ [41%N]
                   ++ str ": error TS2307: Cannot find module.")
     = Some (Finite 5).
Proof.
  destruct (lines_with_errors Examples.env Examples.secondBlock
              (ThrownError (Examples.tsError Examples.tempFile)))
    as (_ & Htty & HnonTty).
  split.
  - apply (Htty (str "README.md " ++ [ARROW] ++ str " ") 2%N 5%N 1%N
             (str " - error TS2307: Cannot find module."));
      [reflexivity | | reflexivity].
    vm_compute. reflexivity.
  - apply (HnonTty (str "README.md " ++ [ARROW] ++ str " Code Block 2") 5%N 1%N
             (str ": error TS2307: Cannot find module.")); [reflexivity|].
    vm_compute. reflexivity.
Defined.

(** The claim as the specification words it (the field is an ascending
    sequence) fails on a diagnostic that reports line 5 before line 2:
    the field is [5; 2]. *)
Lemma lines_not_ascending :
  SnippetCompilationResult.linesWithErrors
    (compilationFailed Examples.env Examples.secondBlock
       (ThrownError (Examples.tsError Examples.tempFile)))
  = [Finite 5; Finite 2]
  /\ compilationFailedChecked Examples.env Examples.secondBlock
       (ThrownError (Examples.tsError Examples.tempFile))
     = Some (compilationFailed Examples.env Examples.secondBlock
               (ThrownError (Examples.tsError Examples.tempFile)))
  /\ ~ ascending
         (SnippetCompilationResult.linesWithErrors
            (compilationFailed Examples.env Examples.secondBlock
               (ThrownError (Examples.tsError Examples.tempFile)))).
Proof.
  assert (E : SnippetCompilationResult.linesWithErrors
                (compilationFailed Examples.env Examples.secondBlock
                   (ThrownError (Examples.tsError Examples.tempFile)))
              = [Finite 5; Finite 2]) by (vm_compute; reflexivity).
  split; [exact E|]. split; [apply checked_ordinary, tsError_ordinary|].
  rewrite E. unfold ascending. intros H.
  inversion H as [|? ? _ Hall]; subst. inversion Hall as [|? ? Hlt _]; subst.
  simpl in Hlt. lia.
Qed.

End DiagnosticClaims.

(* ===================================================================== *)
(** ** Scrubbed diagnostics *)
(* ===================================================================== *)

Module ScrubClaims.
Import Js Rt SnippetCompiler Spec Vocabulary JsFacts PatternFacts ObjectFacts
  ScrubFacts ErrorFacts HandlerFacts.

(** C4, as the code has it. For every failed compilation of which the
    [catch] branch makes a result, the error's [message] and every own
    enumerable property holding a string are rewritten by one global
    replacement of the pattern. Into a text with a temporary file
    reference the replacement puts the label [<file> -> Code Block
    <index>] (so the document name and the block index, as chalk renders
    them), provided the label has no [$], which [replace] would expand;
    and, provided also that the label opens no reference itself, it
    leaves no [/compiled-docs/block-<digits>.ts] behind. *)
Theorem temporary_paths_scrubbed (env : Env) (example : CodeBlock.t) :
  (forall rawError result,
     compilationFailedChecked env example rawError = Some result ->
     wellFormed (toError rawError) ->
     exists error,
       SnippetCompilationResult.error result = Some error
       /\ (forall m,
             In (mkProperty K_message false (VString m))
                (properties (toError rawError)) ->
             readString K_message error = removeTemporaryFilePaths env m example)
       /\ (forall k s,
             In (mkProperty k true (VString s)) (properties (toError rawError)) ->
             k <> K_message ->
             In (mkProperty k true
                   (VString (removeTemporaryFilePaths env s example)))
                (properties error)))
  /\ (~ In DOLLAR (label env example) ->
      forall s,
        hasBlockFile s ->
        isInfix (label env example) (removeTemporaryFilePaths env s example)
        /\ isInfix (blue env (CodeBlock.file example))
                   (removeTemporaryFilePaths env s example)
        /\ isInfix (cyan env (CODE_BLOCK
                              ++ toString (N.of_nat (CodeBlock.index example))))
                   (removeTemporaryFilePaths env s example))
  /\ (~ In DOLLAR (label env example) ->
      opensBlockFile (label env example) = false ->
      forall s, ~ hasBlockFile (removeTemporaryFilePaths env s example)).
Proof.
  split; [|split].
  - intros rawError result Hresult Hwf.
    apply checked_sound in Hresult. subst result.
    rewrite (compilationFailed_error env example rawError Hwf).
    eexists. split; [reflexivity|]. split.
    + intros m. now apply scrubbedError_message.
    + intros k s Hin Hk.
      exact (scrubbedError_property env example (toError rawError) _ Hin Hk).
  - intros Hd s Hs.
    pose proof (replaceAll_has_label (label env example) s Hd Hs []) as H.
    fold (removeTemporaryFilePaths env s example) in H.
    split; [exact H|]. split; (eapply isInfix_trans; [|exact H]); unfold label.
    + apply isInfix_app_l, isInfix_refl.
    + do 4 apply isInfix_app_r. apply isInfix_refl.
  - intros Hd Ho s. now apply replaceAll_clean.
Qed.

Lemma temporary_paths_scrubbed_witness :
  isInfix (str "README.md " ++ [ARROW] ++ str " Code Block 2")
          (removeTemporaryFilePaths Examples.env Examples.ttyLine
             Examples.secondBlock)
  /\ ~ hasBlockFile (removeTemporaryFilePaths Examples.env Examples.ttyLine
                       Examples.secondBlock).
Proof.
  destruct (temporary_paths_scrubbed Examples.env Examples.secondBlock)
    as (_ & Hlabel & Hclean).
  assert (Hd : ~ In DOLLAR (label Examples.env Examples.secondBlock)).
  { vm_compute. intuition discriminate. }
  split.
  - apply (Hlabel Hd Examples.ttyLine).
    exists (str "/repo"), (COMPILED_DOCS_BLOCK ++ str "1007" ++ DOT_TS),
      (str ":5:1 - error TS2307: Cannot find module './block-helpers'.").
    split; [reflexivity|]. exists (str "1007").
    repeat split; [discriminate | repeat constructor].
  - apply (Hclean Hd). vm_compute. reflexivity.
Defined.

(** The claim as the specification words it fails on four counts. The
    error text is to hold no [block-]: the message of a diagnostic that
    quotes the module [./block-helpers] keeps it (and holds the name of
    the document and the index of the block, the label having replaced
    the temporary path). Every property holding a string is to be
    rewritten: the detail text of an error that keeps it out of its
    enumerable properties still names the temporary file. The error
    text is to hold the name of the document: an error that names no
    temporary file does not receive it; nor does a diagnostic that names
    the temporary file relative to the current directory, without a
    slash before [compiled-docs], which keeps the name of the file
    instead. *)
Lemma block_prefix_survives :
  (exists error,
     SnippetCompilationResult.error
       (compilationFailed Examples.env Examples.secondBlock
          (ThrownError (Examples.tsError Examples.tempFile)))
     = Some error
     /\ includes (str "README.md") (readString K_message error) = true
     /\ includes (str "Code Block 2") (readString K_message error) = true
     /\ includes (str "block-") (readString K_message error) = true)
  /\ (exists error,
        SnippetCompilationResult.error
          (compilationFailed Examples.env Examples.secondBlock
             (ThrownError (Samples.quietError Examples.tempFile)))
        = Some error
        /\ includes (str "/compiled-docs/block-1007.ts")
                    (readString K_diagnosticText error) = true)
  /\ (exists error,
        SnippetCompilationResult.error
          (compilationFailed Examples.env Examples.secondBlock
             (ThrownValue (str "out of memory")))
        = Some error
        /\ readString K_message error = str "out of memory"
        /\ includes (str "README.md") (readString K_message error) = false)
  /\ (exists error,
        SnippetCompilationResult.error
          (compilationFailed Examples.env Examples.secondBlock
             (ThrownError (Examples.tsError Samples.relativeFile)))
        = Some error
        /\ includes (str "compiled-docs/block-1007.ts")
                    (readString K_message error) = true
        /\ includes (str "README.md") (readString K_message error) = false)
  /\ (forall rawError,
        In rawError [ThrownError (Examples.tsError Examples.tempFile);
                     ThrownError (Samples.quietError Examples.tempFile);
                     ThrownValue (str "out of memory");
                     ThrownError (Examples.tsError Samples.relativeFile)] ->
        compilationFailedChecked Examples.env Examples.secondBlock rawError
        = Some (compilationFailed Examples.env Examples.secondBlock rawError)).
Proof.
  split; [|split; [|split; [|split]]].
  - eexists. split; [reflexivity|]. repeat split; vm_compute; reflexivity.
  - eexists. split; [reflexivity|]. vm_compute. reflexivity.
  - eexists. split; [reflexivity|]. repeat split; vm_compute; reflexivity.
  - eexists. split; [reflexivity|]. repeat split; vm_compute; reflexivity.
  - intros rawError [<-|[<-|[<-|[<-|[]]]]]; reflexivity.
Qed.

End ScrubClaims.

(* ===================================================================== *)
(** ** Temporary file names and entry points *)
(* ===================================================================== *)

Module NameClaims.
Import Js Rt SnippetCompiler Spec JsFacts CompilerFacts.

Lemma tempFileName_inj (a b : jsstring) : tempFileName a = tempFileName b -> a = b.
Proof.
  unfold tempFileName. intros H. apply app_inv_head in H.
  now apply app_inv_tail in H.
Qed.

Lemma tasksFrom_fst (env : Env) (wd : jsstring) k examples :
  map fst (tasksFrom env wd k examples) = examples.
Proof.
  revert k; induction examples as [|example rest IH]; intros k; simpl;
    [reflexivity | now rewrite IH].
Qed.

Lemma tasksFrom_snd (env : Env) (wd : jsstring) k examples :
  map snd (tasksFrom env wd k examples)
  = map (fun i => pathJoin env wd (tempNameAt env i)) (seq k (length examples)).
Proof.
  revert k; induction examples as [|example rest IH]; intros k; simpl;
    [reflexivity | now rewrite IH].
Qed.

Lemma NoDup_map_iff {A B} (f : A -> B) (l : list A) :
  (forall a b, f a = f b -> a = b) -> NoDup (map f l) <-> NoDup l.
Proof.
  intros Hinj. split; [apply NoDup_map_inv|].
  induction 1 as [|x l Hx Hl IH]; simpl; constructor; [|exact IH].
  intros Hin. apply in_map_iff in Hin as (y & Hy & Hin).
  apply Hinj in Hy. now subst.
Qed.

(** C9. The blocks compiled in one run receive file names
    [block-<id>.ts] whose [id] is the decimal text of a reading of the
    clock, one reading for each block, taken in the order of the blocks
    before anything is written. Two names are the same exactly when the
    two readings are: the names of a run are pairwise distinct if and
    only if its readings are. Whatever the order of completion, the files
    written are the files of the tasks, each once for each task. And
    where joining such a name to the working directory keeps different
    readings apart, the paths, and so the files written, are pairwise
    distinct if and only if the readings are: then no two compilations
    write to the same file. *)
Theorem temporary_names_distinct (env : Env) (wd : jsstring)
  (examples : list CodeBlock.t) (st : State) :
  let started := mapSync (testCodeCompilationStart env wd) examples st in
  let readings := map (hrtime env) (seq (reads st) (length examples)) in
  map fst (fst started) = examples
  /\ map snd (fst started)
     = map (fun id => pathJoin env wd (tempFileName (toString id))) readings
  /\ (NoDup (map (fun id => tempFileName (toString id)) readings)
      <-> NoDup readings)
  /\ (forall sC : Scheduler,
        exists evs,
          log (snd (promiseAll sC
                      (map (testCodeCompilationResume env) (fst started))
                      (snd started)))
          = log st ++ evs
          /\ Permutation (writtenPaths evs) (map snd (fst started)))
  /\ ((forall a b : N,
         pathJoin env wd (tempFileName (toString a))
         = pathJoin env wd (tempFileName (toString b)) -> a = b)
      -> (NoDup (map snd (fst started)) <-> NoDup readings)
         /\ forall evs,
              Permutation (writtenPaths evs) (map snd (fst started)) ->
              (NoDup (writtenPaths evs) <-> NoDup readings)).
Proof.
  cbv zeta. rewrite mapSync_start. cbn [fst snd].
  rewrite tasksFrom_fst, tasksFrom_snd. split; [reflexivity|].
  assert (Hpaths : map (fun i => pathJoin env wd (tempNameAt env i))
                       (seq (reads st) (length examples))
                   = map (fun id => pathJoin env wd (tempFileName (toString id)))
                         (map (hrtime env) (seq (reads st) (length examples))))
    by now rewrite map_map.
  split; [exact Hpaths|]. split.
  - apply NoDup_map_iff. intros a b E.
    now apply tempFileName_inj, toString_inj in E.
  - split.
    + intros sC.
      destruct (compileAll_writes env sC (tasksFrom env wd (reads st) examples)
                  (mkState (fs st) (removes st) (reads st + length examples) (log st)))
        as (evs & Hlog & Hperm).
      rewrite tasksFrom_snd in Hperm. exists evs. now split.
    + intros Hjoin.
      assert (Hnd : NoDup (map (fun i => pathJoin env wd (tempNameAt env i))
                               (seq (reads st) (length examples)))
                    <-> NoDup (map (hrtime env) (seq (reads st) (length examples)))).
      { rewrite Hpaths. now apply NoDup_map_iff. }
      split; [exact Hnd|]. intros evs Hperm. rewrite <- Hnd.
      split; intros H.
      * apply (Permutation_NoDup Hperm H).
      * apply (Permutation_NoDup (Permutation_sym Hperm) H).
Qed.

Lemma temporary_names_distinct_witness :
  let examples := examplesOf Examples.env (mkPackage (str "my-pkg") (str "index.ts"))
                    [Examples.readme]
                    [[Examples.goodSnippet; Examples.badSnippet; Examples.goodSnippet]] in
  let started := mapSync (testCodeCompilationStart Examples.env
                            Examples.workingDirectory) examples Examples.start in
  map snd (fst started)
  = [str "/repo/compiled-docs/block-1000.ts"; str "/repo/compiled-docs/block-1007.ts";
     str "/repo/compiled-docs/block-1014.ts"]
  /\ NoDup (map snd (fst started)).
Proof.
  cbv zeta.
  destruct (temporary_names_distinct Examples.env Examples.workingDirectory
              (examplesOf Examples.env (mkPackage (str "my-pkg") (str "index.ts"))
                 [Examples.readme]
                 [[Examples.goodSnippet; Examples.badSnippet; Examples.goodSnippet]])
              Examples.start) as (_ & H2 & _ & _ & H5).
  split; [exact H2|]. apply H5.
  - intros a b E.
    unfold Examples.env, Examples.sampleEnv, pathJoin, Examples.posixJoin in E.
    apply app_inv_head in E. apply app_inv_head in E.
    now apply tempFileName_inj, toString_inj in E.
  - cbn. repeat constructor; cbn [In]; intuition discriminate.
Defined.

(** C9, as stated, fails: the name is made of the reading of the clock
    and of nothing else, and the clock promises only not to run
    backwards. On a clock that gives the same reading three times the
    three blocks of the document receive the same path, the three tasks
    write to that one file in turn, and the call fulfils with its three
    results. *)
Lemma same_reading_same_file :
  let examples := examplesOf Samples.coarseClock
                    (mkPackage (str "my-pkg") (str "index.ts"))
                    [Examples.readme]
                    [[Examples.goodSnippet; Examples.badSnippet; Examples.goodSnippet]] in
  let started := mapSync (testCodeCompilationStart Samples.coarseClock
                            Examples.workingDirectory) examples Examples.start in
  let run := compileSnippets Samples.coarseClock Examples.workingDirectory
               Examples.fifo Examples.fifo [Examples.readme] Examples.start in
  map CodeBlock.index examples = [1; 2; 3]
  /\ map snd (fst started)
     = [str "/repo/compiled-docs/block-1000.ts"; str "/repo/compiled-docs/block-1000.ts";
        str "/repo/compiled-docs/block-1000.ts"]
  /\ ~ NoDup (map snd (fst started))
  /\ (exists results, fst run = Ok results /\ length results = 3)
  /\ writtenPaths (log (snd run))
     = [str "/repo/compiled-docs/block-1000.ts"; str "/repo/compiled-docs/block-1000.ts";
        str "/repo/compiled-docs/block-1000.ts"].
Proof.
  cbv zeta. split; [reflexivity|]. split; [reflexivity|]. split.
  - intros H. vm_compute in H. inversion H as [|x l Hin _]. apply Hin. now left.
  - split; [|vm_compute; reflexivity].
    eexists. split; [vm_compute; reflexivity | reflexivity].
Qed.

(** C10. The Bluebird entry point of [src/index.ts] and the native
    promise entry point of [src/unnamed/part_000] settle in the same way
    on every argument: both take [README.md] alone when the argument is
    left out, wrap a single path in a one-element list and pass a list on
    unchanged, build the working directory as [compiled-docs] under the
    current directory, and hand both to
    [SnippetCompiler.compileSnippets]. *)
Theorem entry_points_agree (R : Type) (pathJoin : jsstring -> jsstring -> jsstring)
  (cwd : jsstring) (snippetCompiler : jsstring -> list jsstring -> M R)
  (markdownFileOrFiles : FileOrFiles) (st : State) :
  @Index.compileSnippets R pathJoin cwd snippetCompiler markdownFileOrFiles st
  = @Part000.compileSnippets R pathJoin cwd snippetCompiler markdownFileOrFiles st
  /\ @Index.compileSnippets R pathJoin cwd snippetCompiler markdownFileOrFiles st
     = snippetCompiler (pathJoin cwd (str "compiled-docs"))
                       (requestedFiles markdownFileOrFiles) st
  /\ requestedFiles None = [str "README.md"]
  /\ (forall file, requestedFiles (Some (inr file)) = [file])
  /\ (forall files, requestedFiles (Some (inl files)) = files)
  /\ (forall env sE sC,
        @Index.compileSnippets _ pathJoin cwd
          (fun wd files => compileSnippets env wd sE sC files) markdownFileOrFiles st
        = @Part000.compileSnippets _ pathJoin cwd
            (fun wd files => compileSnippets env wd sE sC files) markdownFileOrFiles st).
Proof.
  repeat split; destruct markdownFileOrFiles as [[files|file]|]; reflexivity.
Qed.

End NameClaims.

(* ===================================================================== *)
(** ** Import localisation *)
(* ===================================================================== *)

Module LocaliserClaims.
Import Js SnippetCompiler LocalImportSubstituter JsFacts.

Lemma render_import (before : jsstring) (quote : char) (specifier after : jsstring) :
  render [Text before; ImportSpecifier quote specifier; Text after]
  = before ++ quote :: specifier ++ [quote] ++ after.
Proof.
  unfold render. cbn [map renderPiece concat].
  rewrite app_nil_r. cbn [app]. now rewrite <- app_assoc.
Qed.

Section Localise.
Variable packageName localEntryPoint : jsstring.
Variable resolveSubPath : jsstring -> jsstring.

Local Abbreviation localise := (localise packageName localEntryPoint resolveSubPath).
Local Abbreviation substitutePiece :=
  (substitutePiece packageName localEntryPoint resolveSubPath).
Local Abbreviation localised := (localised packageName localEntryPoint resolveSubPath).

Lemma longer_than_name (x : char) (y : jsstring) :
  packageName ++ x :: y <> packageName.
Proof.
  intros E. apply (f_equal (@length _)) in E.
  rewrite length_app in E. simpl in E. lia.
Qed.

Lemma localise_name : localise packageName = Some localEntryPoint.
Proof. unfold LocalImportSubstituter.localise. now rewrite eqb_refl. Qed.

Lemma localise_subPath (subPath : jsstring) :
  localise (packageName ++ [47%N] ++ subPath) = Some (resolveSubPath subPath).
Proof.
  unfold LocalImportSubstituter.localise.
  destruct (Js.eqb (packageName ++ [47%N] ++ subPath) packageName) eqn:E.
  - apply eqb_eq in E. now apply longer_than_name in E.
  - now rewrite app_assoc, stripPrefix_app.
Qed.

Lemma localise_Some (specifier target : jsstring) :
  localise specifier = Some target ->
  (specifier = packageName /\ target = localEntryPoint)
  \/ exists subPath, specifier = packageName ++ [47%N] ++ subPath
                     /\ target = resolveSubPath subPath.
Proof.
  unfold LocalImportSubstituter.localise.
  destruct (Js.eqb specifier packageName) eqn:E.
  - intros [= <-]. left. split; [now apply eqb_eq | reflexivity].
  - destruct (stripPrefix (packageName ++ [47%N]) specifier) as [subPath|] eqn:Es;
      [|discriminate].
    intros [= <-]. right. exists subPath. apply stripPrefix_Some in Es.
    split; [now rewrite Es, <- app_assoc | reflexivity].
Qed.

Lemma localise_None (specifier : jsstring) :
  localise specifier = None ->
  specifier <> packageName
  /\ forall subPath, specifier <> packageName ++ [47%N] ++ subPath.
Proof.
  intros H. split.
  - intros ->. now rewrite localise_name in H.
  - intros subPath ->. now rewrite localise_subPath in H.
Qed.

Lemma localise_longer (c : char) (rest : jsstring) :
  c <> 47%N -> localise (packageName ++ c :: rest) = None.
Proof.
  intros Hc. destruct (localise (packageName ++ c :: rest)) as [target|] eqn:E;
    [|reflexivity].
  apply localise_Some in E as [[E _]|(subPath & E & _)].
  - now apply longer_than_name in E.
  - apply app_inv_head in E. injection E as -> _. contradiction.
Qed.

Lemma substitutePiece_localised (p : Piece) : localised p (substitutePiece p).
Proof.
  destruct p as [s|quote specifier]; simpl; [constructor|].
  destruct (localise specifier) as [target|] eqn:E.
  - apply localise_Some in E as [[-> ->]|(subPath & -> & ->)]; constructor.
  - apply localise_None in E as [H1 H2]. now constructor.
Qed.

Lemma localised_substitutePiece (p a : Piece) :
  localised p a -> a = substitutePiece p.
Proof.
  intros [s|quote|quote subPath|quote specifier Hn Hs];
    unfold LocalImportSubstituter.substitutePiece.
  - reflexivity.
  - now rewrite localise_name.
  - now rewrite localise_subPath.
  - destruct (localise specifier) as [target|] eqn:E; [|reflexivity].
    apply localise_Some in E as [[E _]|(subPath & E & _)];
      [contradiction | now apply Hs in E].
Qed.

Lemma localised_unique (p a b : Piece) : localised p a -> localised p b -> a = b.
Proof.
  intros Ha Hb. apply localised_substitutePiece in Ha, Hb. congruence.
Qed.

Lemma map_substitute_localised (pieces : list Piece) :
  Forall2 localised pieces (map substitutePiece pieces).
Proof.
  induction pieces as [|p pieces IH]; simpl; constructor;
    [apply substitutePiece_localised | exact IH].
Qed.

Lemma map_substitute_id (pieces : list Piece) :
  (forall quote specifier,
     In (ImportSpecifier quote specifier) pieces -> localise specifier = None) ->
  map substitutePiece pieces = pieces.
Proof.
  induction pieces as [|p pieces IH]; intros H; simpl; [reflexivity|].
  rewrite IH by (intros q sp Hin; apply (H q sp); now right). f_equal.
  destruct p as [s|q sp]; simpl; [reflexivity|].
  now rewrite (H q sp) by now left.
Qed.

End Localise.


End LocaliserClaims.

(* ===================================================================== *)
(** ** The replacement, line by line *)
(* ===================================================================== *)

Module LineFacts.
Import Js Rt SnippetCompiler Spec Vocabulary JsFacts PatternFacts ScrubFacts.

Lemma digits_closed (d x : jsstring) :
  allDigits d -> opensBlockFile x = false -> opensBlockFile (d ++ x) = false.
Proof.
  induction 1 as [|c d Hc Hd IH]; intros Hx; [exact Hx|].
  cbn [app opensBlockFile]. rewrite (IH Hx), orb_false_r.
  change COMPILED_DOCS_BLOCK with (47%N :: str "compiled-docs/block-").
  cbn [agree]. unfold isDigit in Hc. apply andb_true_iff in Hc as [Hlo _].
  apply N.leb_le in Hlo. destruct (N.eqb_spec c 47) as [->|_]; [lia | reflexivity].
Qed.

(** No reference begins inside a reference, past its first character. *)
Lemma blockFile_tail_closed (p : jsstring) :
  isBlockFile p -> exists c q, p = c :: q /\ opensBlockFile q = false.
Proof.
  intros (d & _ & Hd & ->). exists 47%N, (str "compiled-docs/block-" ++ d ++ DOT_TS).
  split; [reflexivity|].
  assert (H : opensBlockFile (d ++ DOT_TS) = false)
    by now apply digits_closed.
  revert H. generalize (d ++ DOT_TS). intros x Hx.
  vm_compute str. cbn [app opensBlockFile agree N.eqb Pos.eqb andb orb].
  change (N.eqb 47 47) with true. exact Hx.
Qed.

Lemma no_blockFile_no_match (s : jsstring) :
  ~ hasBlockFile s -> COMPILED_DOCS_FILE_PREFIX_PATTERN s = None.
Proof.
  intros H. destruct (COMPILED_DOCS_FILE_PREFIX_PATTERN s) as [[[g p] r]|] eqn:E;
    [|reflexivity].
  exfalso. apply H. destruct (pattern_Some _ _ _ _ E) as (Es & Hp & _).
  now exists g, p, r.
Qed.

(** On a line, the pattern takes everything up to the end of the last
    reference. *)
Lemma pattern_at_line (pre p post : jsstring) :
  Forall notTerminator pre -> isBlockFile p -> ~ hasBlockFile post ->
  COMPILED_DOCS_FILE_PREFIX_PATTERN (pre ++ p ++ post) = Some (pre, p, post).
Proof.
  intros Hpre Hp Hpost. induction Hpre as [|c pre Hc Hpre IH].
  - destruct (blockFile_tail_closed p Hp) as (c & q & E & Hq).
    pose proof (matchBlockFile_app p post Hp) as Hm. subst p.
    pose proof (blockFile_notTerminator _ Hp) as Hnt.
    inversion Hnt as [|? ? Hc _]; subst.
    cbn [app COMPILED_DOCS_FILE_PREFIX_PATTERN]. rewrite Hc.
    rewrite (no_blockFile_no_match (q ++ post)) by now apply label_closed.
    unfold blockFileHere. cbn [app] in Hm. now rewrite Hm.
  - cbn [app COMPILED_DOCS_FILE_PREFIX_PATTERN]. rewrite Hc. now rewrite IH.
Qed.

Lemma endsLine_tail c (u : jsstring) : endsLine (c :: u) -> endsLine u.
Proof.
  intros [H|(a & x & E & Hx)]; [discriminate|].
  destruct u as [|y u]; [now left|]. right.
  destruct a as [|c' a]; [discriminate|]. injection E as -> E.
  now exists a, x.
Qed.

(** Above the line, inside complete lines without a reference, the
    pattern matches nowhere. *)
Lemma endsLine_no_match (u rest : jsstring) :
  u <> [] -> endsLine u -> ~ hasBlockFile u ->
  COMPILED_DOCS_FILE_PREFIX_PATTERN (u ++ rest) = None.
Proof.
  intros Hne [->|(a & x & Eu & Hx)] Hno; [contradiction|].
  destruct (COMPILED_DOCS_FILE_PREFIX_PATTERN (u ++ rest)) as [[[g p] r]|] eqn:E;
    [|reflexivity].
  exfalso. destruct (pattern_Some _ _ _ _ E) as (Es & Hp & Hg).
  destruct (first_line u) as (l & rest0 & El & Hl & Hrest0).
  assert (Hterm : exists c rest', rest0 = c :: rest' /\ isLineTerminator c = true).
  { destruct Hrest0 as [->|H]; [|exact H]. exfalso.
    rewrite app_nil_r in El. subst l. rewrite Eu in Hl.
    apply Forall_app in Hl as [_ Hl]. inversion Hl as [|? ? Hx' _]; subst.
    unfold notTerminator in Hx'. congruence. }
  destruct Hterm as (c & rest' & -> & Hc).
  assert (Egp : (g ++ p) ++ r = l ++ (c :: rest' ++ rest)).
  { rewrite <- app_assoc, <- Es, El, <- app_assoc. reflexivity. }
  destruct (prefix_within (g ++ p) r l (c :: rest' ++ rest) Egp) as [l2 El2].
  - apply Forall_app. split; [assumption | now apply blockFile_notTerminator].
  - right. now exists c, (rest' ++ rest).
  - intros H. apply app_eq_nil in H as [_ ->]. now apply (blockFile_nonempty []).
  - apply Hno. exists g, p, (l2 ++ c :: rest'). split; [|assumption].
    rewrite El, El2, <- !app_assoc. reflexivity.
Qed.

Lemma replaceAll_above (t above : jsstring) :
  endsLine above -> ~ hasBlockFile above ->
  forall rest before,
    replaceAll t before 0 (above ++ rest)
    = above ++ replaceAll t (before ++ above) 0 rest.
Proof.
  induction above as [|c above IH]; intros Hends Hno rest before.
  - now rewrite app_nil_r.
  - cbn [app].
    rewrite (replaceAll_nomatch t before c (above ++ rest)
               (endsLine_no_match (c :: above) rest ltac:(discriminate) Hends Hno)).
    f_equal. rewrite IH.
    + now rewrite <- app_assoc.
    + now apply (endsLine_tail c).
    + intros H. apply Hno. now apply hasBlockFile_tail.
Qed.

(** The first line with a reference: from its beginning to the end of its
    last reference it becomes the expansion of the replacement text. *)
Lemma replaceAll_first_reference (t above pre p post before : jsstring) :
  endsLine above -> ~ hasBlockFile above ->
  Forall notTerminator pre -> isBlockFile p -> ~ hasBlockFile post ->
  replaceAll t before 0 (above ++ pre ++ p ++ post)
  = above ++ getSubstitution (pre ++ p) (before ++ above) post pre t ++ post.
Proof.
  intros Hends Habove Hpre Hp Hpost.
  rewrite (replaceAll_above t above Hends Habove).
  rewrite (replaceAll_match t (before ++ above) _ pre p post
             (pattern_at_line pre p post Hpre Hp Hpost)).
  now rewrite (replaceAll_unchanged t post Hpost).
Qed.

(** A text without [/compiled-docs/block-] has no reference. *)
Lemma no_marker_no_blockFile (s : jsstring) :
  includes COMPILED_DOCS_BLOCK s = false -> ~ hasBlockFile s.
Proof.
  intros H (a & p & b & -> & d & _ & _ & ->).
  assert (Hin : includes COMPILED_DOCS_BLOCK
                  (a ++ (COMPILED_DOCS_BLOCK ++ d ++ DOT_TS) ++ b) = true).
  { apply includes_true. exists a, ((d ++ DOT_TS) ++ b).
    now rewrite <- !app_assoc. }
  congruence.
Qed.

(** *** One line after the other *)

Lemma matchBlockFile_line (l : jsstring) c (rest : jsstring) :
  Forall notTerminator l -> isLineTerminator c = true ->
  matchBlockFile (l ++ c :: rest)
  = match matchBlockFile l with
    | Some (p, r) => Some (p, r ++ c :: rest)
    | None => None
    end.
Proof.
  intros Hl Hc. destruct (matchBlockFile l) as [[p r]|] eqn:E.
  - apply matchBlockFile_Some in E as [-> Hp].
    rewrite <- app_assoc. now apply matchBlockFile_app.
  - destruct (matchBlockFile (l ++ c :: rest)) as [[p r]|] eqn:E'; [|reflexivity].
    exfalso. apply matchBlockFile_Some in E' as [E' Hp].
    destruct (prefix_within p r l (c :: rest) (eq_sym E')
                (blockFile_notTerminator p Hp)) as [l2 ->].
    + right. now exists c, rest.
    + now apply blockFile_nonempty.
    + rewrite (matchBlockFile_app p l2 Hp) in E. discriminate.
Qed.

Lemma pattern_line (l : jsstring) c (rest : jsstring) :
  Forall notTerminator l -> isLineTerminator c = true ->
  COMPILED_DOCS_FILE_PREFIX_PATTERN (l ++ c :: rest)
  = match COMPILED_DOCS_FILE_PREFIX_PATTERN l with
    | Some (g, p, r) => Some (g, p, r ++ c :: rest)
    | None => None
    end.
Proof.
  intros Hl Hc. induction Hl as [|a l Ha Hl IH].
  - cbn [app]. rewrite (pattern_terminator c rest Hc). reflexivity.
  - cbn [app COMPILED_DOCS_FILE_PREFIX_PATTERN]. rewrite Ha, IH.
    destruct (COMPILED_DOCS_FILE_PREFIX_PATTERN l) as [[[g p] r]|]; [reflexivity|].
    unfold blockFileHere. change (a :: l ++ c :: rest) with ((a :: l) ++ c :: rest).
    rewrite (matchBlockFile_line (a :: l) c rest (Forall_cons _ Ha Hl) Hc).
    now destruct (matchBlockFile (a :: l)) as [[p r]|].
Qed.

(** Without [$] in the replacement text, what precedes plays no part. *)
Lemma replaceAll_before (t : jsstring) :
  ~ In DOLLAR t ->
  forall s b b' k, replaceAll t b k s = replaceAll t b' k s.
Proof.
  intros Hd. induction s as [|c s IH]; intros b b' k; [reflexivity|].
  cbn [replaceAll]. destruct k as [|k]; [|apply IH].
  destruct (COMPILED_DOCS_FILE_PREFIX_PATTERN (c :: s)) as [[[g p] r]|].
  - rewrite !getSubstitution_plain by assumption. f_equal. apply IH.
  - f_equal. apply IH.
Qed.

Lemma replaceAll_lines (t : jsstring) :
  ~ In DOLLAR t ->
  forall l c rest before,
    Forall notTerminator l -> isLineTerminator c = true ->
    replaceAll t before 0 (l ++ c :: rest)
    = replaceAll t [] 0 l ++ c :: replaceAll t [] 0 rest.
Proof.
  intros Hd l. induction l as [l IH] using (induction_ltof1 _ (@length char)).
  unfold ltof in IH. intros c rest before Hl Hc.
  destruct (COMPILED_DOCS_FILE_PREFIX_PATTERN l) as [[[g p] r]|] eqn:E.
  - pose proof (pattern_line l c rest Hl Hc) as E'. rewrite E in E'.
    rewrite (replaceAll_match t before _ g p (r ++ c :: rest) E').
    rewrite (replaceAll_match t [] _ g p r E).
    rewrite !getSubstitution_plain by assumption. rewrite <- app_assoc. f_equal.
    destruct (pattern_Some _ _ _ _ E) as (El & Hp & _).
    apply blockFile_nonempty in Hp.
    rewrite (replaceAll_before t Hd r ([] ++ g ++ p) [] 0).
    apply IH; [| |assumption].
    + rewrite El, !length_app. destruct p; [contradiction | simpl; lia].
    + rewrite El in Hl. now apply Forall_app in Hl as [_ [_ Hr]%Forall_app].
  - destruct l as [|a l].
    + cbn [app replaceAll]. rewrite (pattern_terminator c rest Hc). f_equal.
      apply (replaceAll_before t Hd).
    + pose proof (pattern_line (a :: l) c rest Hl Hc) as E'. rewrite E in E'.
      cbn [app] in *. rewrite (replaceAll_nomatch t before a _ E').
      rewrite (replaceAll_nomatch t [] a _ E). cbn [app]. f_equal.
      rewrite (replaceAll_before t Hd l [a] [] 0).
      inversion Hl; subst. apply IH; [simpl; lia | assumption | assumption].
Qed.

Lemma replaceAll_keeps_out (t : jsstring) (x : char) :
  ~ In x t -> ~ In DOLLAR t ->
  forall s before, ~ In x s -> ~ In x (replaceAll t before 0 s).
Proof.
  intros Ht Hd s. induction s as [s IH] using (induction_ltof1 _ (@length char)).
  unfold ltof in IH. intros before Hs.
  destruct s as [|c s]; [exact Hs|].
  destruct (COMPILED_DOCS_FILE_PREFIX_PATTERN (c :: s)) as [[[g p] r]|] eqn:E.
  - rewrite (replaceAll_match t before _ g p r E).
    rewrite getSubstitution_plain by assumption.
    destruct (pattern_Some _ _ _ _ E) as (Es & Hp & _).
    apply blockFile_nonempty in Hp.
    intros Hin. apply in_app_or in Hin as [Hin|Hin]; [now apply Ht|].
    revert Hin. apply IH.
    + rewrite Es, !length_app. destruct p; [contradiction | simpl; lia].
    + intros Hin. apply Hs. rewrite Es. apply in_or_app. right.
      apply in_or_app. now right.
  - rewrite (replaceAll_nomatch t before c s E).
    intros [->|Hin]; [apply Hs; now left|].
    revert Hin. apply IH; [simpl; lia|]. intros Hin. apply Hs. now right.
Qed.

Lemma split_nonempty (sep : char) (s : jsstring) : split sep s <> [].
Proof.
  destruct s as [|c s]; simpl; [discriminate|].
  destruct (c =? sep)%N; [discriminate|]. now destruct (split sep s).
Qed.

Lemma split_none (sep : char) (x : jsstring) : ~ In sep x -> split sep x = [x].
Proof.
  induction x as [|c x IH]; intros H; [reflexivity|]. cbn [split].
  destruct (N.eqb_spec c sep) as [->|_]; [elim H; now left|].
  rewrite IH; [reflexivity|]. intros Hin. apply H. now right.
Qed.

Lemma split_at_sep (sep : char) (x y : jsstring) :
  ~ In sep x -> split sep (x ++ sep :: y) = x :: split sep y.
Proof.
  induction x as [|c x IH]; intros H.
  - cbn [app split]. now rewrite N.eqb_refl.
  - cbn [app split]. destruct (N.eqb_spec c sep) as [->|_]; [elim H; now left|].
    rewrite IH; [reflexivity|]. intros Hin. apply H. now right.
Qed.

Lemma split_at_other (sep c : char) (x y h : jsstring) (tl : list jsstring) :
  ~ In sep x -> c <> sep -> split sep y = h :: tl ->
  split sep (x ++ c :: y) = (x ++ c :: h) :: tl.
Proof.
  intros H Hc Hy. induction x as [|a x IH].
  - cbn [app split]. destruct (N.eqb_spec c sep) as [->|_]; [contradiction|].
    now rewrite Hy.
  - cbn [app split]. destruct (N.eqb_spec a sep) as [->|_]; [elim H; now left|].
    rewrite IH; [reflexivity|]. intros Hin. apply H. now right.
Qed.

Lemma notTerminator_no_LF (l : jsstring) : Forall notTerminator l -> ~ In LF l.
Proof.
  intros Hl Hin. rewrite Forall_forall in Hl. specialize (Hl LF Hin). discriminate.
Qed.

(** The replacement works line by line. *)
Lemma replaceAll_split (t : jsstring) :
  ~ In DOLLAR t -> ~ In LF t ->
  forall s,
    split LF (replaceAll t [] 0 s) = map (replaceAll t [] 0) (split LF s).
Proof.
  intros Hd Ht s. induction s as [s IH] using (induction_ltof1 _ (@length char)).
  unfold ltof in IH.
  destruct (first_line s) as (l & rest0 & -> & Hl & [->|(c & rest & -> & Hc)]).
  - rewrite app_nil_r. pose proof (notTerminator_no_LF l Hl) as Hno.
    rewrite (split_none LF l Hno). cbn [map].
    apply split_none. now apply replaceAll_keeps_out.
  - rewrite (replaceAll_lines t Hd l c rest [] Hl Hc).
    pose proof (notTerminator_no_LF l Hl) as Hno.
    pose proof (replaceAll_keeps_out t LF Ht Hd l [] Hno) as Hno'.
    assert (IHrest : split LF (replaceAll t [] 0 rest)
                     = map (replaceAll t [] 0) (split LF rest)).
    { apply IH. rewrite length_app. simpl. lia. }
    destruct (N.eqb_spec c LF) as [->|Hne].
    + rewrite (split_at_sep LF _ _ Hno'), (split_at_sep LF _ _ Hno).
      cbn [map]. now rewrite IHrest.
    + destruct (split LF rest) as [|h tl] eqn:Es;
        [now apply split_nonempty in Es|].
      cbn [map] in IHrest.
      rewrite (split_at_other LF c _ _ _ _ Hno' Hne IHrest).
      rewrite (split_at_other LF c _ _ _ _ Hno Hne Es). cbn [map]. f_equal.
      symmetry. apply (replaceAll_lines t Hd l c h [] Hl Hc).
Qed.

Lemma blockFile_of_digits (d : jsstring) :
  d <> [] -> allDigits d -> isBlockFile (COMPILED_DOCS_BLOCK ++ d ++ DOT_TS).
Proof. intros Hne Hd. now exists d. Qed.

End LineFacts.

(* ===================================================================== *)
(** ** Runs, event by event *)
(* ===================================================================== *)

Module TraceFacts.
Import Js Rt SnippetCompiler Spec Vocabulary JsFacts RtFacts ScheduleFacts
  CompilerFacts.

Lemma completionOrder_perm (sched : Scheduler) (fuel : nat) :
  forall pending, length pending <= fuel ->
                  Permutation pending (completionOrder sched fuel pending).
Proof.
  induction fuel as [|fuel IH]; intros [|p ps] Hlen; simpl in *;
    try constructor; try lia.
  pose proof (takeAt_perm (sched (p :: ps)) p ps) as Hperm.
  pose proof (takeAt_length (sched (p :: ps)) p ps) as Hl.
  destruct (takeAt (sched (p :: ps)) p ps) as [z R]. cbn [fst snd] in *.
  eapply Permutation_trans; [exact Hperm|]. apply perm_skip, IH. lia.
Qed.

Lemma combine_seq_nth {X} (xs : list X) :
  forall s i x,
    In (i, x) (combine (seq s (length xs)) xs) ->
    s <= i /\ nth_error xs (i - s) = Some x.
Proof.
  induction xs as [|y xs IH]; intros s i x Hin; [contradiction|].
  cbn [length seq combine In] in Hin. destruct Hin as [[= <- <-]|Hin].
  - split; [lia|]. now rewrite Nat.sub_diag.
  - destruct (IH (S s) i x Hin) as [Hle Hn]. split; [lia|].
    replace (i - s) with (S (i - S s)) by lia. exact Hn.
Qed.

Lemma nth_error_all {X} (xs : list X) :
  flat_map (fun i => optionToList (nth_error xs i)) (seq 0 (length xs)) = xs.
Proof.
  induction xs as [|x xs IH]; [reflexivity|].
  cbn [length seq flat_map nth_error optionToList app]. f_equal.
  rewrite <- seq_shift, flat_map_concat_map, map_map, <- flat_map_concat_map.
  exact IH.
Qed.

Lemma inCompletionOrder_perm {X} (sched : Scheduler) (xs : list X) :
  Permutation (inCompletionOrder sched xs) xs.
Proof.
  unfold inCompletionOrder. rewrite <- (nth_error_all xs) at 3.
  apply Permutation_flat_map, Permutation_sym, completionOrder_perm.
  now rewrite length_seq.
Qed.

(** Completed items, read off their input positions. *)
Lemma completion_items {X} (sched : Scheduler) (xs : list X)
  (L' : list (nat * X)) :
  Permutation (combine (seq 0 (length xs)) xs) L' ->
  map fst L' = completionOrder sched (length xs) (seq 0 (length xs)) ->
  map snd L' = inCompletionOrder sched xs.
Proof.
  intros Hperm Hord. unfold inCompletionOrder. rewrite <- Hord.
  assert (H : Forall (fun ix => nth_error xs (fst ix) = Some (snd ix)) L').
  { apply Forall_forall. intros [i x] Hin.
    apply (Permutation_in _ (Permutation_sym Hperm)) in Hin.
    destruct (combine_seq_nth xs 0 i x Hin) as [_ Hn].
    now rewrite Nat.sub_0_r in Hn. }
  clear Hperm Hord. induction H as [|[i x] L Hx _ IH]; [reflexivity|].
  cbn [map flat_map fst snd] in *. now rewrite Hx, <- IH.
Qed.

Lemma fst_combine_seq {X} (xs : list X) (s : nat) :
  map fst (combine (seq s (length xs)) xs) = seq s (length xs).
Proof.
  revert s; induction xs as [|x xs IH]; intros s; [reflexivity|].
  cbn [length seq combine map fst]. now rewrite IH.
Qed.

Section Tasks.
Context {X A : Type}.
Variable task : X -> M A.
Variable sched : Scheduler.

(** Tasks whose outcome does not depend on the state they run in: the
    whole rejects with the first rejection in the order of completion. *)
Variable outcome : X -> Result Rejection A.
Hypothesis task_outcome : forall x st, fst (task x st) = outcome x.

Lemma settle_first (fuel : nat) :
  forall (L : list (nat * X)) (st : State),
    length L <= fuel ->
    exists L',
      Permutation L L'
      /\ map fst L' = completionOrder sched fuel (map fst L)
      /\ match firstError (map (fun ix => outcome (snd ix)) L') with
         | Some e => fst (settle sched fuel (map (indexed task) L) st) = Err e
         | None => exists done,
                     fst (settle sched fuel (map (indexed task) L) st) = Ok done
         end.
Proof.
  induction fuel as [|fuel IH]; intros L st Hlen.
  - destruct L; [|simpl in Hlen; lia]. exists []. simpl.
    repeat split; [constructor | now exists []].
  - destruct L as [|x0 L0].
    { exists []. simpl. repeat split; [constructor | now exists []]. }
    cbn [map settle completionOrder].
    rewrite (takeAt_map (indexed task)).
    assert (Hk : map fst (map (indexed task) L0) = map fst L0)
      by (rewrite map_map; reflexivity).
    change (fst (indexed task x0)) with (fst x0). rewrite Hk.
    rewrite (takeAt_map fst).
    pose proof (takeAt_perm (sched (fst x0 :: map fst L0)) x0 L0) as Hperm.
    pose proof (takeAt_length (sched (fst x0 :: map fst L0)) x0 L0) as Hl.
    destruct (takeAt (sched (fst x0 :: map fst L0)) x0 L0) as [z R].
    cbn [fst snd] in *.
    change (snd (indexed task z)) with (task (snd z)).
    change (fst (indexed task z)) with (fst z).
    pose proof (task_outcome (snd z) st) as Hv.
    destruct (task (snd z) st) as [r st1]. cbn [fst snd] in *. subst r.
    destruct (IH R st1) as (R' & HpR & Hord & Hres); [simpl in Hlen; lia|].
    exists (z :: R'). split; [|split].
    + eapply Permutation_trans; [exact Hperm | now apply perm_skip].
    + cbn [map]. now rewrite Hord.
    + cbn [map firstError]. destruct (outcome (snd z)) as [a|e]; [|reflexivity].
      destruct (firstError (map (fun ix => outcome (snd ix)) R')) as [e|].
      * destruct (settle sched fuel (map (indexed task) R) st1) as [r2 st2].
        cbn [fst] in *. now subst r2.
      * destruct Hres as [done Hdone].
        destruct (settle sched fuel (map (indexed task) R) st1) as [r2 st2].
        cbn [fst] in *. subst r2. now eexists.
Qed.

Lemma promiseAll_first (xs : list X) (st : State) :
  match firstError (map outcome (inCompletionOrder sched xs)) with
  | Some e => fst (promiseAll sched (map task xs) st) = Err e
  | None => exists vs, fst (promiseAll sched (map task xs) st) = Ok vs
  end.
Proof.
  unfold promiseAll. rewrite length_map, combine_map_r.
  destruct (settle_first (length xs) (combine (seq 0 (length xs)) xs) st)
    as (L' & Hperm & Hord & Hres).
  { now rewrite length_combine, length_seq, Nat.min_id. }
  rewrite fst_combine_seq in Hord.
  rewrite <- (completion_items sched xs L' Hperm Hord), map_map.
  unfold indexed in *.
  destruct (firstError (map (fun ix => outcome (snd ix)) L')) as [e|].
  - destruct (settle sched (length xs) _ st) as [r st']. cbn [fst] in *.
    now subst r.
  - destruct Hres as [done Hdone].
    destruct (settle sched (length xs) _ st) as [r st']. cbn [fst] in *.
    subst r. now eexists.
Qed.

End Tasks.

Section Logged.
Context {X A : Type}.
Variable task : X -> M A.
Variable sched : Scheduler.
Variable valueOf : X -> A.
Variable logged : X -> list Event.
Hypothesis task_value : forall x st, fst (task x st) = Ok (valueOf x).
Hypothesis task_log : forall x st, log (snd (task x st)) = log st ++ logged x.

(** Tasks that always fulfil and log the same entries in any state: the
    log receives the entries of each, in the order of completion. *)
Lemma promiseAll_trace (xs : list X) (st : State) :
  log (snd (promiseAll sched (map task xs) st))
  = log st ++ flat_map logged (inCompletionOrder sched xs).
Proof.
  unfold promiseAll. rewrite length_map, combine_map_r.
  destruct (settle_trace task sched valueOf logged task_value task_log
              (length xs) (combine (seq 0 (length xs)) xs) st)
    as (L' & Hperm & Hord & Hres & Hlog).
  { now rewrite length_combine, length_seq, Nat.min_id. }
  rewrite fst_combine_seq in Hord.
  rewrite <- (completion_items sched xs L' Hperm Hord).
  unfold indexed in *.
  destruct (settle sched (length xs) _ st) as [r st']. cbn [fst snd] in *.
  subst r. cbn [snd]. rewrite Hlog. f_equal.
  rewrite !flat_map_concat_map, map_map. reflexivity.
Qed.

End Logged.

Section Run.
Variable env : Env.
Variable workingDirectory : jsstring.

Lemma try_steps (sE sC : Scheduler) (files : list jsstring) (st : State) :
  removeFault env (removes st) = None -> ensureDirFault env = None ->
  compileSnippetsTry env workingDirectory sE sC files st
  = match fst (extractAllCodeBlocks env sE files (prepared st)) with
    | Ok examples =>
        promiseAll sC
          (map (testCodeCompilationResume env)
               (tasksFrom env workingDirectory (reads st) examples))
          (mkState (mkFS true []) (S (removes st)) (reads st + length examples)
                   (log st ++ [EvRemove true; EvEnsureDir true]))
    | Err rejection => (Err rejection, prepared st)
    end.
Proof.
  intros Hremove Hensure.
  unfold compileSnippetsTry, bind, cleanWorkingDirectory, ensureDir.
  rewrite Hremove, Hensure. cbn [fs Rt.files removes reads log].
  rewrite <- app_assoc. cbn [app]. fold (prepared st).
  pose proof (extractAll_state env sE files (prepared st)) as Hst.
  destruct (extractAllCodeBlocks env sE files (prepared st)) as [[examples|rej] st'];
    cbn [fst snd] in *; subst st'; [|reflexivity].
  now rewrite mapSync_start.
Qed.

Lemma extracted_outcome (sE : Scheduler) (files : list jsstring) (st : State)
  (pkg : PackageDefinition) (blocks : list (list jsstring)) :
  packageInfoRead env = Ok pkg -> extracted env files blocks ->
  fst (extractAllCodeBlocks env sE files st) = Ok (examplesOf env pkg files blocks).
Proof.
  intros Hpkg Hex. pose proof (extractAll_outcome env sE files st) as H.
  destruct (fst (extractAllCodeBlocks env sE files st)) as [examples|rej].
  - destruct H as (pkg' & blocks' & Hpkg' & Hex' & ->).
    assert (pkg' = pkg) by congruence. subst pkg'.
    now rewrite (extracted_fun env files blocks' blocks Hex' Hex).
  - exfalso. destruct H as [[_ Hp]|(f & Hin & _ & Hf)]; [congruence|].
    destruct (extracted_In env files blocks f Hex Hin) as [bs Hbs]. congruence.
Qed.

Lemma not_extracted_outcome (sE : Scheduler) (files : list jsstring) (st : State) :
  (exists e, packageInfoRead env = Err e)
  \/ (exists file e, In file files /\ extract env file = Err e) ->
  exists rejection, fst (extractAllCodeBlocks env sE files st) = Err rejection.
Proof.
  intros Hfail. pose proof (extractAll_outcome env sE files st) as H.
  destruct (fst (extractAllCodeBlocks env sE files st)) as [examples|rej];
    [|now exists rej].
  exfalso. destruct H as (pkg & blocks & Hpkg & Hex & _).
  destruct Hfail as [[e He]|(f & e & Hin & He)]; [congruence|].
  destruct (extracted_In env files blocks f Hex Hin) as [bs Hbs]. congruence.
Qed.

(** A run whose extraction succeeded, event by event. *)
Lemma run_extracted (sE sC : Scheduler) (files : list jsstring) (st : State)
  (examples : list CodeBlock.t) :
  removeFault env (removes st) = None -> ensureDirFault env = None ->
  fst (extractAllCodeBlocks env sE files (prepared st)) = Ok examples ->
  let out := compileSnippets env workingDirectory sE sC files st in
  log (snd out)
  = log st ++ [EvRemove true; EvEnsureDir true]
    ++ flat_map (eventsOf env)
         (inCompletionOrder sC (tasksFrom env workingDirectory (reads st) examples))
    ++ [EvRemove (isNone (removeFault env (S (removes st))))]
  /\ reads (snd out) = reads st + length examples.
Proof.
  intros Hremove Hensure Hex. cbv zeta. unfold compileSnippets, tryFinally.
  rewrite (try_steps sE sC files st Hremove Hensure), Hex.
  set (tasks := tasksFrom env workingDirectory (reads st) examples).
  set (st1 := mkState _ _ _ _).
  pose proof (promiseAll_trace (testCodeCompilationResume env) sC
                (fun task => settled env (fst task)
                   (outcomeOf env (CodeBlock.sanitisedCode (fst task)) (snd task)))
                (eventsOf env) (resume_outcome env) (resume_log env) tasks st1)
    as Hlog.
  destruct (compileAll_compiling env sC tasks st1) as (Hr & Hreads & _).
  destruct (promiseAll sC _ st1) as [r st2]. cbn [snd] in *.
  unfold cleanWorkingDirectory. rewrite Hr. cbn [removes st1].
  destruct (removeFault env (S (removes st))); cbn [snd log reads isNone];
    rewrite Hlog, Hreads; cbn [log reads st1]; now rewrite <- !app_assoc.
Qed.

(** A run whose extraction failed, event by event. *)
Lemma run_not_extracted (sE sC : Scheduler) (files : list jsstring) (st : State)
  (rejection : Rejection) :
  removeFault env (removes st) = None -> ensureDirFault env = None ->
  fst (extractAllCodeBlocks env sE files (prepared st)) = Err rejection ->
  let out := compileSnippets env workingDirectory sE sC files st in
  log (snd out)
  = log st ++ [EvRemove true; EvEnsureDir true;
               EvRemove (isNone (removeFault env (S (removes st))))]
  /\ reads (snd out) = reads st
  /\ fst out = match removeFault env (S (removes st)) with
               | Some e => Err (mkRejection WorkingDirectory e)
               | None => Err rejection
               end.
Proof.
  intros Hremove Hensure Hex. cbv zeta. unfold compileSnippets, tryFinally.
  rewrite (try_steps sE sC files st Hremove Hensure), Hex.
  unfold cleanWorkingDirectory, prepared. cbn [removes].
  destruct (removeFault env (S (removes st))); cbn [fst snd log reads isNone];
    now rewrite <- !app_assoc.
Qed.

Lemma firstError_firstFailure (subst : jsstring -> jsstring) (files : list jsstring) :
  firstError (map (extractOutcome env subst) files)
  = option_map (fun fe => mkRejection (Document (fst fe)) (snd fe))
               (firstFailure env files).
Proof.
  induction files as [|f files IH]; [reflexivity|].
  cbn [map firstError firstFailure]. unfold extractOutcome at 1.
  now destruct (extract env f).
Qed.

Lemma extraction_first (sE : Scheduler) (files : list jsstring) (st : State)
  (pkg : PackageDefinition) (file : jsstring) (e : JsError) :
  packageInfoRead env = Ok pkg ->
  firstFailure env (inCompletionOrder sE files) = Some (file, e) ->
  fst (extractAllCodeBlocks env sE files st) = Err (mkRejection (Document file) e).
Proof.
  intros Hpkg Hfirst. unfold extractAllCodeBlocks, bind, packageInfo.
  rewrite Hpkg.
  pose proof (promiseAll_first
                (fun file => extractFileCodeBlocks env file
                               (substituteLocalPackageImports env pkg))
                sE (extractOutcome env (substituteLocalPackageImports env pkg))
                (fun x s => f_equal fst (extract_outcome env _ x s)) files st) as H.
  rewrite firstError_firstFailure, Hfirst in H. cbn [option_map fst snd] in H.
  destruct (promiseAll sE _ st) as [r st']. cbn [fst] in *. now subst r.
Qed.

End Run.

End TraceFacts.

(* ===================================================================== *)
(** ** The compiler options the constructor passes on *)
(* ===================================================================== *)

Module ConfigFacts.
Import Js Rt TypeScriptConfig JsFacts.

Section Members.
Context {number : Type}.
Implicit Types (m : list (jsstring * JsAny number)) (x v : JsAny number).

Lemma lookup_store_same k x m : lookup k (store k x m) = Some x.
Proof.
  induction m as [|[k' v] m IH]; simpl.
  - now rewrite eqb_refl.
  - destruct (Js.eqb k' k) eqn:E; simpl; now rewrite E.
Qed.

Lemma lookup_store_other k k' x m :
  k <> k' -> lookup k' (store k x m) = lookup k' m.
Proof.
  intros Hne. induction m as [|[k0 v] m IH]; simpl.
  - apply eqb_neq in Hne. now rewrite Hne.
  - destruct (Js.eqb k0 k) eqn:E; simpl.
    + apply eqb_eq in E. subst k0. apply eqb_neq in Hne. now rewrite Hne.
    + now rewrite IH.
Qed.

Lemma store_known k x m : lookup k m = Some x -> store k x m = m.
Proof.
  induction m as [|[k' v] m IH]; simpl; [discriminate|].
  destruct (Js.eqb k' k); [now intros [= ->] | intros H; now rewrite IH].
Qed.

Lemma store_names k x m :
  map fst (store k x m)
  = match lookup k m with
    | Some _ => map fst m
    | None => map fst m ++ [k]
    end.
Proof.
  induction m as [|[k' v] m IH]; simpl; [reflexivity|].
  destruct (Js.eqb k' k); simpl; [reflexivity|].
  rewrite IH. now destruct (lookup k m).
Qed.

Lemma get_isObject k v x :
  get k v = x -> x <> JUndefined ->
  isObject v = true /\ isNullish v = false.
Proof. destruct v; simpl; intros <- H; try now elim H. all: now split. Qed.

Lemma get_withProperty_same k x v :
  isObject v = true -> get k (withProperty k x v) = x.
Proof.
  destruct v; simpl; try discriminate; intros _; now rewrite lookup_store_same.
Qed.

Lemma get_withProperty_other k k' x v :
  k <> k' -> get k' (withProperty k x v) = get k' v.
Proof.
  intros Hne. destruct v; simpl; try reflexivity;
    now rewrite (lookup_store_other _ _ _ _ Hne).
Qed.

Lemma withProperty_known k v :
  get k v <> JUndefined -> withProperty k (get k v) v = v.
Proof.
  destruct v; simpl; try reflexivity.
  - destruct (lookup k named) eqn:E; [|now intros H; elim H].
    intros _. now rewrite (store_known _ _ _ E).
  - destruct (lookup k members) eqn:E; [|now intros H; elim H].
    intros _. now rewrite (store_known _ _ _ E).
Qed.

Lemma withProperty_isObject k x v : isObject (withProperty k x v) = isObject v.
Proof. now destruct v. Qed.

Lemma withProperty_isNullish k x v : isNullish (withProperty k x v) = isNullish v.
Proof. now destruct v. Qed.

Lemma set_isObject k x v :
  isObject v = true -> set k x v = Ok (withProperty k x v).
Proof. now destruct v. Qed.

Lemma set_primitive k x v : isObject v = false -> set k x v = Err TypeError.
Proof. now destruct v. Qed.

Lemma lookup_In k m : lookup k m <> None <-> In k (map fst m).
Proof.
  induction m as [|[k' v] m IH]; simpl; [tauto|].
  destruct (Js.eqb k' k) eqn:E.
  - apply eqb_eq in E. split; [now left | discriminate].
  - apply eqb_neq in E. rewrite IH. split; [now right | now intros [?|?]].
Qed.

Lemma names_withProperty k x v :
  isObject v = true ->
  (In k (names v) -> names (withProperty k x v) = names v)
  /\ (~ In k (names v) -> names (withProperty k x v) = names v ++ [k]).
Proof.
  destruct v; simpl; try discriminate; intros _; rewrite store_names, <- lookup_In.
  - destruct (lookup k named); split; try reflexivity; intros H; now elim H.
  - destruct (lookup k members); split; try reflexivity; intros H; now elim H.
Qed.

Lemma get_names k v : get k v <> JUndefined -> In k (names v).
Proof.
  destruct v; simpl; try (now intros H; elim H);
    intros H; apply lookup_In; intros E; rewrite E in H; now elim H.
Qed.

Lemma isObject_defined v : isObject v = true -> v <> JUndefined.
Proof. now destruct v. Qed.

End Members.

Section Load.
Context {number : Type}.
Variable falsyNumber : number -> bool.
Implicit Types (loaded result : JsAny number).

Local Abbreviation load := (loadTypeScriptConfig falsyNumber).
Local Abbreviation optionsOf := (@compilerOptionsOf number).

Lemma truthy_split (v : JsAny number) :
  truthy falsyNumber v = isObject v || truthyPrimitive falsyNumber v.
Proof. destruct v; simpl; try reflexivity; now rewrite ?orb_false_r. Qed.

Lemma getOptional_get k (v : JsAny number) : getOptional k v = get k v.
Proof. now destruct v. Qed.

Lemma truthy_defined (v : JsAny number) :
  truthy falsyNumber v = true -> v <> JUndefined.
Proof. now destruct v. Qed.

(** What [loadTypeScriptConfig] returns when there are options to
    change. *)
Lemma load_object loaded :
  isObject (optionsOf loaded) = true ->
  load loaded
  = Ok (withProperty K_config
          (withProperty K_compilerOptions
             (withProperty K_noUnusedLocals (JBoolean false) (optionsOf loaded))
             (get K_config loaded))
          loaded).
Proof.
  intros Hobj. unfold loadTypeScriptConfig, compilerOptionsOf in *.
  rewrite !getOptional_get.
  rewrite truthy_split, Hobj. cbn [orb]. now rewrite (set_isObject _ _ _ Hobj).
Qed.

Lemma load_falsy loaded :
  truthy falsyNumber (optionsOf loaded) = false -> load loaded = Ok loaded.
Proof.
  intros H. unfold loadTypeScriptConfig, compilerOptionsOf in *.
  rewrite !getOptional_get. now rewrite H.
Qed.

Lemma load_primitive loaded :
  truthyPrimitive falsyNumber (optionsOf loaded) = true ->
  load loaded = Err TypeError.
Proof.
  intros H. unfold loadTypeScriptConfig, compilerOptionsOf in *.
  rewrite !getOptional_get.
  rewrite truthy_split, H, orb_true_r.
  rewrite set_primitive; [reflexivity|].
  now destruct (get K_compilerOptions (get K_config loaded)).
Qed.

(** The value returned is one on which loading changes nothing. *)
Lemma load_object_fixed loaded :
  isObject (optionsOf loaded) = true ->
  forall result, load loaded = Ok result -> load result = Ok result.
Proof.
  intros Hobj result. rewrite (load_object loaded Hobj). intros [= <-].
  pose proof (isObject_defined _ Hobj) as Hdef.
  destruct (get_isObject K_compilerOptions (get K_config loaded) _ eq_refl Hdef)
    as [Hconfig _].
  destruct (get_isObject K_config loaded _ eq_refl (isObject_defined _ Hconfig))
    as [Hloaded _].
  set (options := withProperty K_noUnusedLocals (JBoolean false) (optionsOf loaded)).
  set (config := withProperty K_compilerOptions options (get K_config loaded)).
  set (result := withProperty K_config config loaded).
  assert (Hc : get K_config result = config)
    by now apply get_withProperty_same.
  assert (Ho : optionsOf result = options).
  { unfold compilerOptionsOf. rewrite Hc. now apply get_withProperty_same. }
  assert (Hoo : isObject options = true)
    by (unfold options; now rewrite withProperty_isObject).
  assert (Hco : isObject config = true)
    by (unfold config; now rewrite withProperty_isObject).
  rewrite load_object by now rewrite Ho.
  rewrite Ho, Hc. f_equal.
  assert (E1 : withProperty K_noUnusedLocals (JBoolean false) options = options).
  { assert (Hg : get K_noUnusedLocals options = JBoolean false)
      by now apply get_withProperty_same.
    rewrite <- Hg at 1. apply withProperty_known. now rewrite Hg. }
  rewrite E1.
  assert (E2 : withProperty K_compilerOptions options config = config).
  { assert (Hg : get K_compilerOptions config = options)
      by now apply get_withProperty_same.
    rewrite <- Hg at 1. apply withProperty_known. rewrite Hg.
    now apply isObject_defined. }
  rewrite E2. rewrite <- Hc at 1. apply withProperty_known. rewrite Hc.
  now apply isObject_defined.
Qed.

Lemma options_cases loaded :
  isObject (optionsOf loaded) = true
  \/ truthyPrimitive falsyNumber (optionsOf loaded) = true
  \/ truthy falsyNumber (optionsOf loaded) = false.
Proof. destruct (optionsOf loaded) as [| |[]|n|[]| |]; simpl; auto.
  destruct (falsyNumber n); auto. Qed.

End Load.

End ConfigFacts.

Module ConfigProperties.
Import Js Rt TypeScriptConfig JsFacts ConfigFacts.

(** X1. Whenever the loaded configuration has compiler options (an object),
    [loadTypeScriptConfig] returns it with [noUnusedLocals] set to
    [false] in them, whatever the project had set, and this is what the
    constructor passes to [TSNode.create]; every other option, every
    other member of the configuration and of the loaded value, and the
    order of all names are kept, [noUnusedLocals] coming last when it is
    new. *)
Theorem noUnusedLocals_forced {number} (falsyNumber : number -> bool)
  (loaded : JsAny number) :
  isObject (compilerOptionsOf loaded) = true ->
  exists result,
    loadTypeScriptConfig falsyNumber loaded = Ok result
    /\ createOptions falsyNumber loaded = Ok (get K_config result)
    /\ get K_noUnusedLocals (compilerOptionsOf result) = JBoolean false
    /\ (forall k, k <> K_noUnusedLocals ->
                  get k (compilerOptionsOf result) = get k (compilerOptionsOf loaded))
    /\ (forall k, k <> K_compilerOptions ->
                  get k (get K_config result) = get k (get K_config loaded))
    /\ (forall k, k <> K_config -> get k result = get k loaded)
    /\ names result = names loaded
    /\ names (get K_config result) = names (get K_config loaded)
    /\ (In K_noUnusedLocals (names (compilerOptionsOf loaded)) ->
        names (compilerOptionsOf result) = names (compilerOptionsOf loaded))
    /\ (~ In K_noUnusedLocals (names (compilerOptionsOf loaded)) ->
        names (compilerOptionsOf result)
        = names (compilerOptionsOf loaded) ++ [K_noUnusedLocals]).
Proof.
  intros Hobj. pose proof (isObject_defined _ Hobj) as Hdef.
  destruct (get_isObject K_compilerOptions (get K_config loaded) _ eq_refl Hdef)
    as [Hconfig _].
  destruct (get_isObject K_config loaded _ eq_refl (isObject_defined _ Hconfig))
    as [Hloaded Hnull].
  eexists. split; [apply (load_object falsyNumber loaded Hobj)|].
  set (options := withProperty K_noUnusedLocals (JBoolean false)
                    (compilerOptionsOf loaded)).
  set (config := withProperty K_compilerOptions options (get K_config loaded)).
  assert (Hc : get K_config (withProperty K_config config loaded) = config)
    by now apply get_withProperty_same.
  assert (Ho : compilerOptionsOf (withProperty K_config config loaded) = options).
  { unfold compilerOptionsOf. rewrite Hc. now apply get_withProperty_same. }
  split.
  { unfold createOptions. rewrite (load_object falsyNumber loaded Hobj).
    fold options config. now rewrite withProperty_isNullish, Hnull. }
  rewrite Ho, Hc. split; [now apply get_withProperty_same|].
  split; [intros k Hk; now apply get_withProperty_other|].
  split; [intros k Hk; now apply get_withProperty_other|].
  split; [intros k Hk; now apply get_withProperty_other|].
  split.
  { apply (names_withProperty K_config config loaded Hloaded).
    apply get_names. now apply isObject_defined. }
  split.
  { apply (names_withProperty K_compilerOptions options _ Hconfig).
    now apply get_names. }
  apply (names_withProperty K_noUnusedLocals (JBoolean false) _ Hobj).
Qed.

Lemma noUnusedLocals_forced_witness :
  exists result,
    loadTypeScriptConfig (N.eqb 0) Samples.tsconfig = Ok result
    /\ createOptions (N.eqb 0) Samples.tsconfig = Ok (get K_config result)
    /\ get K_noUnusedLocals (compilerOptionsOf result) = JBoolean false
    /\ get (str "strict") (compilerOptionsOf result) = JBoolean true
    /\ names (compilerOptionsOf result)
       = [str "strict"; K_noUnusedLocals; str "target"].
Proof.
  destruct (noUnusedLocals_forced (N.eqb 0) Samples.tsconfig eq_refl)
    as (result & Hload & Hcreate & Hfalse & Hother & _ & _ & _ & _ & Hnames & _).
  exists result. split; [exact Hload|]. split; [exact Hcreate|].
  split; [exact Hfalse|]. split.
  - rewrite Hother; [reflexivity | discriminate].
  - rewrite Hnames; [reflexivity|]. right. now left.
Defined.

(** X2. [loadTypeScriptConfig] throws exactly when the compiler options are a
    truthy value that is not an object ([true], a non-zero number, a
    non-empty string), the assignment being in strict code; it returns
    the loaded value as it is when there are no options (absent at any
    level, [null], [false], zero or the empty string), without adding
    [noUnusedLocals]; and the constructor throws exactly when
    [loadTypeScriptConfig] does or what was loaded is [null] or
    [undefined]. *)
Theorem loadTypeScriptConfig_outcome {number} (falsyNumber : number -> bool)
  (loaded : JsAny number) :
  (loadTypeScriptConfig falsyNumber loaded = Err TypeError
   <-> truthyPrimitive falsyNumber (compilerOptionsOf loaded) = true)
  /\ (truthy falsyNumber (compilerOptionsOf loaded) = false ->
      loadTypeScriptConfig falsyNumber loaded = Ok loaded)
  /\ (createOptions falsyNumber loaded = Err TypeError
      <-> isNullish loaded = true
          \/ truthyPrimitive falsyNumber (compilerOptionsOf loaded) = true)
  /\ (forall (Service : Type) (create : JsAny number -> Service) workingDirectory,
        match new falsyNumber create workingDirectory loaded with
        | Ok (directory, service) =>
            directory = workingDirectory
            /\ exists options,
                 createOptions falsyNumber loaded = Ok options
                 /\ service = create options
        | Err TypeError =>
            isNullish loaded = true
            \/ truthyPrimitive falsyNumber (compilerOptionsOf loaded) = true
        end).
Proof.
  assert (Hload : loadTypeScriptConfig falsyNumber loaded = Err TypeError
                  <-> truthyPrimitive falsyNumber (compilerOptionsOf loaded) = true).
  { split; [|apply load_primitive].
    destruct (options_cases falsyNumber loaded) as [H|[H|H]]; [| easy |].
    - now rewrite (load_object falsyNumber loaded H).
    - now rewrite (load_falsy falsyNumber loaded H). }
  assert (Hcreate : createOptions falsyNumber loaded = Err TypeError
                    <-> isNullish loaded = true
                        \/ truthyPrimitive falsyNumber (compilerOptionsOf loaded) = true).
  { unfold createOptions.
    destruct (options_cases falsyNumber loaded) as [H|[H|H]].
    - rewrite (load_object falsyNumber loaded H), withProperty_isNullish.
      destruct (get_isObject K_compilerOptions (get K_config loaded) _ eq_refl
                  (isObject_defined _ H)) as [Hconfig _].
      destruct (get_isObject K_config loaded _ eq_refl
                  (isObject_defined _ Hconfig)) as [_ Hnull].
      rewrite Hnull. split; [discriminate|].
      intros [?|Hp]; [discriminate|].
      destruct (compilerOptionsOf loaded); discriminate.
    - rewrite (load_primitive falsyNumber loaded H). split; auto.
    - rewrite (load_falsy falsyNumber loaded H).
      destruct (isNullish loaded); split; auto; try discriminate.
      intros [?|Hp]; [discriminate|].
      rewrite truthy_split, Hp, orb_true_r in H. discriminate. }
  split; [exact Hload|]. split; [apply load_falsy|]. split; [exact Hcreate|].
  intros Service create workingDirectory. unfold new.
  destruct (createOptions falsyNumber loaded) as [options|[]] eqn:E.
  - split; [reflexivity|]. now exists options.
  - now apply Hcreate.
Qed.

(** X3. Loading is idempotent: applied to its own result,
    [loadTypeScriptConfig] returns it unchanged. *)
Theorem loadTypeScriptConfig_idempotent {number} (falsyNumber : number -> bool)
  (loaded result : JsAny number) :
  loadTypeScriptConfig falsyNumber loaded = Ok result ->
  loadTypeScriptConfig falsyNumber result = Ok result.
Proof.
  intros Hload.
  destruct (options_cases falsyNumber loaded) as [Hobj|[H|H]].
  - exact (load_object_fixed falsyNumber loaded Hobj result Hload).
  - rewrite (load_primitive falsyNumber loaded H) in Hload. discriminate.
  - rewrite (load_falsy falsyNumber loaded H) in Hload. injection Hload as <-.
    now apply load_falsy.
Qed.

Lemma loadTypeScriptConfig_idempotent_witness :
  exists result,
    loadTypeScriptConfig (N.eqb 0) Samples.tsconfig = Ok result
    /\ loadTypeScriptConfig (N.eqb 0) result = Ok result.
Proof.
  eexists. split; [reflexivity|].
  apply (loadTypeScriptConfig_idempotent (N.eqb 0) Samples.tsconfig).
  reflexivity.
Defined.

End ConfigProperties.

(* ===================================================================== *)
(** ** What the replacement does to a diagnostic *)
(* ===================================================================== *)

Module ScrubProperties.
Import Js Rt SnippetCompiler Spec Vocabulary JsFacts PatternFacts ScrubFacts
  LineFacts ObjectFacts ErrorFacts HandlerFacts.

(** X4. In a text whose first lines carry no temporary file reference, the
    first line that carries one is rewritten from its very beginning: all
    that stands on the line up to the end of its last reference, and not
    only the reference, gives way to one expansion of the label (with
    [$&] the text replaced, [$1] what preceded the reference on the line,
    and so on); the lines above and the rest of the text are kept. With
    a label free of [$] the expansion is the label. *)
Theorem first_reference_line (env : Env) (example : CodeBlock.t)
  (above pre d post : jsstring) :
  endsLine above -> ~ hasBlockFile above ->
  Forall notTerminator pre -> d <> [] -> allDigits d -> ~ hasBlockFile post ->
  removeTemporaryFilePaths env
    (above ++ pre ++ (COMPILED_DOCS_BLOCK ++ d ++ DOT_TS) ++ post) example
  = above
    ++ getSubstitution (pre ++ COMPILED_DOCS_BLOCK ++ d ++ DOT_TS) above post pre
         (label env example)
    ++ post
  /\ (~ In DOLLAR (label env example) ->
      removeTemporaryFilePaths env
        (above ++ pre ++ (COMPILED_DOCS_BLOCK ++ d ++ DOT_TS) ++ post) example
      = above ++ label env example ++ post).
Proof.
  intros Hends Habove Hpre Hne Hd Hpost.
  assert (E : removeTemporaryFilePaths env
                (above ++ pre ++ (COMPILED_DOCS_BLOCK ++ d ++ DOT_TS) ++ post) example
              = above
                ++ getSubstitution (pre ++ COMPILED_DOCS_BLOCK ++ d ++ DOT_TS) above
                     post pre (label env example)
                ++ post).
  { unfold removeTemporaryFilePaths.
    now rewrite (replaceAll_first_reference (label env example) above pre
                   (COMPILED_DOCS_BLOCK ++ d ++ DOT_TS) post [] Hends Habove Hpre
                   (blockFile_of_digits d Hne Hd) Hpost). }
  split; [exact E|]. intros Hdollar. rewrite E.
  now rewrite getSubstitution_plain.
Qed.

Lemma first_reference_line_witness :
  removeTemporaryFilePaths Examples.env
    (Samples.heading ++ str "see /repo"
     ++ (COMPILED_DOCS_BLOCK ++ str "1007" ++ DOT_TS) ++ Samples.finding)
    Examples.secondBlock
  = Samples.heading ++ str "README.md " ++ [ARROW] ++ str " Code Block 2"
    ++ Samples.finding.
Proof.
  refine (proj2 (first_reference_line Examples.env Examples.secondBlock
                   Samples.heading (str "see /repo") (str "1007") Samples.finding
                   _ _ _ _ _ _) _).
  - right. now exists (str "Unable to compile TypeScript:"), LF.
  - apply no_marker_no_blockFile. reflexivity.
  - repeat constructor.
  - discriminate.
  - repeat constructor.
  - apply no_marker_no_blockFile. reflexivity.
  - vm_compute. intuition discriminate.
Defined.

(** X5. Scrubbing a text that was scrubbed changes nothing, for a label
    without [$] that opens no reference itself. *)
Theorem scrubbing_idempotent (env : Env) (example : CodeBlock.t) (s : jsstring) :
  ~ In DOLLAR (label env example) ->
  opensBlockFile (label env example) = false ->
  removeTemporaryFilePaths env (removeTemporaryFilePaths env s example) example
  = removeTemporaryFilePaths env s example.
Proof.
  intros Hdollar Hclosed. unfold removeTemporaryFilePaths at 1.
  apply replaceAll_unchanged. now apply replaceAll_clean.
Qed.

Lemma scrubbing_idempotent_witness :
  let once := removeTemporaryFilePaths Examples.env
                (Samples.heading ++ Examples.diagnostic Examples.tempFile)
                Examples.secondBlock in
  removeTemporaryFilePaths Examples.env once Examples.secondBlock = once.
Proof.
  apply (scrubbing_idempotent Examples.env Examples.secondBlock
           (Samples.heading ++ Examples.diagnostic Examples.tempFile)).
  - vm_compute. intuition discriminate.
  - vm_compute. reflexivity.
Defined.

(** X6. The path [compile] gives to the file of a block is one the
    replacement recognises, when the compiler works in the directory the
    entry points give it, [compiled-docs] under the current directory: a
    text that holds this path at the start of a line comes out with the
    label in place of the path. Here [path.join] has put
    [/compiled-docs] behind a directory without line break in its name,
    and [/block-<id>.ts] behind that. It is the slash before
    [compiled-docs] that the replacement looks for: a text without
    [/compiled-docs/block-], such as one that names the file relative to
    the current directory ([compiled-docs/block-<id>.ts]), is left as it
    is. *)
Theorem generated_path_is_scrubbed (env : Env) (cwd directory : jsstring)
  (st : State) (example : CodeBlock.t) (above post : jsstring) :
  pathJoin env cwd (str "compiled-docs") = directory ++ str "/compiled-docs" ->
  (forall id : N,
     pathJoin env (directory ++ str "/compiled-docs") (tempFileName (toString id))
     = (directory ++ str "/compiled-docs") ++ str "/" ++ tempFileName (toString id)) ->
  Forall notTerminator directory ->
  endsLine above -> ~ hasBlockFile above -> ~ hasBlockFile post ->
  ~ In DOLLAR (label env example) ->
  let codeFile :=
    fst (compileStart env (pathJoin env cwd (str "compiled-docs")) st) in
  removeTemporaryFilePaths env (above ++ codeFile ++ post) example
  = above ++ label env example ++ post
  /\ forall text,
       includes COMPILED_DOCS_BLOCK text = false ->
       removeTemporaryFilePaths env text example = text.
Proof.
  intros Hdir Hjoin Hdirectory Hends Habove Hpost Hdollar. cbv zeta. split.
  - unfold compileStart. cbn [fst]. rewrite Hdir, Hjoin. unfold tempFileName.
    replace (above ++ ((directory ++ str "/compiled-docs") ++ str "/"
                       ++ str "block-" ++ toString (hrtime env (reads st)) ++ DOT_TS)
                   ++ post)
      with (above ++ directory
            ++ (COMPILED_DOCS_BLOCK ++ toString (hrtime env (reads st)) ++ DOT_TS)
            ++ post)
      by (rewrite <- !app_assoc; reflexivity).
    unfold removeTemporaryFilePaths.
    rewrite (replaceAll_first_reference (label env example) above directory
               (COMPILED_DOCS_BLOCK ++ toString (hrtime env (reads st)) ++ DOT_TS)
               post [] Hends Habove Hdirectory
               (blockFile_of_digits _ (toString_nonempty _) (toString_digits _))
               Hpost).
    now rewrite getSubstitution_plain.
  - intros text Htext. unfold removeTemporaryFilePaths.
    apply replaceAll_unchanged. now apply no_marker_no_blockFile.
Qed.

Lemma generated_path_is_scrubbed_witness :
  removeTemporaryFilePaths Examples.env
    (Samples.heading
     ++ fst (compileStart Examples.env
               (pathJoin Examples.env (str "/repo") (str "compiled-docs"))
               Examples.start)
     ++ Samples.finding)
    Examples.secondBlock
  = Samples.heading ++ label Examples.env Examples.secondBlock ++ Samples.finding
  /\ removeTemporaryFilePaths Examples.env
       (Samples.heading ++ str "compiled-docs/block-1000.ts" ++ Samples.finding)
       Examples.secondBlock
     = Samples.heading ++ str "compiled-docs/block-1000.ts" ++ Samples.finding.
Proof.
  destruct (generated_path_is_scrubbed Examples.env (str "/repo") (str "/repo")
              Examples.start Examples.secondBlock Samples.heading Samples.finding)
    as [Hpath Hother].
  - reflexivity.
  - intros id. reflexivity.
  - repeat constructor.
  - right. now exists (str "Unable to compile TypeScript:"), LF.
  - apply no_marker_no_blockFile. reflexivity.
  - apply no_marker_no_blockFile. reflexivity.
  - vm_compute. intuition discriminate.
  - split; [exact Hpath|]. apply Hother. reflexivity.
Defined.

(** X7. The replacement works line by line: the lines of the scrubbed text
    are the scrubbed lines of the text, one for one, for a label without
    [$] and without line feed. *)
Theorem scrubbing_by_lines (env : Env) (example : CodeBlock.t) (text : jsstring) :
  ~ In DOLLAR (label env example) -> ~ In LF (label env example) ->
  split LF (removeTemporaryFilePaths env text example)
  = map (fun line => removeTemporaryFilePaths env line example) (split LF text).
Proof.
  intros Hdollar Hlf. unfold removeTemporaryFilePaths.
  now apply replaceAll_split.
Qed.

Lemma scrubbing_by_lines_witness :
  split LF (removeTemporaryFilePaths Examples.env
              (Samples.heading ++ Examples.diagnostic Examples.tempFile)
              Examples.secondBlock)
  = map (fun line => removeTemporaryFilePaths Examples.env line Examples.secondBlock)
        (split LF (Samples.heading ++ Examples.diagnostic Examples.tempFile)).
Proof.
  apply (scrubbing_by_lines Examples.env Examples.secondBlock
           (Samples.heading ++ Examples.diagnostic Examples.tempFile)).
  - vm_compute. intuition discriminate.
  - vm_compute. intuition discriminate.
Defined.

Lemma getProp_scrubbed (env : Env) (example : CodeBlock.t) (k m : jsstring)
  (ps : list Property) :
  getProp k (map (scrubProperty env example) (setProp k (VString m) ps))
  = Some (VString (if entryOnceAssigned k ps
                   then removeTemporaryFilePaths env m example
                   else m)).
Proof.
  induction ps as [|p ps IH]; cbn [setProp map getProp entryOnceAssigned].
  - unfold scrubProperty. cbn [enumerable value key]. now rewrite eqb_refl.
  - destruct (Js.eqb (key p) k) eqn:E; cbn [map getProp].
    + unfold scrubProperty. cbn [enumerable value key].
      destruct (enumerable p); cbn [key value]; now rewrite E.
    + rewrite ObjectFacts.scrubProperty_key, E. exact IH.
Qed.

(** X8. Whenever the [catch] branch makes a result of what was thrown (it
    throws itself when the [message] it reads is not a string and when
    an assignment is refused), the [message] read was a string, and the
    error of the result has an own [message] that is a string: the
    scrubbed message of what was thrown (its text, for a value that is
    not an error; the empty string, for an error without a message of
    its own), scrubbed a second time when [message] is among the
    enumerable properties. For a label without [$] that opens no
    reference the second pass changes nothing, and no temporary file
    reference is left in the message. *)
Theorem failure_message (env : Env) (example : CodeBlock.t) (rawError : Thrown)
  (result : SnippetCompilationResult.t) :
  compilationFailedChecked env example rawError = Some result ->
  wellFormed (toError rawError) ->
  exists thrown error,
    (getProp K_message (properties (toError rawError)) = Some (VString thrown)
     \/ (getProp K_message (properties (toError rawError)) = None /\ thrown = []))
    /\ SnippetCompilationResult.error result = Some error
    /\ getProp K_message (properties error)
       = Some (VString
                 (if entryOnceAssigned K_message (properties (toError rawError))
                  then removeTemporaryFilePaths env
                         (removeTemporaryFilePaths env thrown example) example
                  else removeTemporaryFilePaths env thrown example))
    /\ (~ In DOLLAR (label env example) ->
        opensBlockFile (label env example) = false ->
        readString K_message error = removeTemporaryFilePaths env thrown example
        /\ ~ hasBlockFile (readString K_message error)).
Proof.
  intros Hresult Hwf.
  pose proof (checked_sound env example rawError result Hresult) as ->.
  unfold compilationFailedChecked in Hresult.
  destruct (messageRead (toError rawError)) as [thrown|] eqn:Hread;
    [clear Hresult | discriminate].
  pose proof (messageRead_sound _ _ Hread) as ->.
  exists (readString K_message (toError rawError)). eexists. split.
  { unfold messageRead, readString in *.
    destruct (getProp K_message (properties (toError rawError))) as [[m|tag]|];
      [now left | discriminate | now right]. }
  split.
  { now apply ObjectFacts.compilationFailed_error. }
  assert (Hm : getProp K_message
                 (properties (scrubbedError env example (toError rawError)))
               = Some (VString
                         (if entryOnceAssigned K_message
                               (properties (toError rawError))
                          then removeTemporaryFilePaths env
                                 (removeTemporaryFilePaths env
                                    (readString K_message (toError rawError))
                                    example) example
                          else removeTemporaryFilePaths env
                                 (readString K_message (toError rawError))
                                 example)))
    by apply getProp_scrubbed.
  split; [exact Hm|]. intros Hdollar Hclosed.
  assert (Hr : readString K_message
                 (scrubbedError env example (toError rawError))
               = removeTemporaryFilePaths env
                   (readString K_message (toError rawError)) example).
  { unfold readString at 1. rewrite Hm.
    destruct (entryOnceAssigned _ _); [|reflexivity].
    unfold removeTemporaryFilePaths at 1.
    apply replaceAll_unchanged. now apply replaceAll_clean. }
  split; [exact Hr|]. rewrite Hr. now apply replaceAll_clean.
Qed.

Lemma failure_message_witness :
  exists error,
    SnippetCompilationResult.error
      (compilationFailed Examples.env Examples.secondBlock
         (ThrownValue Examples.ttyLine))
    = Some error
    /\ readString K_message error
       = str "README.md " ++ [ARROW] ++ str " Code Block 2"
         ++ str ":5:1 - error TS2307: Cannot find module './block-helpers'.".
Proof.
  destruct (failure_message Examples.env Examples.secondBlock
              (ThrownValue Examples.ttyLine)
              (compilationFailed Examples.env Examples.secondBlock
                 (ThrownValue Examples.ttyLine)))
    as (thrown & error & Hread & He & _ & Hm).
  - reflexivity.
  - unfold wellFormed. cbn. repeat constructor. intros [].
  - exists error. split; [exact He|].
    destruct Hm as [Hm _].
    + vm_compute. intuition discriminate.
    + vm_compute. reflexivity.
    + rewrite Hm. destruct Hread as [Hread|[Hread _]]; [|discriminate].
      injection Hread as <-. vm_compute. reflexivity.
Defined.

End ScrubProperties.

(* ===================================================================== *)
(** ** Line numbers, from the thrown error to the result *)
(* ===================================================================== *)

Module DiagnosticProperties.
Import Js Rt SnippetCompiler Spec Vocabulary JsFacts PatternFacts ScrubFacts
  LineFacts ObjectFacts ErrorFacts DiagnosticClaims.

Lemma includes_head (x s : jsstring) :
  includes x s = false -> stripPrefix x s = None.
Proof. destruct s; simpl; now destruct (stripPrefix x _). Qed.

Lemma includes_tail (x : jsstring) c (s : jsstring) :
  includes x (c :: s) = false -> includes x s = false.
Proof. simpl. now destruct (stripPrefix x (c :: s)). Qed.



(** X10. A line in the terminal format, [<path>:LINE:COL], yields its line
    number because the replacement has put the label, which ends in
    [Code Block <index>], where the path stood: the pattern, applied to
    the scrubbed line without its colours, finds [Code Block
    <index>:LINE:COL]. Here strip-ansi turns the coloured label and what
    follows it into the plain label followed by [:LINE:COL], the name of
    the document does not itself look like a reference, and LINE is below
    2^53, so that [parseInt] returns it exactly. *)
Theorem terminal_reference_found (env : Env) (example : CodeBlock.t)
  (pre d tail rest : jsstring) (line column : N) :
  Forall notTerminator pre -> d <> [] -> allDigits d -> ~ hasBlockFile tail ->
  ~ In DOLLAR (label env example) ->
  (line < 2 ^ 53)%N ->
  stripAnsi env (label env example ++ tail)
  = plainLabel example ++ [COLON] ++ toString line ++ [COLON] ++ toString column
    ++ rest ->
  startsWithDigit rest = false ->
  noReferenceBefore (CodeBlock.file example ++ str " " ++ [ARROW] ++ str " ")
    (CODE_BLOCK ++ toString (N.of_nat (CodeBlock.index example)) ++ [COLON]
     ++ toString line ++ [COLON] ++ toString column ++ rest) = true ->
  lineNumberOf
    (stripAnsi env
       (removeTemporaryFilePaths env
          (pre ++ (COMPILED_DOCS_BLOCK ++ d ++ DOT_TS) ++ tail) example))
  = Some (Finite line).
Proof.
  intros Hpre Hne Hd Htail Hdollar Hline Hstrip Hrest Hfile.
  unfold removeTemporaryFilePaths.
  pose proof (replaceAll_first_reference (label env example) [] pre
                (COMPILED_DOCS_BLOCK ++ d ++ DOT_TS) tail [] (or_introl eq_refl)) as E.
  cbn [app] in E. rewrite E; clear E;
    [| intros (a & p & b & Ea & Hp); apply blockFile_nonempty in Hp;
       destruct a; destruct p; try discriminate; contradiction
     | assumption | now apply blockFile_of_digits | assumption].
  rewrite getSubstitution_plain by assumption. rewrite Hstrip.
  unfold plainLabel, lineNumberOf.
  replace ((CodeBlock.file example ++ str " " ++ [ARROW] ++ str " "
            ++ CODE_BLOCK ++ toString (N.of_nat (CodeBlock.index example)))
           ++ [COLON] ++ toString line ++ [COLON] ++ toString column ++ rest)
    with ((CodeBlock.file example ++ str " " ++ [ARROW] ++ str " ")
          ++ CODE_BLOCK ++ toString (N.of_nat (CodeBlock.index example)) ++ [COLON]
          ++ toString line ++ [COLON] ++ toString column ++ rest)
    by now rewrite <- !app_assoc.
  rewrite (matchLineReference_skip _ _ Hfile), matchLineReference_eq.
  rewrite ttyReference_at;
    try apply toString_nonempty; try apply toString_digits; try assumption.
  now rewrite parseInt_toString.
Qed.

Lemma terminal_reference_found_witness :
  lineNumberOf
    (stripAnsi Examples.colourEnv
       (removeTemporaryFilePaths Examples.colourEnv Samples.prettyLine
          Examples.secondBlock))
  = Some (Finite 5).
Proof.
  apply (terminal_reference_found Examples.colourEnv Examples.secondBlock
           (Examples.ESC :: str "[96m/repo") (str "1007") Samples.prettyTail
           (str " - error TS2307: Cannot find module.") 5 1).
  - repeat constructor.
  - discriminate.
  - repeat constructor.
  - apply no_marker_no_blockFile. reflexivity.
  - vm_compute. intuition discriminate.
  - reflexivity.
  - vm_compute. reflexivity.
  - reflexivity.
  - vm_compute. reflexivity.
Defined.

(** X11. A line yields a number only if it holds an opening parenthesis or
    the words [Code Block ] : in particular the terminal format is not
    recognised on a path that was not replaced by the label. *)
Theorem line_needs_marker (stripped : jsstring) :
  includes CODE_BLOCK stripped = false -> ~ In 40%N stripped ->
  lineNumberOf stripped = None.
Proof.
  intros Hwords Hparen. unfold lineNumberOf.
  assert (H : matchLineReference stripped = None); [|now rewrite H].
  induction stripped as [|c s IH]; rewrite matchLineReference_eq.
  - reflexivity.
  - assert (Ht : ttyReference (c :: s) = None).
    { unfold ttyReference. now rewrite (includes_head _ _ Hwords). }
    rewrite Ht, nonTtyReference_head by (intros ->; apply Hparen; now left).
    apply IH; [now apply (includes_tail _ c) | intros H; apply Hparen; now right].
Qed.

Lemma line_needs_marker_witness :
  lineNumberOf
    (str "/repo/compiled-docs/block-1007.ts:5:1 - error TS2307: Cannot find module.")
  = None.
Proof.
  apply line_needs_marker; [reflexivity|]. vm_compute. intuition discriminate.
Defined.

End DiagnosticProperties.

(* ===================================================================== *)
(** ** What a run does, and in which order *)
(* ===================================================================== *)

Module RunProperties.
Import Js Rt SnippetCompiler Spec Vocabulary JsFacts RtFacts ScheduleFacts
  CompilerFacts ResultFacts TraceFacts.



(** X13. If the package manifest or any one of the requested documents cannot
    be read, not one block is compiled, of whichever document: the run
    removes, makes and removes the directory and rejects, without a file
    written, the service called or the clock read. *)
Theorem extraction_failure_compiles_nothing (env : Env) (wd : jsstring)
  (sE sC : Scheduler) (files : list jsstring) (st : State) :
  removeFault env (removes st) = None -> ensureDirFault env = None ->
  (exists e, packageInfoRead env = Err e)
  \/ (exists file e, In file files /\ extract env file = Err e) ->
  let out := compileSnippets env wd sE sC files st in
  log (snd out)
  = log st ++ [EvRemove true; EvEnsureDir true;
               EvRemove (isNone (removeFault env (S (removes st))))]
  /\ reads (snd out) = reads st
  /\ exists rejection, fst out = Err rejection.
Proof.
  intros Hremove Hensure Hfail. cbv zeta.
  destruct (not_extracted_outcome env sE files (prepared st) Hfail) as [rej Hrej].
  destruct (run_not_extracted env wd sE sC files st rej Hremove Hensure Hrej)
    as (Hlog & Hreads & Hout).
  split; [exact Hlog|]. split; [exact Hreads|]. rewrite Hout.
  destruct (removeFault env (S (removes st))); now eexists.
Qed.

Lemma extraction_failure_compiles_nothing_witness :
  log (snd (compileSnippets Examples.env Examples.workingDirectory Examples.fifo
              Examples.fifo [Examples.readme; str "B.md"] Examples.start))
  = [EvRemove true; EvEnsureDir true; EvRemove true].
Proof.
  apply (extraction_failure_compiles_nothing Examples.env Examples.workingDirectory
           Examples.fifo Examples.fifo [Examples.readme; str "B.md"] Examples.start
           eq_refl eq_refl).
  right. eexists (str "B.md"), _. split; [right; now left | reflexivity].
Defined.

(** X14. Without a block to compile (no document requested, or none of them
    holding a block) a run that could prepare the directory and read the
    manifest only removes, makes and removes the directory, and fulfils
    with the empty list when the last removal succeeds. *)
Theorem no_blocks_no_work (env : Env) (wd : jsstring) (sE sC : Scheduler)
  (files : list jsstring) (st : State) (pkg : PackageDefinition)
  (blocks : list (list jsstring)) :
  removeFault env (removes st) = None -> ensureDirFault env = None ->
  packageInfoRead env = Ok pkg -> extracted env files blocks ->
  concat blocks = [] ->
  let out := compileSnippets env wd sE sC files st in
  log (snd out)
  = log st ++ [EvRemove true; EvEnsureDir true;
               EvRemove (isNone (removeFault env (S (removes st))))]
  /\ reads (snd out) = reads st
  /\ fst out = match removeFault env (S (removes st)) with
               | Some e => Err (mkRejection WorkingDirectory e)
               | None => Ok []
               end.
Proof.
  intros Hremove Hensure Hpkg Hex Hnone. cbv zeta.
  assert (Hexamples : examplesOf env pkg files blocks = []).
  { apply (map_eq_nil CodeBlock.snippet).
    now rewrite (examplesOf_snippets env pkg files blocks
                   (extracted_length env files blocks Hex)). }
  destruct (run_extracted env wd sE sC files st (examplesOf env pkg files blocks)
              Hremove Hensure
              (extracted_outcome env sE files (prepared st) pkg blocks Hpkg Hex))
    as [Hlog Hreads].
  rewrite Hexamples in *. cbn [length] in Hreads. rewrite Nat.add_0_r in Hreads.
  split; [exact Hlog|]. split; [exact Hreads|].
  pose proof (finally_run env wd sE sC files st) as Hfin. cbv zeta in Hfin.
  destruct (removeFault env (S (removes st))) as [e|] eqn:Hlast.
  - now destruct Hfin as [Hfin _].
  - apply (compileSnippets_fulfils env wd sE sC files st []).
    repeat split; try assumption. exists pkg, blocks.
    repeat split; try assumption. now rewrite Hexamples.
Qed.

Lemma no_blocks_no_work_witness :
  let out := compileSnippets Examples.env Examples.workingDirectory Examples.fifo
               Examples.fifo [Examples.empty] Examples.start in
  log (snd out) = [EvRemove true; EvEnsureDir true; EvRemove true]
  /\ reads (snd out) = 0
  /\ fst out = Ok [].
Proof.
  apply (no_blocks_no_work Examples.env Examples.workingDirectory Examples.fifo
           Examples.fifo [Examples.empty] Examples.start
           (mkPackage (str "my-pkg") (str "index.ts")) [[]]
           eq_refl eq_refl eq_refl).
  - repeat constructor.
  - reflexivity.
Defined.

(** X15. When several documents cannot be extracted, the run rejects with the
    failure of the one whose extraction completes first: which error the
    caller sees depends on the order of completion, not on the order of
    the arguments. *)
Theorem first_failure_rejects (env : Env) (wd : jsstring) (sE sC : Scheduler)
  (files : list jsstring) (st : State) (pkg : PackageDefinition)
  (file : jsstring) (e : JsError) :
  removeFault env (removes st) = None -> ensureDirFault env = None ->
  removeFault env (S (removes st)) = None ->
  packageInfoRead env = Ok pkg ->
  firstFailure env (inCompletionOrder sE files) = Some (file, e) ->
  fst (compileSnippets env wd sE sC files st)
  = Err (mkRejection (Document file) e).
Proof.
  intros Hremove Hensure Hlast Hpkg Hfirst.
  destruct (run_not_extracted env wd sE sC files st
              (mkRejection (Document file) e) Hremove Hensure
              (extraction_first env sE files (prepared st) pkg file e Hpkg Hfirst))
    as (_ & _ & Hout).
  cbv zeta in Hout. now rewrite Hlast in Hout.
Qed.

Lemma first_failure_rejects_witness :
  option_map cause
    (match fst (compileSnippets Examples.env Examples.workingDirectory
                  Examples.fifo Examples.fifo Samples.gaps Examples.start) with
     | Err rejection => Some rejection
     | Ok _ => None
     end)
  = Some (Document (str "A.md"))
  /\ option_map cause
       (match fst (compileSnippets Examples.env Examples.workingDirectory
                     Examples.lifo Examples.fifo Samples.gaps Examples.start) with
        | Err rejection => Some rejection
        | Ok _ => None
        end)
     = Some (Document (str "B.md")).
Proof.
  split.
  - rewrite (first_failure_rejects Examples.env Examples.workingDirectory
               Examples.fifo Examples.fifo Samples.gaps Examples.start
               (mkPackage (str "my-pkg") (str "index.ts")) (str "A.md")
               (newError (str "ENOENT: no such file or directory, open " ++ str "A.md"))
               eq_refl eq_refl eq_refl eq_refl eq_refl).
    reflexivity.
  - rewrite (first_failure_rejects Examples.env Examples.workingDirectory
               Examples.lifo Examples.fifo Samples.gaps Examples.start
               (mkPackage (str "my-pkg") (str "index.ts")) (str "B.md")
               (newError (str "ENOENT: no such file or directory, open " ++ str "B.md"))
               eq_refl eq_refl eq_refl eq_refl eq_refl).
    reflexivity.
Defined.

End RunProperties.
